(** * Brick Deal Hunter: the synchronisation pipeline of the cloud functions

    A shallow embedding of the cloud-functions source (catalog fetcher,
    Firestore persistence, simulated price generator, deal evaluation and
    retention sweep) together with the properties its specification states.

    Modelling conventions.
    - A JavaScript [number] is an exact rational extended with [NaN] and the
      two infinities: the rounding error of binary64 and the sign of zero are
      abstracted away, division by zero and [NaN] comparisons are kept.
    - A Firestore document is a finite map from field names to values, a
      collection a finite map from document ids to documents; a write with
      [{ merge: true }] overrides the fields it names and keeps the others.
      A property that the data of a write does not have is not stored; a
      property that is there with the value [undefined] makes the client
      refuse the data and throw, the store being created without
      [ignoreUndefinedProperties].
    - [Math.random()], the wall clock and the upstream HTTP API are oracles
      of the environment, consumed in call order; the store, the oracle
      positions and a log of the effects performed form the state.
    - Calls to [logger] and the [setTimeout] pauses have no effect on any
      value computed and are left out.
    - A loop that is not structurally recursive takes fuel; running out of
      fuel, or reading a catalog document that does not have the shape the
      unchecked cast [as LegoSet] assumes, makes the computation stuck
      ([None]). *)

From Stdlib Require Import QArith Qcanon Qround Lia Lqa ZArith Ascii String.
From stdpp Require Import gmap strings list fin_maps.

Local Open Scope string_scope.
Local Open Scope list_scope.
Local Open Scope nat_scope.

(* ===================================================================== *)
(** ** JavaScript numbers *)
(* ===================================================================== *)

Inductive number :=
| NaN
| PosInf
| NegInf
| Fin (q : Qc).

Global Instance number_eq_dec : EqDecision number.
Proof. solve_decision. Defined.

Definition of_Q (q : Q) : number := Fin (Q2Qc q).
Definition of_Z (z : Z) : number := of_Q (inject_Z z).

Definition num_neg (x : number) : number :=
  match x with
  | NaN => NaN
  | PosInf => NegInf
  | NegInf => PosInf
  | Fin q => Fin (- q)%Qc
  end.

Definition num_add (x y : number) : number :=
  match x, y with
  | NaN, _ | _, NaN => NaN
  | PosInf, NegInf | NegInf, PosInf => NaN
  | PosInf, _ | _, PosInf => PosInf
  | NegInf, _ | _, NegInf => NegInf
  | Fin a, Fin b => Fin (a + b)%Qc
  end.

Definition num_sub (x y : number) : number := num_add x (num_neg y).

(** The infinity whose sign is that of [c] times the sign of [pos]; a zero
    factor gives [NaN]. *)
Definition inf_signed (pos : bool) (c : comparison) : number :=
  match c with
  | Eq => NaN
  | Gt => if pos then PosInf else NegInf
  | Lt => if pos then NegInf else PosInf
  end.

Definition num_mul (x y : number) : number :=
  match x, y with
  | NaN, _ | _, NaN => NaN
  | Fin a, Fin b => Fin (a * b)%Qc
  | PosInf, Fin b | Fin b, PosInf => inf_signed true (b ?= 0)%Qc
  | NegInf, Fin b | Fin b, NegInf => inf_signed false (b ?= 0)%Qc
  | PosInf, PosInf | NegInf, NegInf => PosInf
  | PosInf, NegInf | NegInf, PosInf => NegInf
  end.

(** Division. A zero divisor is taken as [+0]: [x / 0] is [NaN] for [x = 0]
    and the infinity of the sign of [x] otherwise. *)
Definition num_div (x y : number) : number :=
  match x, y with
  | NaN, _ | _, NaN => NaN
  | Fin a, Fin b =>
      match (b ?= 0)%Qc with
      | Eq => inf_signed true (a ?= 0)%Qc
      | _ => Fin (a / b)%Qc
      end
  | Fin _, _ => Fin 0%Qc
  | PosInf, Fin b => if decide (b < 0)%Qc then NegInf else PosInf
  | NegInf, Fin b => if decide (b < 0)%Qc then PosInf else NegInf
  | _, _ => NaN
  end.

(** [Math.round]: the nearest integer, a tie going up. *)
Definition Math_round (x : number) : number :=
  match x with
  | Fin q => of_Z (Qfloor (q + Q2Qc (1 # 2))%Qc)
  | _ => x
  end.

Definition Math_floor (x : number) : number :=
  match x with
  | Fin q => of_Z (Qfloor q)
  | _ => x
  end.

(** Comparisons: every comparison with [NaN] is false. *)
Definition num_ltb (x y : number) : bool :=
  match x, y with
  | NaN, _ | _, NaN => false
  | _, NegInf | PosInf, _ => false
  | NegInf, _ | _, PosInf => true
  | Fin a, Fin b => bool_decide (a < b)%Qc
  end.

Definition num_gtb (x y : number) : bool := num_ltb y x.

Definition num_geb (x y : number) : bool :=
  match x, y with
  | NaN, _ | _, NaN => false
  | PosInf, _ | _, NegInf => true
  | NegInf, _ | _, PosInf => false
  | Fin a, Fin b => bool_decide (b <= a)%Qc
  end.

Declare Scope number_scope.
Delimit Scope number_scope with num.
Bind Scope number_scope with number.
Infix "+" := num_add : number_scope.
Infix "-" := num_sub : number_scope.
Infix "*" := num_mul : number_scope.
Infix "/" := num_div : number_scope.
Infix "<?" := num_ltb : number_scope.
Infix ">?" := num_gtb (at level 70) : number_scope.
Infix ">=?" := num_geb (at level 70) : number_scope.

(* ===================================================================== *)
(** ** JavaScript strings (byte strings; only ASCII letters have a case) *)
(* ===================================================================== *)

Definition lower_ascii (c : ascii) : ascii :=
  let n := nat_of_ascii c in
  if ((65 <=? n) && (n <=? 90))%nat then ascii_of_nat (n + 32) else c.

Fixpoint toLowerCase (s : string) : string :=
  match s with
  | EmptyString => EmptyString
  | String c s' => String (lower_ascii c) (toLowerCase s')
  end.

(** [s.includes(needle)] *)
Fixpoint includes (needle s : string) : bool :=
  if String.prefix needle s then true
  else match s with
       | EmptyString => false
       | String _ s' => includes needle s'
       end.

Fixpoint string_drop (n : nat) (s : string) : string :=
  match n, s with
  | O, _ => s
  | S n', String _ s' => string_drop n' s'
  | S _, EmptyString => EmptyString
  end.

(** [s.replace(pat, rep)] with a string pattern: the first occurrence only. *)
Fixpoint replace (pat rep s : string) : string :=
  if String.prefix pat s then rep +:+ string_drop (String.length pat) s
  else match s with
       | EmptyString => EmptyString
       | String c s' => String c (replace pat rep s')
       end.

(* ===================================================================== *)
(** ** Types *)
(* ===================================================================== *)

Inductive Availability := available | coming_soon | sold_out | retiring_soon.

Global Instance Availability_eq_dec : EqDecision Availability.
Proof. solve_decision. Defined.

Definition Availability_to_string (a : Availability) : string :=
  match a with
  | available => "available"
  | coming_soon => "coming_soon"
  | sold_out => "sold_out"
  | retiring_soon => "retiring_soon"
  end.

Definition Availability_of_string (s : string) : option Availability :=
  if decide (s = "available") then Some available
  else if decide (s = "coming_soon") then Some coming_soon
  else if decide (s = "sold_out") then Some sold_out
  else if decide (s = "retiring_soon") then Some retiring_soon
  else None.

(** [interface LegoSet] *)
Module LegoSet.
Record t := mk {
  setNumber : string;
  name : string;
  price : number;
  imageUrl : string;
  url : string;
  theme : option string;
  themeId : option number;
  pieces : option number;
  year : option number;
  availability : Availability;
}.
End LegoSet.

(** Timestamps ([admin.firestore.Timestamp], [Date.now()]) are counted in
    milliseconds since the epoch. *)
Definition Timestamp := Z.

(** [interface PriceData] *)
Module PriceData.
Record t := mk {
  setNumber : string;
  setName : string;
  retailer : string;
  currentPrice : number;
  originalPrice : number;
  url : string;
  inStock : bool;
  lastUpdated : Timestamp;
  theme : option string;
  imageUrl : option string;
  pieces : option number;
}.
End PriceData.

(** [interface DealData extends PriceData] *)
Module DealData.
Record t := mk {
  base : PriceData.t;
  percentOff : number;
  savings : number;
}.
End DealData.

(** An entry of the [results] array of a Rebrickable page. *)
Module RawSet.
Record t := mk {
  set_num : string;
  name : string;
  year : Z;
  theme_id : Z;
  num_parts : Z;
  set_img_url : option string;
}.
End RawSet.

(** The JSON body of a page: [results] and the [next] cursor, each possibly
    missing. *)
Record PageData := {
  results : option (list RawSet.t);
  next : option string;
}.

(** The query parameters of a page request. *)
Record Request := {
  min_year : Z;
  max_year : Z;
  page : nat;
  page_size : nat;
}.

(** What [fetch] gives back: it rejects (transport error), or resolves to a
    response with its [ok] flag, its status and its body, where [None]
    stands for a body on which [response.json()] rejects. *)
Inductive HttpResult :=
| NetworkError
| Response (ok : bool) (status : Z) (body : option PageData).

(* ===================================================================== *)
(** ** The document store *)
(* ===================================================================== *)

Inductive Value :=
| VString (s : string)
| VNumber (x : number)
| VBool (b : bool)
| VTimestamp (t : Timestamp).

Abbreviation Doc := (gmap string Value).
Abbreviation Collection := (gmap string Doc).
Abbreviation Firestore := (gmap string Collection).

(** [db.collection(name)] *)
Definition collection (db : Firestore) (name : string) : Collection :=
  default ∅ (db !! name).

(** The writes of a batch, and of the single-document calls. *)
Inductive WriteOp :=
| OpSetMerge (coll key : string) (data : Doc)
| OpDelete (coll key : string).

(** [ref.set(data, { merge: true })]: the fields of [data] over the stored
    document (the union of maps is left-biased). *)
Definition set_merge (data : Doc) (stored : option Doc) : Doc :=
  data ∪ default ∅ stored.

Definition apply_op (db : Firestore) (op : WriteOp) : Firestore :=
  match op with
  | OpSetMerge c k data =>
      <[c := <[k := set_merge data (collection db c !! k)]> (collection db c)]> db
  | OpDelete c k =>
      <[c := delete k (collection db c)]> db
  end.

Definition apply_ops (db : Firestore) (ops : list WriteOp) : Firestore :=
  fold_left apply_op ops db.

(** The spread of a record into a document: one field per property, an
    optional property that is absent giving no field. *)
Definition opt_field {A} (k : string) (f : A → Value) (o : option A)
  : list (string * Value) :=
  match o with
  | Some a => [(k, f a)]
  | None => []
  end.

Definition LegoSet_data (s : LegoSet.t) : Doc :=
  list_to_map
    ([ ("setNumber", VString (LegoSet.setNumber s));
       ("name", VString (LegoSet.name s));
       ("price", VNumber (LegoSet.price s));
       ("imageUrl", VString (LegoSet.imageUrl s));
       ("url", VString (LegoSet.url s)) ]
     ++ opt_field "theme" VString (LegoSet.theme s)
     ++ opt_field "themeId" VNumber (LegoSet.themeId s)
     ++ opt_field "pieces" VNumber (LegoSet.pieces s)
     ++ opt_field "year" VNumber (LegoSet.year s)
     ++ [ ("availability",
           VString (Availability_to_string (LegoSet.availability s))) ]).

(** A JavaScript object handed to the store as the data of a write: its
    properties in order, [None] standing for a property that is there with
    the value [undefined]. *)
Abbreviation Obj := (list (string * option Value)).

(** The record that [generateSimulatedPrice] builds. Its object literal
    names every property, so that [theme] and [pieces] are there also for a
    set that has none, with the value [undefined]. *)
Definition PriceData_data (p : PriceData.t) : Obj :=
  [ ("setNumber", Some (VString (PriceData.setNumber p)));
    ("setName", Some (VString (PriceData.setName p)));
    ("retailer", Some (VString (PriceData.retailer p)));
    ("currentPrice", Some (VNumber (PriceData.currentPrice p)));
    ("originalPrice", Some (VNumber (PriceData.originalPrice p)));
    ("url", Some (VString (PriceData.url p)));
    ("inStock", Some (VBool (PriceData.inStock p)));
    ("lastUpdated", Some (VTimestamp (PriceData.lastUpdated p)));
    ("imageUrl", VString <$> PriceData.imageUrl p);
    ("theme", VString <$> PriceData.theme p);
    ("pieces", VNumber <$> PriceData.pieces p) ].

(** [{ ...priceData, percentOff, savings }] *)
Definition DealData_data (d : DealData.t) : Obj :=
  PriceData_data (DealData.base d)
  ++ [ ("percentOff", Some (VNumber (DealData.percentOff d)));
       ("savings", Some (VNumber (DealData.savings d))) ].

(** The first property of the data whose value is [undefined], if any. *)
Fixpoint undefined_property (data : Obj) : option string :=
  match data with
  | [] => None
  | (k, None) :: _ => Some k
  | (_, Some _) :: data' => undefined_property data'
  end.

(** The document made of the properties of the data that have a value; of
    two properties of the same name the later one counts. *)
Definition document (data : Obj) : Doc :=
  fold_left (fun d kv =>
               match kv.2 with
               | Some v => <[kv.1 := v]> d
               | None => d
               end) data ∅.

Definition PriceData_doc (p : PriceData.t) : Doc :=
  document (PriceData_data p).

Definition DealData_doc (d : DealData.t) : Doc :=
  document (DealData_data d).

(** [doc.data() as LegoSet]: the cast is unchecked; the model reads the
    fields of the interface and is undefined ([None]) on a document that
    lacks a required field or holds one of another type. *)
Definition get_string (d : Doc) (k : string) : option string :=
  match d !! k with Some (VString s) => Some s | _ => None end.

Definition get_number (d : Doc) (k : string) : option number :=
  match d !! k with Some (VNumber x) => Some x | _ => None end.

Definition get_opt_string (d : Doc) (k : string) : option (option string) :=
  match d !! k with
  | None => Some None
  | Some (VString s) => Some (Some s)
  | Some _ => None
  end.

Definition get_opt_number (d : Doc) (k : string) : option (option number) :=
  match d !! k with
  | None => Some None
  | Some (VNumber x) => Some (Some x)
  | Some _ => None
  end.

Definition as_LegoSet (d : Doc) : option LegoSet.t :=
  setNumber ← get_string d "setNumber";
  name ← get_string d "name";
  price ← get_number d "price";
  imageUrl ← get_string d "imageUrl";
  url ← get_string d "url";
  theme ← get_opt_string d "theme";
  themeId ← get_opt_number d "themeId";
  pieces ← get_opt_number d "pieces";
  year ← get_opt_number d "year";
  availability ← get_string d "availability" ≫= Availability_of_string;
  Some (LegoSet.mk setNumber name price imageUrl url theme themeId pieces
          year availability).

(* ===================================================================== *)
(** ** Environment, state and the monad of the cloud functions *)
(* ===================================================================== *)

(** The oracles: the [n]-th value of [Math.random()], the [n]-th reading of
    the wall clock, the calendar year of an instant, and the answer of the
    upstream API to the [n]-th request. *)
Record Env := {
  random : nat → Qc;
  clock : nat → Timestamp;
  fullYear : Timestamp → Z;
  upstream : nat → Request → HttpResult;
}.

(** The effects a run performs, in order. [EvGenerated] is an observation
    point, not an effect: it records the values of the local variables
    [discountPercent] and [inStock] of [generateSimulatedPrice] for a set
    number and a retailer. *)
Inductive Event :=
| EvRequest (r : Request)
| EvWrite (op : WriteOp)
| EvCommit (ops : list WriteOp)
| EvGenerated (setNumber retailer : string) (discountPercent : number)
    (inStock : bool).

#[projections(primitive)]
Record State := mkState {
  db : Firestore;
  random_calls : nat;
  clock_calls : nat;
  http_calls : nat;
  log : list Event;
}.

Definition M (A : Type) : Type := Env → State → option (A * State).

Definition ret {A} (a : A) : M A := fun _ st => Some (a, st).

Definition bind {A B} (m : M A) (k : A → M B) : M B :=
  fun env st =>
    match m env st with
    | Some (a, st') => k a env st'
    | None => None
    end.

Definition stuck {A} : M A := fun _ _ => None.

Notation "'do' x <- m ; k" := (bind m (fun x => k))
  (at level 10, x name, m at level 100, k at level 200).
Notation "m ;; k" := (bind m (fun _ => k))
  (at level 100, k at level 200, right associativity).

(** What the client throws when it refuses the data of a write: the store
    is created by [admin.firestore()] without [ignoreUndefinedProperties],
    and a property whose value is [undefined] is then not a value the store
    takes. *)
Inductive Error :=
| UndefinedValue (field : string).

(** How a computation that may throw ends. *)
Inductive Outcome (A : Type) :=
| Done (a : A)
| Thrown (error : Error).
Arguments Done {A} a.
Arguments Thrown {A} error.

(** [const x = await m; k]: an exception thrown by [m] skips [k]. *)
Definition bind_outcome {A B} (m : M (Outcome A)) (k : A → M (Outcome B))
  : M (Outcome B) :=
  do r <- m;
  match r with
  | Done a => k a
  | Thrown error => ret (Thrown error)
  end.

Notation "'await' x <- m ; k" := (bind_outcome m (fun x => k))
  (at level 10, x name, m at level 100, k at level 200).

Definition emit (ev : Event) : M unit :=
  fun _ st =>
    Some (tt, mkState (db st) (random_calls st) (clock_calls st)
                (http_calls st) (log st ++ [ev])).

(** [Math.random()] *)
Definition Math_random : M number :=
  fun env st =>
    Some (Fin (random env (random_calls st)),
          mkState (db st) (S (random_calls st)) (clock_calls st)
            (http_calls st) (log st)).

(** [Date.now()], [new Date()], [admin.firestore.Timestamp.now()] *)
Definition Date_now : M Timestamp :=
  fun env st =>
    Some (clock env (clock_calls st),
          mkState (db st) (random_calls st) (S (clock_calls st))
            (http_calls st) (log st)).

(** [fetch(url, ...)] on the sets endpoint *)
Definition http_fetch (r : Request) : M HttpResult :=
  fun env st =>
    Some (upstream env (http_calls st) r,
          mkState (db st) (random_calls st) (clock_calls st)
            (S (http_calls st)) (log st ++ [EvRequest r])).

Definition read_db : M Firestore := fun _ st => Some (db st, st).

Definition write_db (f : Firestore → Firestore) : M unit :=
  fun _ st =>
    Some (tt, mkState (f (db st)) (random_calls st) (clock_calls st)
                (http_calls st) (log st)).

(** [db.collection(c).doc(k).set(data, { merge: true })] *)
Definition doc_set_merge (c k : string) (data : Doc) : M unit :=
  write_db (fun d => apply_op d (OpSetMerge c k data));;
  emit (EvWrite (OpSetMerge c k data)).

(** [db.collection(c).doc(k).set(data, { merge: true })] on an object: the
    client checks the data first and throws, writing nothing, when a
    property is [undefined]. *)
Definition doc_set (c k : string) (data : Obj) : M (Outcome unit) :=
  match undefined_property data with
  | Some field => ret (Thrown (UndefinedValue field))
  | None => doc_set_merge c k (document data);; ret (Done tt)
  end.

(** [batch.commit()]: the writes of the batch, applied together. *)
Definition batch_commit (ops : list WriteOp) : M unit :=
  write_db (fun d => apply_ops d ops);;
  emit (EvCommit ops).

(** [for (const x of xs) { ... }] over a loop-carried value. *)
Fixpoint for_of {A S} (xs : list A) (body : A → S → M S) (s : S) : M S :=
  match xs with
  | [] => ret s
  | x :: xs' => do s' <- body x s; for_of xs' body s'
  end.

(** [for (const x of xs) { ... }] with a body that may throw: the exception
    ends the loop. *)
Fixpoint for_of_throwing {A S} (xs : list A) (body : A → S → M (Outcome S))
    (s : S) : M (Outcome S) :=
  match xs with
  | [] => ret (Done s)
  | x :: xs' => await s' <- body x s; for_of_throwing xs' body s'
  end.

(** [xs.slice(i, j)] *)
Definition slice {A} (i j : nat) (xs : list A) : list A :=
  take (j - i) (drop i xs).

(* ===================================================================== *)
(** ** Rebrickable API *)
(* ===================================================================== *)

(** [THEME_NAMES] *)
Definition THEME_NAMES (id : Z) : option string :=
  match id with
  | 158 => Some "Star Wars"
  | 1 => Some "Technic"
  | 252 => Some "Ideas"
  | 435 => Some "Architecture"
  | 52 => Some "City"
  | 577 => Some "Marvel Super Heroes"
  | 494 => Some "Friends"
  | 246 => Some "Creator"
  | 576 => Some "DC Super Heroes"
  | 504 => Some "Harry Potter"
  | 592 => Some "Ninjago"
  | 610 => Some "Speed Champions"
  | 209 => Some "Disney"
  | 720 => Some "Icons"
  | 667 => Some "Botanical Collection"
  | 608 => Some "Super Mario"
  | 573 => Some "Minecraft"
  | 697 => Some "Art"
  | 503 => Some "Duplo"
  | _ => None
  end%Z.

(** A string is truthy when it is present and not empty. *)
Definition truthy (o : option string) : bool :=
  match o with
  | Some s => negb (String.eqb s "")
  | None => false
  end.

Definition maxPages : nat := 10.

(** [Math.round(set.num_parts * 0.11)] *)
Definition estimatedPrice (set : RawSet.t) : number :=
  Math_round (of_Z (RawSet.num_parts set) * of_Q (11 # 100))%num.

(** The body of [for (const set of results)]: the two [continue] filters,
    then the [push] of the normalised item. *)
Definition push_set (set : RawSet.t) (sets : list LegoSet.t) : list LegoSet.t :=
  if negb (truthy (RawSet.set_img_url set)) || (RawSet.num_parts set <? 20)%Z
  then sets
  else if (RawSet.num_parts set <? 50)%Z
          && includes "minifig" (toLowerCase (RawSet.name set))
  then sets
  else
    let estimatedPrice := estimatedPrice set in
    sets ++
    [ LegoSet.mk
        (RawSet.set_num set)
        (RawSet.name set)
        (if (estimatedPrice >? of_Z 0)%num then estimatedPrice else of_Z 20)
        (default "" (RawSet.set_img_url set))
        ("https://www.lego.com/en-us/product/"
           +:+ replace "-1" "" (RawSet.set_num set))
        (Some (default "LEGO" (THEME_NAMES (RawSet.theme_id set))))
        (Some (of_Z (RawSet.theme_id set)))
        (Some (of_Z (RawSet.num_parts set)))
        (Some (of_Z (RawSet.year set)))
        available ].

Definition push_results (results : list RawSet.t) (sets : list LegoSet.t)
  : list LegoSet.t :=
  fold_left (fun sets set => push_set set sets) results sets.

(** What one turn of the [while] loop ends in. *)
Inductive Step :=
| Break (sets : list LegoSet.t)
| Continue (sets : list LegoSet.t).

(** The body of the [try] block for one page; [inl] is an exception thrown
    inside it ([fetch] or [response.json()] rejecting). *)
Definition fetch_page (minYear currentYear : Z) (page : nat)
    (sets : list LegoSet.t) : M (unit + Step) :=
  do response <- http_fetch
      {| min_year := minYear; max_year := currentYear + 1;
         page := page; page_size := 100 |};
  match response with
  | NetworkError => ret (inl tt)
  | Response ok _ body =>
      if negb ok then ret (inr (Break sets))
      else
        match body with
        | None => ret (inl tt)
        | Some data =>
            let results := default [] (results data) in
            if (length results =? 0)%nat then ret (inr (Break sets))
            else
              let sets := push_results results sets in
              if negb (truthy (next data)) then ret (inr (Break sets))
              else ret (inr (Continue sets))
        end
  end.

(** [while (page <= maxPages) { try { ... } catch (error) { break; } }] *)
Fixpoint fetch_loop (fuel : nat) (minYear currentYear : Z) (page : nat)
    (sets : list LegoSet.t) : M (list LegoSet.t) :=
  if (page <=? maxPages)%nat then
    match fuel with
    | O => stuck
    | S fuel' =>
        do r <- fetch_page minYear currentYear page sets;
        match r with
        | inl _ => ret sets
        | inr (Break sets') => ret sets'
        | inr (Continue sets') =>
            fetch_loop fuel' minYear currentYear (page + 1) sets'
        end
    end
  else ret sets.

Definition fetchFromRebrickable : M (list LegoSet.t) :=
  do now <- Date_now;
  fun env =>
    let currentYear := fullYear env now in
    let minYear := (currentYear - 3)%Z in
    fetch_loop maxPages minYear currentYear 1 [] env.

(* ===================================================================== *)
(** ** Firestore operations *)
(* ===================================================================== *)

Definition batchSize : nat := 450.

(** [for (let i = 0; i < xs.length; i += batchSize)
       { const chunk = xs.slice(i, i + batchSize); ... }] *)
Fixpoint for_chunks {A} (fuel : nat) (xs : list A) (i : nat)
    (body : list A → M unit) : M unit :=
  if (i <? length xs)%nat then
    match fuel with
    | O => stuck
    | S fuel' =>
        body (slice i (i + batchSize) xs);;
        for_chunks fuel' xs (i + batchSize) body
    end
  else ret tt.

(** [batch.set(docRef, { ...set, lastUpdated: Timestamp.now() },
               { merge: true })] for each set of the chunk, then the commit. *)
Definition save_chunk (chunk : list LegoSet.t) : M unit :=
  do batch <- for_of chunk (fun set batch =>
      do now <- Date_now;
      ret (batch ++
           [ OpSetMerge "lego_catalog" (LegoSet.setNumber set)
               (<["lastUpdated" := VTimestamp now]> (LegoSet_data set)) ])) [];
  batch_commit batch.

Definition saveLegoSetsCatalog (sets : list LegoSet.t) : M unit :=
  for_chunks (length sets) sets 0 save_chunk.

(** [.where("availability", "in", ["available", "retiring_soon"])] *)
Definition availability_in (d : Doc) : bool :=
  match d !! "availability" with
  | Some (VString s) =>
      String.eqb s "available" || String.eqb s "retiring_soon"
  | _ => false
  end.

(** The documents of a query, with their ids, in the order the map
    enumerates them (Firestore orders by document id or by the field
    compared; no property below depends on the order). *)
Definition query (coll : Collection) (P : Doc → bool)
  : list (string * Doc) :=
  map_to_list (filter (fun kd => P kd.2 = true) coll).

Definition mapM_option {A B} (f : A → option B) (xs : list A) : M (list B) :=
  match mapM f xs with
  | Some ys => ret ys
  | None => stuck
  end.

Definition getLegoSetsCatalog : M (list LegoSet.t) :=
  do d <- read_db;
  let docs := take 500 (query (collection d "lego_catalog") availability_in) in
  mapM_option (fun kd => as_LegoSet kd.2) docs.

(* ===================================================================== *)
(** ** Price data functions *)
(* ===================================================================== *)

Definition getRetailerUrl (retailer setNumber : string) : string :=
  let cleanSetNum := replace "-1" "" setNumber in
  if decide (retailer = "lego") then
    "https://www.lego.com/en-us/product/" +:+ cleanSetNum
  else if decide (retailer = "amazon") then
    "https://www.amazon.com/s?k=LEGO+" +:+ cleanSetNum
  else if decide (retailer = "walmart") then
    "https://www.walmart.com/search?q=LEGO+" +:+ cleanSetNum
  else if decide (retailer = "target") then
    "https://www.target.com/s?searchTerm=LEGO+" +:+ cleanSetNum
  else if decide (retailer = "best_buy") then
    "https://www.bestbuy.com/site/searchpage.jsp?st=LEGO+" +:+ cleanSetNum
  else if decide (retailer = "kohls") then
    "https://www.kohls.com/search.jsp?search=LEGO+" +:+ cleanSetNum
  else if decide (retailer = "meijer") then
    "https://www.meijer.com/search.html?searchTerm=LEGO+" +:+ cleanSetNum
  else if decide (retailer = "fred_meyer") then
    "https://www.fredmeyer.com/search?query=LEGO+" +:+ cleanSetNum
  else if decide (retailer = "gamestop") then
    "https://www.gamestop.com/search/?q=LEGO+" +:+ cleanSetNum
  else if decide (retailer = "entertainment_earth") then
    "https://www.entertainmentearth.com/s/?query1=LEGO+" +:+ cleanSetNum
  else if decide (retailer = "shop_disney") then
    "https://www.shopdisney.com/search?q=LEGO+" +:+ cleanSetNum
  else if decide (retailer = "toys_r_us") then
    "https://www.toysrus.com/search?q=LEGO+" +:+ cleanSetNum
  else if decide (retailer = "barnes_noble") then
    "https://www.barnesandnoble.com/s/LEGO+" +:+ cleanSetNum
  else if decide (retailer = "sams_club") then
    "https://www.samsclub.com/s/LEGO+" +:+ cleanSetNum
  else if decide (retailer = "costco") then
    "https://www.costco.com/CatalogSearch?dept=All&keyword=LEGO+"
      +:+ cleanSetNum
  else if decide (retailer = "walgreens") then
    "https://www.walgreens.com/search/results.jsp?Ntt=LEGO+" +:+ cleanSetNum
  else "".

(** The draw of [discountPercent]: zero for [lego]; for any other retailer
    a first draw gives 10 to 40 with probability 0.7 and a second one
    replaces it by 40 to 60 with probability 0.1. *)
Definition draw_discount (retailer : string) : M number :=
  if decide (retailer = "lego") then ret (of_Z 0)
  else
    do r1 <- Math_random;
    do discountPercent <-
      (if (r1 <? of_Q (7 # 10))%num then
         do r2 <- Math_random;
         ret (Math_floor (r2 * of_Z 31) + of_Z 10)%num
       else ret (of_Z 0));
    do r3 <- Math_random;
    if (r3 <? of_Q (1 # 10))%num then
      do r4 <- Math_random;
      ret (Math_floor (r4 * of_Z 21) + of_Z 40)%num
    else ret discountPercent.

(** [Math.round(x * 100) / 100] *)
Definition round2 (x : number) : number :=
  (Math_round (x * of_Z 100) / of_Z 100)%num.

Definition generateSimulatedPrice (set : LegoSet.t) (retailer : string)
  : M PriceData.t :=
  let originalPrice := LegoSet.price set in
  do discountPercent <- draw_discount retailer;
  let currentPrice :=
    round2 (originalPrice * (of_Z 1 - discountPercent / of_Z 100))%num in
  do inStock <-
    (if decide (LegoSet.availability set = available) then
       do r <- Math_random; ret (r >? of_Q (15 # 100))%num
     else ret false);
  emit (EvGenerated (LegoSet.setNumber set) retailer discountPercent inStock);;
  do now <- Date_now;
  ret (PriceData.mk
         (LegoSet.setNumber set)
         (LegoSet.name set)
         retailer
         currentPrice
         originalPrice
         (getRetailerUrl retailer (LegoSet.setNumber set))
         inStock
         now
         (LegoSet.theme set)
         (Some (LegoSet.imageUrl set))
         (LegoSet.pieces set)).

(** [`${setNumber}_${retailer}`] *)
Definition docId (setNumber retailer : string) : string :=
  setNumber +:+ "_" +:+ retailer.

Definition savePriceToFirestore (price : PriceData.t) : M (Outcome unit) :=
  doc_set "prices"
    (docId (PriceData.setNumber price) (PriceData.retailer price))
    (PriceData_data price).

Definition saveDealToFirestore (deal : DealData.t) : M (Outcome unit) :=
  let p := DealData.base deal in
  doc_set "deals"
    (docId (PriceData.setNumber p) (PriceData.retailer p))
    (DealData_data deal).

(** [.where("lastUpdated", "<", cutoff)] *)
Definition older_than (cutoff : Timestamp) (d : Doc) : bool :=
  match d !! "lastUpdated" with
  | Some (VTimestamp t) => (t <? cutoff)%Z
  | _ => false
  end.

Definition retention : Z := 24 * 60 * 60 * 1000.

Definition cleanOldDeals : M unit :=
  do now <- Date_now;
  let cutoff := (now - retention)%Z in
  do d <- read_db;
  let oldDeals := query (collection d "deals") (older_than cutoff) in
  if (length oldDeals =? 0)%nat then ret tt
  else
    for_chunks (length oldDeals) oldDeals 0 (fun chunk =>
      batch_commit (map (fun doc => OpDelete "deals" doc.1) chunk)).

(* ===================================================================== *)
(** ** The price job: scheduled and on demand *)
(* ===================================================================== *)

Definition retailers : list string :=
  [ "lego"; "amazon"; "walmart"; "target"; "best_buy";
    "kohls"; "meijer"; "fred_meyer"; "gamestop";
    "entertainment_earth"; "shop_disney"; "toys_r_us";
    "barnes_noble"; "sams_club"; "costco"; "walgreens" ].

(** [Math.round(((originalPrice - currentPrice) / originalPrice) * 100)] *)
Definition percentOff (priceData : PriceData.t) : number :=
  Math_round
    (((PriceData.originalPrice priceData - PriceData.currentPrice priceData)
      / PriceData.originalPrice priceData) * of_Z 100)%num.

(** [{ ...priceData, percentOff, savings: Math.round((originalPrice -
    currentPrice) * 100) / 100 }] *)
Definition make_deal (priceData : PriceData.t) (percentOff : number)
  : DealData.t :=
  DealData.mk priceData percentOff
    (round2 (PriceData.originalPrice priceData
             - PriceData.currentPrice priceData)%num).

(** [if (percentOff >= 10 && priceData.inStock)] *)
Definition qualifies (priceData : PriceData.t) : bool :=
  (percentOff priceData >=? of_Z 10)%num && PriceData.inStock priceData.

(** [updatePrices]: the number it returns is the [dealsFound] it logs; its
    [catch] logs the exception and throws it again. *)
Definition updatePrices : M (Outcome nat) :=
  do sets <- getLegoSetsCatalog;
  do sets <-
    (if (length sets =? 0)%nat then
       do sets <- fetchFromRebrickable;
       saveLegoSetsCatalog sets;;
       ret sets
     else ret sets);
  await dealsFound <-
    for_of_throwing (slice 0 100 sets) (fun set dealsFound =>
      for_of_throwing retailers (fun retailer dealsFound =>
        do priceData <- generateSimulatedPrice set retailer;
        await _ <- savePriceToFirestore priceData;
        let percentOff := percentOff priceData in
        if (percentOff >=? of_Z 10)%num && PriceData.inStock priceData then
          await _ <- saveDealToFirestore (make_deal priceData percentOff);
          ret (Done (S dealsFound))
        else ret (Done dealsFound)) dealsFound) 0%nat;
  cleanOldDeals;;
  ret (Done dealsFound).

(** The JSON answer of [manualPriceUpdate] when it succeeds. *)
Record PriceUpdateResponse := {
  catalogSize : nat;
  dealsFound : nat;
  sampleDeals : list DealData.t;
}.

(** The answer of [manualPriceUpdate]: the success answer, or the answer
    of its [catch], with the status and the exception caught. *)
Inductive PriceUpdateAnswer :=
| PriceUpdated (body : PriceUpdateResponse)
| PriceUpdateFailed (status : nat) (error : Error).

Definition manualPriceUpdate : M PriceUpdateAnswer :=
  do r <-
    (do sets <- getLegoSetsCatalog;
     do sets <-
       (if (length sets =? 0)%nat then
          do fetchedSets <- fetchFromRebrickable;
          saveLegoSetsCatalog fetchedSets;;
          ret fetchedSets
        else ret sets);
     await found <-
       for_of_throwing (slice 0 50 sets) (fun set found =>
         for_of_throwing retailers (fun retailer found =>
           do priceData <- generateSimulatedPrice set retailer;
           await _ <- savePriceToFirestore priceData;
           let percentOff := percentOff priceData in
           if (percentOff >=? of_Z 10)%num && PriceData.inStock priceData then
             let deal := make_deal priceData percentOff in
             await _ <- saveDealToFirestore deal;
             ret (Done
                    (S (fst found),
                     if (length (snd found) <? 5)%nat then snd found ++ [deal]
                     else snd found))
           else ret (Done found)) found) (0%nat, []);
     cleanOldDeals;;
     ret (Done {| catalogSize := length sets;
                  dealsFound := fst found;
                  sampleDeals := snd found |}));
  match r with
  | Done body => ret (PriceUpdated body)
  | Thrown error => ret (PriceUpdateFailed 500 error)
  end.

(* ===================================================================== *)
(** ** Observations on runs *)
(* ===================================================================== *)

(** The events a run from [st] to [st'] has added to the log. *)
Definition events_since (st st' : State) : list Event :=
  drop (length (log st)) (log st').

Definition is_request (ev : Event) : bool :=
  match ev with EvRequest _ => true | _ => false end.

(** The state once a request has been issued. *)
Definition after_request (st : State) (r : Request) : State :=
  mkState (db st) (random_calls st) (clock_calls st) (S (http_calls st))
    (log st ++ [EvRequest r]).

(** The request for page [p] of a fetch that starts in [st], and the answer
    the upstream gives to it. *)
Definition page_request (env : Env) (st : State) (p : nat) : Request :=
  let currentYear := fullYear env (clock env (clock_calls st)) in
  {| min_year := currentYear - 3; max_year := currentYear + 1;
     page := p; page_size := 100 |}.

Definition page_answer (env : Env) (st : State) (p : nat) : HttpResult :=
  upstream env (http_calls st + (p - 1)) (page_request env st p).

(** A page request fails: the transport fails, the status is not a success,
    or the body cannot be read. *)
Definition page_fails (r : HttpResult) : Prop :=
  match r with
  | NetworkError => True
  | Response ok _ body => ok = false ∨ body = None
  end.

(** A page is served with the entries [rs] and leads on to the next one. *)
Definition page_leads_on (r : HttpResult) (rs : list RawSet.t) : Prop :=
  ∃ status cursor,
    r = Response true status
          (Some {| results := Some rs; next := Some cursor |})
    ∧ rs ≠ [] ∧ cursor ≠ "".

(** The items accumulated over the pages served. *)
Definition accumulate (pages : list (list RawSet.t)) (sets : list LegoSet.t)
  : list LegoSet.t :=
  fold_left (fun sets rs => push_results rs sets) pages sets.

(** The observation [generateSimulatedPrice] builds for a set and a retailer
    from the discount drawn, the stock flag and the clock reading. *)
Definition observation (set : LegoSet.t) (retailer : string)
    (discountPercent : number) (inStock : bool) (now : Timestamp)
  : PriceData.t :=
  PriceData.mk
    (LegoSet.setNumber set)
    (LegoSet.name set)
    retailer
    (round2 (LegoSet.price set * (of_Z 1 - discountPercent / of_Z 100))%num)
    (LegoSet.price set)
    (getRetailerUrl retailer (LegoSet.setNumber set))
    inStock
    now
    (LegoSet.theme set)
    (Some (LegoSet.imageUrl set))
    (LegoSet.pieces set).

(** The entry of the upstream API a catalog item was normalised from. *)
Definition normalised_from (set : RawSet.t) (s : LegoSet.t) : Prop :=
  push_set set [] = [s].

(** The writes [save_chunk] puts in the batch of a chunk when the clock has
    been read [c] times before, and the state its commit leaves. *)
Definition save_ops (env : Env) (c : nat) (chunk : list LegoSet.t)
  : list WriteOp :=
  imap (fun j set =>
          OpSetMerge "lego_catalog" (LegoSet.setNumber set)
            (<["lastUpdated" := VTimestamp (clock env (c + j))]>
               (LegoSet_data set))) chunk.

Definition after_save (env : Env) (chunk : list LegoSet.t) (st : State)
  : State :=
  let ops := save_ops env (clock_calls st) chunk in
  mkState (apply_ops (db st) ops) (random_calls st)
    (length chunk + clock_calls st) (http_calls st)
    (log st ++ [EvCommit ops]).

(** The deletions of a chunk of the sweep, and the state their commit
    leaves. *)
Definition delete_ops (chunk : list (string * Doc)) : list WriteOp :=
  map (fun doc => OpDelete "deals" doc.1) chunk.

Definition after_delete (chunk : list (string * Doc)) (st : State) : State :=
  mkState (apply_ops (db st) (delete_ops chunk)) (random_calls st)
    (clock_calls st) (http_calls st)
    (log st ++ [EvCommit (delete_ops chunk)]).

(** The documents the sweep selects at the instant [now]. *)
Definition expired (now : Timestamp) (deals : Collection)
  : list (string * Doc) :=
  query deals (older_than (now - retention)%Z).

(** [doc'] is the record [data] merged over what was stored: a field of
    [data] has the value [data] gives it, any other field the value that
    was stored, if any. *)
Definition merged_over (data : Doc) (stored : option Doc) (doc' : Doc) : Prop :=
  ∀ f, doc' !! f = match data !! f with
                   | Some v => Some v
                   | None => stored ≫= (fun d => d !! f)
                   end.

(** The document at [c/k] after the writes [ops], from the one stored
    before. *)
Definition doc_after (c k : string) (ops : list WriteOp) (stored : option Doc)
  : option Doc :=
  fold_left (fun acc op =>
    match op with
    | OpSetMerge c' k' data =>
        if decide (c' = c ∧ k' = k) then Some (set_merge data acc) else acc
    | OpDelete c' k' =>
        if decide (c' = c ∧ k' = k) then None else acc
    end) ops stored.

(** What both price jobs do for one set and one retailer; [upd] records the
    deal found in the loop-carried value ([dealsFound], and the sample kept
    for the answer of the on-demand job). *)
Definition price_step {S} (upd : DealData.t → S → S) (set : LegoSet.t)
    (retailer : string) (acc : S) : M (Outcome S) :=
  do priceData <- generateSimulatedPrice set retailer;
  await _ <- savePriceToFirestore priceData;
  let percentOff := percentOff priceData in
  if (percentOff >=? of_Z 10)%num && PriceData.inStock priceData then
    await _ <- saveDealToFirestore (make_deal priceData percentOff);
    ret (Done (upd (make_deal priceData percentOff) acc))
  else ret (Done acc).

(** [dealsFound++] *)
Definition count_deal (deal : DealData.t) (dealsFound : nat) : nat :=
  S dealsFound.

(** [dealsFound++; if (sampleDeals.length < 5) sampleDeals.push(deal)] *)
Definition count_and_sample (deal : DealData.t)
    (found : nat * list DealData.t) : nat * list DealData.t :=
  (S (fst found),
   if (length (snd found) <? 5)%nat then snd found ++ [deal] else snd found).

(** One generator call of a run: the set, the retailer, the discount drawn
    and the observation produced. *)
Record Generated := {
  gen_set : LegoSet.t;
  gen_retailer : string;
  gen_discount : number;
  gen_price : PriceData.t;
}.

Definition generated_ok (g : Generated) : Prop :=
  ∃ d inStock now,
    gen_discount g = Fin d
    ∧ gen_price g
      = observation (gen_set g) (gen_retailer g) (Fin d) inStock now
    ∧ (inStock = true → LegoSet.availability (gen_set g) = available)
    ∧ (gen_retailer g = "lego" → gen_discount g = of_Z 0).

(** The set has the two optional properties that the price record takes
    from it. *)
Definition priceable (s : LegoSet.t) : Prop :=
  is_Some (LegoSet.theme s) ∧ is_Some (LegoSet.pieces s).

(** The store accepts the price record: none of its properties is
    [undefined]. *)
Definition accepted (p : PriceData.t) : Prop :=
  undefined_property (PriceData_data p) = None.

Definition price_write (p : PriceData.t) : WriteOp :=
  OpSetMerge "prices"
    (docId (PriceData.setNumber p) (PriceData.retailer p))
    (PriceData_doc p).

Definition deal_write (p : PriceData.t) : WriteOp :=
  OpSetMerge "deals"
    (docId (PriceData.setNumber p) (PriceData.retailer p))
    (DealData_doc (make_deal p (percentOff p))).

(** The events of one turn of the inner loop of a price job, when the store
    accepts the price record of the turn. *)
Definition gen_events (g : Generated) : list Event :=
  [ EvGenerated (LegoSet.setNumber (gen_set g)) (gen_retailer g)
      (gen_discount g) (PriceData.inStock (gen_price g));
    EvWrite (price_write (gen_price g)) ]
  ++ (if qualifies (gen_price g) then [EvWrite (deal_write (gen_price g))]
      else []).

(** The events of a turn whose price record the store refuses: the
    observation point only. *)
Definition refused_events (g : Generated) : list Event :=
  [ EvGenerated (LegoSet.setNumber (gen_set g)) (gen_retailer g)
      (gen_discount g) (PriceData.inStock (gen_price g)) ].

(** How the loops of a price job end: after their last turn ([None]), or at
    an observation whose price record the store refuses for one of its
    properties. *)
Abbreviation Refusal := (option (Generated * string)).

Definition end_events (refusal : Refusal) : list Event :=
  match refusal with
  | None => []
  | Some (g, _) => refused_events g
  end.

(** The clock readings of the loops that end with [refusal] after the
    turns [gs]: one for each turn, and one for the observation refused. *)
Definition readings (gs : list Generated) (refusal : Refusal) : nat :=
  length gs + match refusal with Some _ => 1 | None => 0 end.

(** The outcome of a computation that gives [a] unless the refusal makes it
    throw. *)
Definition outcome_of {A} (refusal : Refusal) (a : A) : Outcome A :=
  match refusal with
  | None => Done a
  | Some (_, field) => Thrown (UndefinedValue field)
  end.

(** The loop-carried value after the turns [gs]. *)
Definition collect {S} (upd : DealData.t → S → S) (gs : list Generated)
    (acc : S) : S :=
  fold_left (fun a g =>
    if qualifies (gen_price g)
    then upd (make_deal (gen_price g) (percentOff (gen_price g))) a
    else a) gs acc.

Definition is_doc_write (ev : Event) : bool :=
  match ev with EvWrite _ => true | _ => false end.

(** A write of a deal record. *)
Definition is_deal_write (ev : Event) : bool :=
  match ev with
  | EvWrite (OpSetMerge c _ _) => String.eqb c "deals"
  | _ => false
  end.

(** A write of a deal record of the set [setNumber]. *)
Definition is_deal_for (setNumber : string) (ev : Event) : bool :=
  match ev with
  | EvWrite (OpSetMerge c _ doc) =>
      String.eqb c "deals"
      && match doc !! "setNumber" with
         | Some (VString s) => String.eqb s setNumber
         | _ => false
         end
  | _ => false
  end.

Definition deals_for (setNumber : string) (evs : list Event) : list Event :=
  List.filter (is_deal_for setNumber) evs.

(** The common shape of [updatePrices] and [manualPriceUpdate]: the number
    of sets priced, the way a deal found is recorded and the answer
    differ. *)
Definition price_job {S R} (limit : nat) (upd : DealData.t → S → S)
    (acc0 : S) (answer : list LegoSet.t → S → R) : M (Outcome R) :=
  do sets <- getLegoSetsCatalog;
  do sets <-
    (if (length sets =? 0)%nat then
       do fetched <- fetchFromRebrickable;
       saveLegoSetsCatalog fetched;;
       ret fetched
     else ret sets);
  await acc <-
    for_of_throwing (slice 0 limit sets) (fun set acc =>
      for_of_throwing retailers (price_step upd set) acc) acc0;
  cleanOldDeals;;
  ret (Done (answer sets acc)).

(** The answer of the job on demand: its [catch] turns an exception into
    the answer of status 500. *)
Definition answer_of (r : Outcome PriceUpdateResponse) : PriceUpdateAnswer :=
  match r with
  | Done body => PriceUpdated body
  | Thrown error => PriceUpdateFailed 500 error
  end.

(** The set and the retailer of each turn of the loops of a price job over
    the sets [sets]. *)
Definition turns (sets : list LegoSet.t) : list (LegoSet.t * string) :=
  flat_map (fun set => map (pair set) retailers) sets.


(** The turns [gs] whose price record the store accepted, in the order
    [ts] of the loops: all of [ts], or the turns before the one of the
    refusal. *)
Definition turns_run (ts : list (LegoSet.t * string)) (gs : list Generated)
    (refusal : Refusal) : Prop :=
  Forall generated_ok gs
  ∧ Forall (fun g => accepted (gen_price g)) gs
  ∧ match refusal with
    | None => map (fun g => (gen_set g, gen_retailer g)) gs = ts
    | Some (g, field) =>
        generated_ok g
        ∧ undefined_property (PriceData_data (gen_price g)) = Some field
        ∧ ∃ later,
            ts = map (fun g => (gen_set g, gen_retailer g)) gs
                 ++ (gen_set g, gen_retailer g) :: later
    end.

(** A run of a price job from [st] to [st'] over the first [limit] sets of
    the catalog read [sets] (or of the catalog fetched, when none is
    stored): its events are those of seeding the catalog, then those of the
    turns [gs], whose price record the store accepted, then those of the
    sweep or, when the store refuses the price record of a further
    observation, the observation point of that one, at which the job ends.
    The only single-document writes are those of the turns [gs]. *)
Definition price_job_run (limit : nat) (sets : list LegoSet.t)
    (st st' : State) (gs : list Generated) (found : nat)
    (refusal : Refusal) : Prop :=
  ∃ priced pre post,
    events_since st st' = pre ++ flat_map gen_events gs ++ post
    ∧ forallb (fun ev => negb (is_doc_write ev)) (pre ++ post) = true
    ∧ (sets ≠ [] → priced = sets ∧ pre = [])
    ∧ turns_run (turns (slice 0 limit priced)) gs refusal
    ∧ (refusal ≠ None → post = end_events refusal)
    ∧ found = length (List.filter (fun g => qualifies (gen_price g)) gs).

(** The reference price of a set is a finite number of at least one
    currency unit. *)
Definition priced_at_least_one (set : LegoSet.t) : Prop :=
  ∃ q, LegoSet.price set = Fin q ∧ (Q2Qc 1 ≤ q)%Qc.

(** The turns of set [A] with a retailer other than [lego]. *)
Definition discounted_turn (A : LegoSet.t) (turn : LegoSet.t * string) : bool :=
  String.eqb (LegoSet.setNumber turn.1) (LegoSet.setNumber A)
  && negb (String.eqb turn.2 "lego").

(** A check that every observation point of the set [setNumber] in a log
    satisfies [ok]. *)
Definition generated_all (setNumber : string)
    (ok : string → number → bool → bool) (evs : list Event) : bool :=
  forallb (fun ev =>
    match ev with
    | EvGenerated s r d b => if String.eqb s setNumber then ok r d b else true
    | _ => true
    end) evs.

(* ===================================================================== *)
(** ** Sample inputs *)
(* ===================================================================== *)

(** An entry of 20 pieces with an image: it passes both filters. *)
Definition small_entry : RawSet.t :=
  RawSet.mk "30001-1" "Tiny Car" 2024 52 20
    (Some "https://cdn.rebrickable.com/media/sets/30001-1.jpg").

(** The item it is normalised to. *)
Definition small_item : LegoSet.t :=
  LegoSet.mk "30001-1" "Tiny Car" (of_Z 2)
    "https://cdn.rebrickable.com/media/sets/30001-1.jpg"
    "https://www.lego.com/en-us/product/30001"
    (Some "City") (Some (of_Z 52)) (Some (of_Z 20)) (Some (of_Z 2024))
    available.

Definition set_A : LegoSet.t :=
  LegoSet.mk "10001-1" "Set A" (of_Z 100) "https://img/a.jpg"
    "https://www.lego.com/en-us/product/10001"
    (Some "City") (Some (of_Z 52)) (Some (of_Z 909)) (Some (of_Z 2024))
    available.

Definition set_B : LegoSet.t :=
  LegoSet.mk "10002-1" "Set B" (of_Z 30) "https://img/b.jpg"
    "https://www.lego.com/en-us/product/10002"
    (Some "Technic") (Some (of_Z 1)) (Some (of_Z 273)) (Some (of_Z 2025))
    available.

(** The draws that force the generator: for a retailer other than [lego],
    0.9 skips the first discount, 0.05 takes the second one, 0.5 makes it
    [floor(0.5 * 21) + 40 = 50], and 0.5 is in stock; or 0.9 and 0.9 skip
    both discounts. The [lego] turn only draws the stock flag. *)
Definition draws_A : list Q :=
  [1 # 2] ++ concat (replicate 15 [9 # 10; 1 # 20; 1 # 2; 1 # 2]).

Definition draws_B : list Q :=
  [1 # 2] ++ concat (replicate 15 [9 # 10; 9 # 10; 1 # 2]).

(** The first page is served with [small_entry] and a cursor, the second
    request fails. The clock ticks from a fixed instant. *)
Definition sample_env : Env :=
  {| random := fun n => Q2Qc (nth n (draws_A ++ draws_B) (1 # 2));
     clock := fun n => (1700000000000 + Z.of_nat n)%Z;
     fullYear := fun _ => 2026%Z;
     upstream := fun n _ =>
       match n with
       | O => Response true 200
                (Some {| results := Some [small_entry];
                         next := Some "https://rebrickable.com/api/v3/lego/sets/?page=2" |})
       | _ => NetworkError
       end |}.

Definition empty_state : State := mkState ∅ 0 0 0 [].

(** A store whose catalog holds [set_A] and [set_B]. *)
Definition scenario_state : State :=
  mkState
    {[ "lego_catalog" :=
         {[ "10001-1" := LegoSet_data set_A; "10002-1" := LegoSet_data set_B ]} ]}
    0 0 0 [].

(** The state the scheduled price job leaves from [scenario_state]. *)
Definition scenario_final : State :=
  match updatePrices sample_env scenario_state with
  | Some (_, st') => st'
  | None => scenario_state
  end.




(** [set_A] with a reference price of zero. *)
Definition set_A0 : LegoSet.t :=
  LegoSet.mk "10001-1" "Set A" (of_Z 0) "https://img/a.jpg"
    "https://www.lego.com/en-us/product/10001"
    (Some "City") (Some (of_Z 52)) (Some (of_Z 909)) (Some (of_Z 2024))
    available.

(** A store whose catalog holds [set_A0] and [set_B]. *)
Definition free_state : State :=
  mkState
    {[ "lego_catalog" :=
         {[ "10001-1" := LegoSet_data set_A0; "10002-1" := LegoSet_data set_B ]} ]}
    0 0 0 [].

(** The state the scheduled price job leaves from [free_state]. *)
Definition free_final : State :=
  match updatePrices sample_env free_state with
  | Some (_, st') => st'
  | None => free_state
  end.

(** [set_A] with no theme. *)
Definition set_A_bare : LegoSet.t :=
  LegoSet.mk "10001-1" "Set A" (of_Z 100) "https://img/a.jpg"
    "https://www.lego.com/en-us/product/10001"
    None (Some (of_Z 52)) (Some (of_Z 909)) (Some (of_Z 2024))
    available.

(** A store whose catalog holds [set_A_bare] and [set_B]. *)
Definition bare_state : State :=
  mkState
    {[ "lego_catalog" :=
         {[ "10001-1" := LegoSet_data set_A_bare;
            "10002-1" := LegoSet_data set_B ]} ]}
    0 0 0 [].

(** The state the scheduled price job leaves from [bare_state]. *)
Definition bare_final : State :=
  match updatePrices sample_env bare_state with
  | Some (_, st') => st'
  | None => bare_state
  end.

(* ===================================================================== *)
(** ** Further observations: the fetcher *)
(* ===================================================================== *)

(** An entry passes the two filters of the fetcher. *)
Definition passes_filters (set : RawSet.t) : Prop :=
  (∃ img, RawSet.set_img_url set = Some img ∧ img ≠ "")
  ∧ (20 ≤ RawSet.num_parts set)%Z
  ∧ ¬ ((RawSet.num_parts set < 50)%Z
       ∧ includes "minifig" (toLowerCase (RawSet.name set)) = true).

(** The upstream serves the entry in the body of some successful answer. *)
Definition served (env : Env) (set : RawSet.t) : Prop :=
  ∃ n r status data rs,
    upstream env n r = Response true status (Some data)
    ∧ results data = Some rs
    ∧ set ∈ rs.

(** A page is served with the entries [rs] and no cursor to a next one. *)
Definition page_ends (r : HttpResult) (rs : list RawSet.t) : Prop :=
  ∃ status data,
    r = Response true status (Some data)
    ∧ results data = Some rs ∧ rs ≠ [] ∧ truthy (next data) = false.

(** A page is served with no entry ([results] missing or empty). *)
Definition page_is_empty (r : HttpResult) : Prop :=
  ∃ status data,
    r = Response true status (Some data) ∧ default [] (results data) = [].

(** The state once the requests for the pages [p], [p + 1], ... , [p + n - 1]
    of a fetch with the year window of [minYear] and [currentYear] have
    been issued. *)
Fixpoint after_pages (minYear currentYear : Z) (p n : nat) (st : State)
  : State :=
  match n with
  | O => st
  | S n' =>
      after_pages minYear currentYear (S p) n'
        (after_request st
           {| min_year := minYear; max_year := currentYear + 1;
              page := p; page_size := 100 |})
  end.

(* ===================================================================== *)
(** ** Further observations: the catalog store *)
(* ===================================================================== *)

(** The fields of [interface LegoSet]. *)
Definition LegoSet_fields : list string :=
  [ "setNumber"; "name"; "price"; "imageUrl"; "url"; "theme"; "themeId";
    "pieces"; "year"; "availability" ].

(** The set has its four optional properties, as every set the fetcher
    builds has. *)
Definition fully_described (s : LegoSet.t) : Prop :=
  is_Some (LegoSet.theme s) ∧ is_Some (LegoSet.themeId s)
  ∧ is_Some (LegoSet.pieces s) ∧ is_Some (LegoSet.year s).

(** The set is one the catalog query selects. *)
Definition selectable (s : LegoSet.t) : Prop :=
  LegoSet.availability s = available
  ∨ LegoSet.availability s = retiring_soon.

Global Instance selectable_dec (s : LegoSet.t) : Decision (selectable s).
Proof. unfold selectable. apply _. Defined.

(* ===================================================================== *)
(** ** Further observations: the price generator *)
(* ===================================================================== *)

(** [Math.random()] gives a number of the unit interval, 1 excluded. *)
Definition unit_draw (q : Qc) : Prop := (Q2Qc 0 ≤ q)%Qc ∧ (q < Q2Qc 1)%Qc.

(** The next [n] draws of a call started in [st] are of the unit interval. *)
Definition unit_draws (env : Env) (st : State) (n : nat) : Prop :=
  ∀ i, i < n → unit_draw (random env (random_calls st + i)).

(* ===================================================================== *)
(** ** Further observations: the price jobs *)
(* ===================================================================== *)

(** A write of a price record. *)
Definition is_price_write (ev : Event) : bool :=
  match ev with
  | EvWrite (OpSetMerge c _ _) => String.eqb c "prices"
  | _ => false
  end.

(** The deals of the observations that qualify, in the order of the
    turns. *)
Definition deals_of (gs : list Generated) : list DealData.t :=
  map (fun g => make_deal (gen_price g) (percentOff (gen_price g)))
    (List.filter (fun g => qualifies (gen_price g)) gs).

(** The document writes of a turn. *)
Definition turn_ops (g : Generated) : list WriteOp :=
  price_write (gen_price g)
  :: (if qualifies (gen_price g) then [deal_write (gen_price g)] else []).

(** The observation of the turn was stamped with one of the clock readings
    from the [c]-th on and before the [c']-th. *)
Definition stamped_between (env : Env) (c c' : nat) (g : Generated) : Prop :=
  ∃ i, c ≤ i < c' ∧ PriceData.lastUpdated (gen_price g) = clock env i.

(** The document id of the records of a turn. *)
Definition turn_key (g : Generated) : string :=
  docId (PriceData.setNumber (gen_price g)) (PriceData.retailer (gen_price g)).

(** [suffix] is the end of [s]. *)
Fixpoint ends_with (suffix s : string) : bool :=
  String.eqb suffix s
  || match s with
     | EmptyString => false
     | String _ s' => ends_with suffix s'
     end.

(** What the sweep with the cutoff [cutoff] leaves of a deal document. *)
Definition swept (cutoff : Timestamp) (stored : option Doc) : option Doc :=
  match stored with
  | Some d => if older_than cutoff d then None else Some d
  | None => None
  end.

(** The store a price job over a stored catalog leaves from [st], in terms
    of the observations [gs] of its turns: no request is issued; only the
    prices and the deals change; under the document id of a turn are the
    price record of the turn merged over the stored one and, when the
    observation qualifies, the deal record likewise; any other price is as
    it was; the sweep, at the clock reading that follows those of the
    turns, then removes the deals older than its cutoff. *)
Definition stores_observations (env : Env) (st st' : State)
    (gs : list Generated) : Prop :=
  let cutoff := (clock env (clock_calls st + length gs) - retention)%Z in
  let prices := collection (db st) "prices" in
  let deals := collection (db st) "deals" in
  http_calls st' = http_calls st
  ∧ (∀ c, c ≠ "prices" → c ≠ "deals" →
       collection (db st') c = collection (db st) c)
  ∧ (∀ k, (∀ g, g ∈ gs → turn_key g ≠ k) →
       collection (db st') "prices" !! k = prices !! k
       ∧ collection (db st') "deals" !! k = swept cutoff (deals !! k))
  ∧ (∀ g, g ∈ gs →
       let p := gen_price g in
       collection (db st') "prices" !! turn_key g
       = Some (set_merge (PriceData_doc p) (prices !! turn_key g))
       ∧ collection (db st') "deals" !! turn_key g
         = swept cutoff
             (if qualifies p
              then Some (set_merge
                           (DealData_doc (make_deal p (percentOff p)))
                           (deals !! turn_key g))
              else deals !! turn_key g))
  ∧ Forall (stamped_between env (clock_calls st)
              (clock_calls st + length gs)) gs.

(* ===================================================================== *)
(** ** The theme statistics of the catalog update on demand *)
(* ===================================================================== *)

(** [set.theme || "Other"] *)
Definition theme_or_other (set : LegoSet.t) : string :=
  if truthy (LegoSet.theme set) then default "" (LegoSet.theme set)
  else "Other".

(** [themeCount[theme] = (themeCount[theme] || 0) + 1]. The object is
    modelled by its entries in insertion order: the order in which
    [Object.entries] enumerates the keys that are not array indices, and
    the content of the object for the keys that [Object.prototype] does not
    define. The names of [THEME_NAMES] and [LEGO], the only ones the fetcher
    gives a set, are such keys. *)
Fixpoint count_theme (theme : string) (themeCount : list (string * nat))
  : list (string * nat) :=
  match themeCount with
  | [] => [(theme, 0 + 1)]
  | (name, count) :: rest =>
      if decide (name = theme) then (name, count + 1) :: rest
      else (name, count) :: count_theme theme rest
  end.

Definition themeCount (sets : list LegoSet.t) : list (string * nat) :=
  fold_left (fun themeCount set => count_theme (theme_or_other set) themeCount)
    sets [].






(* ===================================================================== *)
(** ** The health check *)
(* ===================================================================== *)

(** The JSON answer of [healthCheck] with the status [ok]; [timestamp] is
    the instant that [toISOString] renders. *)
Record HealthResponse := {
  health_timestamp : Timestamp;
  health_version : string;
  catalog_size : nat;
  catalog_source : string;
  deals_count : nat;
}.

(** [db.collection(name).count().get()] *)
Definition count_docs (name : string) : M nat :=
  do d <- read_db;
  ret (size (collection d name)).

Definition healthCheck : M HealthResponse :=
  do catalogSize <- count_docs "lego_catalog";
  do dealsCount <- count_docs "deals";
  do now <- Date_now;
  ret {| health_timestamp := now;
         health_version := "5.0.0";
         catalog_size := catalogSize;
         catalog_source := "Rebrickable API";
         deals_count := dealsCount |}.

(* ===================================================================== *)
(** ** Further sample inputs *)
(* ===================================================================== *)

(** An entry the first filter drops: it has fewer than 20 parts. *)
Definition polybag_entry : RawSet.t :=
  RawSet.mk "30002-1" "Mini Robot" 2025 1 12
    (Some "https://cdn.rebrickable.com/media/sets/30002-1.jpg").

(** [sample_env] with another upstream. *)
Definition with_upstream (u : nat → Request → HttpResult) : Env :=
  {| random := random sample_env;
     clock := clock sample_env;
     fullYear := fullYear sample_env;
     upstream := u |}.

Definition leading_page : HttpResult :=
  Response true 200
    (Some {| results := Some [small_entry];
             next := Some "https://rebrickable.com/api/v3/lego/sets/?page=2" |}).

(** The second page is the last one: it carries no cursor. *)
Definition two_page_env : Env :=
  with_upstream (fun n _ =>
    match n with
    | 0 => leading_page
    | 1 => Response true 200
             (Some {| results := Some [polybag_entry; small_entry];
                      next := None |})
    | _ => NetworkError
    end).

(** The second page has no entry, and yet a cursor. *)
Definition empty_page_env : Env :=
  with_upstream (fun n _ =>
    match n with
    | 0 => leading_page
    | _ => Response true 200
             (Some {| results := Some [];
                      next := Some "https://rebrickable.com/api/v3/lego/sets/?page=3" |})
    end).

(** Every page leads on. *)
Definition endless_env : Env := with_upstream (fun _ _ => leading_page).

(** A set the catalog query does not select. *)
Definition set_C : LegoSet.t :=
  LegoSet.mk "10003-1" "Set C" (of_Z 60) "https://img/c.jpg"
    "https://www.lego.com/en-us/product/10003"
    None None None None sold_out.

(** A set the query selects and that is not [available]. *)
Definition set_D : LegoSet.t :=
  LegoSet.mk "10004-1" "Set D" (of_Z 80) "https://img/d.jpg"
    "https://www.lego.com/en-us/product/10004"
    (Some "Icons") None (Some (of_Z 1200)) None retiring_soon.

(** A set with no reference price. *)
Definition set_free : LegoSet.t :=
  LegoSet.mk "10005-1" "Set E" (of_Z 0) "https://img/e.jpg"
    "https://www.lego.com/en-us/product/10005"
    (Some "City") None None None available.

(** A store whose catalog holds [set_A] and the retiring [set_D]. *)
Definition retiring_state : State :=
  mkState
    {[ "lego_catalog" :=
         {[ "10001-1" := LegoSet_data set_A; "10004-1" := LegoSet_data set_D ]} ]}
    0 0 0 [].

(* ===================================================================== *)
(** * Properties *)
(* ===================================================================== *)

(** ** The model on small inputs *)

Example replace_first_occurrence :
  replace "-1" "" "10001-1" = "10001" ∧ replace "-1" "" "75-11-1" = "751-1".
Proof. split; reflexivity. Qed.

Example minifig_pack_is_skipped :
  push_set (RawSet.mk "fig-1" "Minifig Pack" 2024 1 30 (Some "img")) [] = [].
Proof. vm_compute. reflexivity. Qed.

Example round_ties_go_up :
  Math_round (of_Q (11 # 2)) = of_Z 6 ∧ Math_round (of_Q (-5 # 2)) = of_Z (-2).
Proof. split; vm_compute; reflexivity. Qed.

Example percent_off_of_zero_price_is_NaN :
  percentOff (observation
                (LegoSet.mk "0-1" "Free" (of_Z 0) "img" "url" None None None
                   None available)
                "amazon" (of_Z 50) true 0%Z) = NaN.
Proof. vm_compute. reflexivity. Qed.

(** ** Running the monad *)

Lemma bind_Some {A B} (m : M A) (k : A → M B) env st b st' :
  bind m k env st = Some (b, st') ↔
  ∃ a st1, m env st = Some (a, st1) ∧ k a env st1 = Some (b, st').
Proof.
  unfold bind. split.
  - destruct (m env st) as [[a st1]|] eqn:E; [|discriminate].
    intros H. by exists a, st1.
  - intros (a & st1 & -> & H). exact H.
Qed.

(** ** Pagination *)

Lemma fetch_page_spec minYear currentYear page sets env st :
  ∃ r, fetch_page minYear currentYear page sets env st =
       Some (r, mkState (db st) (random_calls st) (clock_calls st)
                  (S (http_calls st))
                  (log st ++ [EvRequest {| min_year := minYear;
                                           max_year := currentYear + 1;
                                           page := page;
                                           page_size := 100 |}])).
Proof.
  unfold fetch_page, bind, http_fetch.
  destruct (upstream env _ _) as [|[] status [data|]]; simpl; eauto.
  destruct (length _ =? 0)%nat; simpl; eauto.
  destruct (truthy (next data)); simpl; eauto.
Qed.

Lemma fetch_loop_terminates env minYear currentYear fuel :
  ∀ page sets st,
    maxPages < page + fuel →
    ∃ res st' evs,
      fetch_loop fuel minYear currentYear page sets env st = Some (res, st')
      ∧ log st' = log st ++ evs
      ∧ forallb is_request evs = true
      ∧ length evs = http_calls st' - http_calls st
      ∧ http_calls st ≤ http_calls st'
      ∧ http_calls st' ≤ http_calls st + (S maxPages - page)
      ∧ db st' = db st
      ∧ random_calls st' = random_calls st
      ∧ clock_calls st' = clock_calls st.
Proof.
  unfold maxPages.
  induction fuel as [|fuel IH]; intros page sets st Hfuel; simpl;
    unfold maxPages.
  - destruct (Nat.leb_spec page 10) as [E|E].
    + lia.
    + exists sets, st, []. rewrite app_nil_r.
      split_and!; simpl; auto; lia.
  - destruct (Nat.leb_spec page 10) as [E|E].
    + destruct (fetch_page_spec minYear currentYear page sets env st) as [r Hr].
      unfold bind at 1. rewrite Hr.
      set (st1 := mkState _ _ _ _ _) in *.
      assert (Hstop : ∀ res : list LegoSet.t,
        ∃ (res0 : list LegoSet.t) (st' : State) (evs : list Event),
          ret res env st1 = Some (res0, st')
          ∧ log st' = log st ++ evs
          ∧ forallb is_request evs = true
          ∧ length evs = http_calls st' - http_calls st
          ∧ http_calls st ≤ http_calls st'
          ∧ http_calls st' ≤ http_calls st + (11 - page)
          ∧ db st' = db st
          ∧ random_calls st' = random_calls st
          ∧ clock_calls st' = clock_calls st).
      { intros res. exists res, st1, [EvRequest {| min_year := minYear;
          max_year := currentYear + 1; page := page; page_size := 100 |}].
        subst st1; simpl. split_and!; simpl; auto; lia. }
      destruct r as [[]|[sets'|sets']]; try apply Hstop.
      destruct (IH (page + 1) sets' st1 ltac:(lia))
        as (res & st' & evs & Hrun & Hlog & Hreq & Hlen & Hle & Hub & Hdb & Hr1 & Hc1).
      exists res, st', (EvRequest {| min_year := minYear;
          max_year := currentYear + 1; page := page; page_size := 100 |} :: evs).
      subst st1; simpl in *.
      split_and!; simpl; auto; try lia.
      rewrite Hlog, <- app_assoc. reflexivity.
    + exists sets, st, []. rewrite app_nil_r.
      split_and!; simpl; auto; lia.
Qed.

Lemma fetchFromRebrickable_spec (env : Env) (st : State) :
  ∃ sets st' evs,
    fetchFromRebrickable env st = Some (sets, st')
    ∧ log st' = log st ++ evs
    ∧ forallb is_request evs = true
    ∧ length evs = http_calls st' - http_calls st
    ∧ http_calls st' - http_calls st ≤ maxPages
    ∧ db st' = db st.
Proof.
  unfold fetchFromRebrickable, bind, Date_now.
  set (st1 := mkState _ _ _ _ _).
  destruct (fetch_loop_terminates env
              (fullYear env (clock env (clock_calls st)) - 3)
              (fullYear env (clock env (clock_calls st)))
              maxPages 1 [] st1 ltac:(unfold maxPages; lia))
    as (res & st' & evs & Hrun & Hlog & Hreq & Hlen & Hle & Hub & Hdb & _).
  exists res, st', evs. subst st1; unfold maxPages in *; simpl in *.
  split_and!; auto; lia.
Qed.

(** C7. Whatever the upstream answers, [fetchFromRebrickable] returns, and
    it has then issued at most ten page requests: the only events it adds to
    the log are requests, at most [maxPages] of them. *)
Theorem fetch_terminates_within_page_ceiling (env : Env) (st : State) :
  ∃ sets st',
    fetchFromRebrickable env st = Some (sets, st')
    ∧ forallb is_request (events_since st st') = true
    ∧ length (events_since st st') = http_calls st' - http_calls st
    ∧ http_calls st' - http_calls st ≤ 10.
Proof.
  destruct (fetchFromRebrickable_spec env st)
    as (sets & st' & evs & Hrun & Hlog & Hreq & Hlen & Hle & _).
  exists sets, st'. unfold events_since. rewrite Hlog, drop_app_length.
  unfold maxPages in Hle. split_and!; auto.
Qed.

Local Abbreviation req minYear currentYear p :=
  {| min_year := minYear; max_year := (currentYear + 1)%Z;
     page := p; page_size := 100 |}.

Lemma truthy_Some s : s ≠ "" → truthy (Some s) = true.
Proof.
  intros H. simpl. destruct (String.eqb_spec s ""); [contradiction|done].
Qed.

Lemma fetch_page_leads_on env minYear currentYear p sets st rs :
  page_leads_on (upstream env (http_calls st) (req minYear currentYear p)) rs →
  fetch_page minYear currentYear p sets env st
  = Some (inr (Continue (push_results rs sets)),
          after_request st (req minYear currentYear p)).
Proof.
  intros (status & cursor & Hans & Hne & Hcur).
  unfold fetch_page, bind, http_fetch. rewrite Hans.
  cbn [negb results next default]. rewrite (truthy_Some _ Hcur).
  destruct rs as [|r0 rs]; [done|]. reflexivity.
Qed.

Lemma fetch_page_fails env minYear currentYear p sets st :
  page_fails (upstream env (http_calls st) (req minYear currentYear p)) →
  ∃ r, fetch_page minYear currentYear p sets env st
       = Some (r, after_request st (req minYear currentYear p))
       ∧ (r = inl tt ∨ r = inr (Break sets)).
Proof.
  intros Hfail. unfold fetch_page, bind, http_fetch.
  destruct (upstream env (http_calls st) _) as [|ok status body];
    simpl in *; [eauto|].
  destruct Hfail as [-> | ->]; simpl; [eauto|].
  destruct ok; simpl; eauto.
Qed.

Lemma fetch_loop_failed_page env minYear currentYear pages :
  ∀ fuel p sets st,
    p + length pages ≤ maxPages →
    length pages < fuel →
    (∀ i rs, pages !! i = Some rs →
       page_leads_on
         (upstream env (http_calls st + i) (req minYear currentYear (p + i)))
         rs) →
    page_fails
      (upstream env (http_calls st + length pages)
         (req minYear currentYear (p + length pages))) →
    ∃ st',
      fetch_loop fuel minYear currentYear p sets env st
        = Some (accumulate pages sets, st')
      ∧ log st' = log st ++
          map (fun q => EvRequest (req minYear currentYear q))
            (seq p (S (length pages)))
      ∧ http_calls st' = http_calls st + S (length pages)
      ∧ db st' = db st.
Proof.
  unfold maxPages.
  induction pages as [|rs pages IH]; intros fuel p sets st Hp Hfuel Hok Hfail;
    (destruct fuel as [|fuel]; [simpl in Hfuel; lia|]);
    simpl fetch_loop; unfold maxPages;
    (destruct (Nat.leb_spec p 10) as [E|E]; [|simpl in Hp; lia]);
    unfold bind at 1.
  - simpl in Hfail. rewrite !Nat.add_0_r in Hfail.
    destruct (fetch_page_fails env minYear currentYear p sets st Hfail)
      as (r & -> & Hr).
    exists (after_request st (req minYear currentYear p)). split_and!.
    + destruct Hr as [-> | ->]; reflexivity.
    + reflexivity.
    + simpl. lia.
    + reflexivity.
  - pose proof (Hok 0 rs eq_refl) as Hans.
    rewrite !Nat.add_0_r in Hans.
    rewrite (fetch_page_leads_on _ _ _ _ sets _ _ Hans).
    set (st1 := after_request _ _).
    destruct (IH fuel (p + 1) (push_results rs sets) st1)
      as (st' & Hrun & Hlog & Hcalls & Hdb).
    + simpl in Hp. lia.
    + simpl in Hfuel. lia.
    + intros i rs' Hi. specialize (Hok (S i) rs' Hi).
      subst st1; simpl.
      replace (S (http_calls st + i)) with (http_calls st + S i) by lia.
      replace (p + 1 + i) with (p + S i) by lia. exact Hok.
    + subst st1; simpl in *.
      replace (S (http_calls st + length pages))
        with (http_calls st + S (length pages)) by lia.
      replace (p + 1 + length pages) with (p + S (length pages)) by lia.
      exact Hfail.
    + exists st'. split_and!.
      * exact Hrun.
      * rewrite Hlog. subst st1; simpl. rewrite <- app_assoc.
        replace (p + 1) with (S p) by lia. reflexivity.
      * rewrite Hcalls. subst st1; simpl. lia.
      * rewrite Hdb. reflexivity.
Qed.

(** C4. When the pages before page [k = length pages + 1] are served and
    lead on, and the request for page [k] fails, [fetchFromRebrickable]
    returns normally with the items accumulated from the earlier pages; the
    request for page [k] is the last one it issues. *)
Theorem fetch_returns_partial_result_on_page_failure
    (env : Env) (st : State) (pages : list (list RawSet.t)) :
  length pages < maxPages →
  (∀ i rs, pages !! i = Some rs →
     page_leads_on (page_answer env (st) (S i)) rs) →
  page_fails (page_answer env st (S (length pages))) →
  ∃ st',
    fetchFromRebrickable env st = Some (accumulate pages [], st')
    ∧ events_since st st'
      = map (fun p => EvRequest (page_request env st p))
          (seq 1 (S (length pages)))
    ∧ http_calls st' = http_calls st + S (length pages)
    ∧ db st' = db st.
Proof.
  intros Hlen Hok Hfail.
  unfold fetchFromRebrickable, bind, Date_now.
  set (st1 := mkState _ _ _ _ _).
  destruct (fetch_loop_failed_page env
              (fullYear env (clock env (clock_calls st)) - 3)
              (fullYear env (clock env (clock_calls st)))
              pages maxPages 1 [] st1)
    as (st' & Hrun & Hlog & Hcalls & Hdb).
  - unfold maxPages in *. lia.
  - exact Hlen.
  - intros i rs Hi. specialize (Hok i rs Hi).
    unfold page_answer, page_request in Hok. subst st1; simpl in *.
    rewrite Nat.sub_0_r in Hok. exact Hok.
  - unfold page_answer, page_request in Hfail. subst st1; simpl in *.
    rewrite Nat.sub_0_r in Hfail. exact Hfail.
  - exists st'. split_and!; auto.
    unfold events_since. rewrite Hlog. subst st1; simpl.
    rewrite drop_app_length. reflexivity.
Qed.

(** ** Numbers *)

Lemma this_Q2Qc (q : Q) : this (Q2Qc q) == q.
Proof. apply Qred_correct. Qed.

Lemma Q2Qc_this (q : Qc) : Q2Qc (this q) = q.
Proof. apply Qc_is_canon. apply this_Q2Qc. Qed.

Lemma Fin_of_Q (q : Qc) : Fin q = of_Q (this q).
Proof. unfold of_Q. by rewrite Q2Qc_this. Qed.

Lemma of_Q_sub (a b : Q) : (of_Q a - of_Q b)%num = of_Q (a - b).
Proof.
  unfold of_Q, num_sub, num_neg, num_add. f_equal. apply Qc_is_canon.
  unfold Qcplus, Qcopp. rewrite !this_Q2Qc. reflexivity.
Qed.

Lemma of_Q_mul (a b : Q) : (of_Q a * of_Q b)%num = of_Q (a * b).
Proof.
  unfold of_Q, num_mul. f_equal. apply Qc_is_canon.
  unfold Qcmult. rewrite !this_Q2Qc. reflexivity.
Qed.

Lemma Q2Qc_nonzero (b : Q) : ¬ b == 0 → Q2Qc b ≠ Q2Qc 0.
Proof. intros Hb Heq. apply Hb. by apply Q2Qc_eq_iff. Qed.

Lemma num_div_Fin (a b : Qc) :
  b ≠ Q2Qc 0 → (Fin a / Fin b)%num = Fin (a / b)%Qc.
Proof.
  intros Hb. unfold num_div.
  destruct (b ?= 0)%Qc eqn:E; try reflexivity.
  apply Qceq_alt in E. contradiction.
Qed.

Lemma of_Q_div (a b : Q) : ¬ b == 0 → (of_Q a / of_Q b)%num = of_Q (a / b).
Proof.
  intros Hb. unfold of_Q. rewrite num_div_Fin by (by apply Q2Qc_nonzero).
  f_equal. apply Qc_is_canon.
  unfold Qcdiv, Qcmult, Qcinv. rewrite !this_Q2Qc. reflexivity.
Qed.

Lemma Math_round_of_Q (a : Q) :
  Math_round (of_Q a) = of_Z (Qfloor (a + (1 # 2))).
Proof.
  unfold Math_round, of_Q at 1. f_equal. apply Qfloor_comp.
  unfold Qcplus. rewrite !this_Q2Qc. reflexivity.
Qed.

Lemma of_Z_geb (a b : Z) : (of_Z a >=? of_Z b)%num = true ↔ (b ≤ a)%Z.
Proof.
  unfold num_geb, of_Z, of_Q. rewrite bool_decide_eq_true.
  unfold Qcle. rewrite !this_Q2Qc. by rewrite <- Zle_Qle.
Qed.

Lemma of_Z_gtb_0 (z : Z) : (of_Z z >? of_Z 0)%num = true ↔ (0 < z)%Z.
Proof.
  unfold num_gtb, of_Z, of_Q, num_ltb. rewrite bool_decide_eq_true.
  unfold Qclt. rewrite !this_Q2Qc. by rewrite <- Zlt_Qlt.
Qed.

Lemma of_Z_nonzero (z : Z) : z ≠ 0%Z → Q2Qc (inject_Z z) ≠ Q2Qc 0.
Proof.
  intros Hz. apply Q2Qc_nonzero. unfold Qeq. simpl. lia.
Qed.

Lemma estimatedPrice_lower_bound (set : RawSet.t) :
  (20 ≤ RawSet.num_parts set)%Z →
  ∃ z, estimatedPrice set = of_Z z ∧ (2 ≤ z)%Z.
Proof.
  intros H. unfold estimatedPrice, of_Z at 1.
  rewrite of_Q_mul, Math_round_of_Q.
  eexists; split; [reflexivity|].
  rewrite <- (Qfloor_Z 2). apply Qfloor_resp_le.
  rewrite Zle_Qle in H.
  generalize dependent (inject_Z (RawSet.num_parts set)). intros x H.
  change (inject_Z 20) with (20 # 1)%Q in H.
  change (inject_Z 2) with (2 # 1)%Q. lra.
Qed.

(** ** Normalisation of the upstream entries *)

Lemma push_set_app (set : RawSet.t) (sets : list LegoSet.t) :
  push_set set sets = sets ++ push_set set [].
Proof.
  unfold push_set.
  repeat match goal with |- context [if ?b then _ else _] =>
    lazymatch b with
    | num_gtb _ _ => fail
    | _ => destruct b
    end end; rewrite ?app_nil_r; reflexivity.
Qed.

Lemma push_set_nil_or_singleton (set : RawSet.t) :
  push_set set [] = [] ∨ ∃ s, push_set set [] = [s].
Proof.
  unfold push_set.
  destruct (_ || _); [by left|]. destruct (_ && _); [by left|].
  right. eexists. reflexivity.
Qed.

Lemma push_set_inv (set : RawSet.t) (sets : list LegoSet.t) :
  push_set set sets = sets
  ∨ ∃ s, push_set set sets = sets ++ [s] ∧ normalised_from set s.
Proof.
  rewrite push_set_app. unfold normalised_from.
  destruct (push_set_nil_or_singleton set) as [-> | [s ->]].
  - left. apply app_nil_r.
  - right. eauto.
Qed.

Lemma push_results_Forall (P : LegoSet.t → Prop) :
  (∀ set s, normalised_from set s → P s) →
  ∀ results sets, Forall P sets → Forall P (push_results results sets).
Proof.
  intros HP results. unfold push_results.
  induction results as [|set results IH]; intros sets Hsets; simpl; [done|].
  apply IH.
  destruct (push_set_inv set sets) as [-> | (s & -> & Hs)]; [done|].
  apply Forall_app. split; [done|]. constructor; [|constructor]. eauto.
Qed.

Lemma fetch_loop_Forall (P : LegoSet.t → Prop) env minYear currentYear :
  (∀ set s, normalised_from set s → P s) →
  ∀ fuel page sets st res st',
    Forall P sets →
    fetch_loop fuel minYear currentYear page sets env st = Some (res, st') →
    Forall P res.
Proof.
  intros HP. induction fuel as [|fuel IH]; intros page sets st res st' Hsets;
    simpl; destruct (page <=? maxPages); try discriminate;
    try (intros [= <- <-]; done).
  intros Hrun. apply bind_Some in Hrun as (r & st1 & Hpage & Hrest).
  assert (Hr : match r with
               | inl _ => True
               | inr (Break sets') | inr (Continue sets') => Forall P sets'
               end).
  { revert Hpage. unfold fetch_page, bind, http_fetch.
    destruct (upstream env _ _) as [|[] status [data|]]; simpl;
      try (intros [= <- <-]; done).
    destruct (length _ =? 0); [intros [= <- <-]; done|].
    destruct (truthy (next data)); simpl; intros [= <- <-];
      by apply push_results_Forall. }
  destruct r as [[]|[sets'|sets']].
  - injection Hrest as <- <-. done.
  - injection Hrest as <- <-. done.
  - eapply IH; eauto.
Qed.

(** Every item [fetchFromRebrickable] returns was normalised from an entry
    of the upstream API. *)
Lemma fetch_items_normalised (P : LegoSet.t → Prop) env st :
  (∀ set s, normalised_from set s → P s) →
  ∃ sets st', fetchFromRebrickable env st = Some (sets, st') ∧ Forall P sets.
Proof.
  intros HP.
  destruct (fetchFromRebrickable_spec env st)
    as (sets & st' & evs & Hrun & _).
  exists sets, st'. split; [done|].
  revert Hrun. unfold fetchFromRebrickable, bind, Date_now.
  apply fetch_loop_Forall; [done | constructor].
Qed.

Lemma normalised_from_inv (set : RawSet.t) (s : LegoSet.t) :
  normalised_from set s →
  (20 ≤ RawSet.num_parts set)%Z
  ∧ truthy (RawSet.set_img_url set) = true
  ∧ LegoSet.availability s = available
  ∧ LegoSet.price s
    = (if (estimatedPrice set >? of_Z 0)%num then estimatedPrice set
       else of_Z 20)
  ∧ LegoSet.pieces s = Some (of_Z (RawSet.num_parts set)).
Proof.
  unfold normalised_from, push_set.
  destruct (truthy (RawSet.set_img_url set)); simpl; [|discriminate].
  destruct (Z.ltb_spec (RawSet.num_parts set) 20); [discriminate|].
  destruct (_ && _); [discriminate|].
  intros [= <-]. simpl. split_and!; auto.
Qed.

(** ** The price generator *)

Lemma draw_discount_total (retailer : string) env st :
  ∃ d st1,
    draw_discount retailer env st = Some (Fin d, st1)
    ∧ db st1 = db st ∧ log st1 = log st
    ∧ clock_calls st1 = clock_calls st ∧ http_calls st1 = http_calls st
    ∧ random_calls st ≤ random_calls st1
    ∧ (retailer = "lego" → Fin d = of_Z 0).
Proof.
  unfold draw_discount.
  destruct (decide (retailer = "lego")) as [Hl|Hl].
  - eexists _, st. split; [reflexivity|]. split_and!; auto.
  - unfold bind, Math_random, ret; simpl.
    repeat match goal with |- context [if ?b then _ else _] =>
      destruct b; simpl end;
      eexists _, _; (split; [reflexivity|]); simpl; split_and!; auto; try lia;
      done.
Qed.

Lemma generateSimulatedPrice_total (set : LegoSet.t) (retailer : string) env st :
  ∃ d inStock st',
    generateSimulatedPrice set retailer env st
    = Some (observation set retailer (Fin d) inStock
              (clock env (clock_calls st)), st')
    ∧ db st' = db st
    ∧ log st' = log st
                ++ [EvGenerated (LegoSet.setNumber set) retailer (Fin d) inStock]
    ∧ clock_calls st' = S (clock_calls st)
    ∧ http_calls st' = http_calls st
    ∧ inStock
      = (if decide (LegoSet.availability set = available)
         then (Fin (random env (random_calls st' - 1)) >? of_Q (15 # 100))%num
         else false)
    ∧ (retailer = "lego" → Fin d = of_Z 0).
Proof.
  destruct (draw_discount_total retailer env st)
    as (d & st1 & Hd & Hdb & Hlog & Hclk & Hhttp & Hrnd & Hlego).
  unfold generateSimulatedPrice, bind at 1. rewrite Hd.
  unfold bind, emit, Math_random, Date_now, ret; simpl.
  exists d.
  destruct (decide (LegoSet.availability set = available)); simpl;
    eexists _, _; (split; [unfold observation; rewrite Hclk; reflexivity|]);
    simpl; rewrite ?Hdb, ?Hlog, ?Hclk, ?Hhttp, ?Nat.sub_0_r;
    split_and!; auto.
Qed.

Lemma round2_Fin (x : Qc) : ∃ y, round2 (Fin x) = Fin y.
Proof.
  unfold round2, Math_round, num_mul, of_Z, of_Q.
  rewrite num_div_Fin; [eauto|]. by apply of_Z_nonzero.
Qed.

Lemma observation_currentPrice_Fin set retailer d inStock now q :
  LegoSet.price set = Fin q →
  ∃ c, PriceData.currentPrice (observation set retailer (Fin d) inStock now)
       = Fin c.
Proof.
  intros Hq. simpl. rewrite Hq. cbn [num_mul]. apply round2_Fin.
Qed.

Lemma percentOff_finite (p : PriceData.t) (q c : Qc) :
  PriceData.originalPrice p = Fin q → q ≠ Q2Qc 0 →
  PriceData.currentPrice p = Fin c →
  ∃ z, percentOff p = of_Z z.
Proof.
  intros Ho Hq Hc. unfold percentOff. rewrite Ho, Hc.
  simpl num_sub. rewrite num_div_Fin by done.
  unfold of_Z at 1, of_Q. simpl. eauto.
Qed.

(** ** The catalog items the fetcher produces *)

Lemma normalised_price (set : RawSet.t) (s : LegoSet.t) :
  normalised_from set s →
  ∃ z, LegoSet.price s = of_Z z ∧ (2 ≤ z)%Z
       ∧ LegoSet.price s = estimatedPrice set.
Proof.
  intros Hs. destruct (normalised_from_inv _ _ Hs) as (Hn & _ & _ & Hp & _).
  destruct (estimatedPrice_lower_bound set Hn) as (z & Hz & Hle).
  exists z. rewrite Hp, Hz.
  destruct (of_Z z >? of_Z 0)%num eqn:E; [done|].
  assert ((of_Z z >? of_Z 0)%num = true) by (apply of_Z_gtb_0; lia).
  congruence.
Qed.

Lemma LegoSet_data_availability (s : LegoSet.t) :
  LegoSet_data s !! "availability"
  = Some (VString (Availability_to_string (LegoSet.availability s))).
Proof.
  unfold LegoSet_data.
  destruct (LegoSet.theme s), (LegoSet.themeId s), (LegoSet.pieces s),
    (LegoSet.year s); reflexivity.
Qed.

(** C10. Every item [fetchFromRebrickable] returns has a strictly positive
    reference price, an integer of at least 2; and every observation
    generated from such an item keeps that price as its [originalPrice], so
    that its percent-off is a finite integer: the division is by a number
    that is not zero. *)
Theorem fetched_reference_price_positive (env : Env) (st : State) :
  ∃ sets st',
    fetchFromRebrickable env st = Some (sets, st')
    ∧ ∀ s, s ∈ sets →
        (∃ z, LegoSet.price s = of_Z z ∧ (2 ≤ z)%Z)
        ∧ (LegoSet.price s >? of_Z 0)%num = true
        ∧ ∀ retailer env1 st1,
            ∃ p st2,
              generateSimulatedPrice s retailer env1 st1 = Some (p, st2)
              ∧ PriceData.originalPrice p = LegoSet.price s
              ∧ PriceData.originalPrice p ≠ of_Z 0
              ∧ ∃ pct, percentOff p = of_Z pct.
Proof.
  destruct (fetch_items_normalised
    (fun s => ∃ z, LegoSet.price s = of_Z z ∧ (2 ≤ z)%Z) env st)
    as (sets & st' & Hrun & Hall).
  { intros set s Hs. destruct (normalised_price _ _ Hs) as (z & ? & ? & _).
    eauto. }
  exists sets, st'. split; [done|].
  intros s Hs. rewrite Forall_forall in Hall.
  destruct (Hall s Hs) as (z & Hz & Hle).
  split; [eauto|]. split; [rewrite Hz; apply of_Z_gtb_0; lia|].
  intros retailer env1 st1.
  destruct (generateSimulatedPrice_total s retailer env1 st1)
    as (d & inStock & st2 & Hgen & _).
  eexists _, st2. split; [exact Hgen|].
  assert (Hnz : Q2Qc (inject_Z z) ≠ Q2Qc 0) by (apply of_Z_nonzero; lia).
  split; [reflexivity|]. split.
  - cbn [observation PriceData.originalPrice]. rewrite Hz.
    intros Heq. apply Hnz.
    exact (f_equal (fun x => match x with Fin q => q | _ => Q2Qc 0 end) Heq).
  - destruct (observation_currentPrice_Fin s retailer d inStock
                (clock env1 (clock_calls st1)) _ Hz) as [c Hc].
    eapply percentOff_finite; [exact Hz | exact Hnz | exact Hc].
Qed.

(** C9. Every item [fetchFromRebrickable] returns has the availability
    [available]. Hence the document saved for it passes the filter of the
    catalog query, whatever was stored before; the stock flag of an
    observation generated from it is decided by the random draw alone; and
    every write [saveLegoSetsCatalog] batches for the items fetched stores
    the availability [available], so that no other state is ever
    written to the catalog. *)
Theorem fetched_items_are_available (env : Env) (st : State) :
  ∃ sets st',
    fetchFromRebrickable env st = Some (sets, st')
    ∧ (∀ s, s ∈ sets →
        LegoSet.availability s = available
        ∧ (∀ now stored,
             let doc := set_merge
                          (<["lastUpdated" := VTimestamp now]> (LegoSet_data s))
                          stored in
             doc !! "availability" = Some (VString "available")
             ∧ availability_in doc = true)
        ∧ ∀ retailer env1 st1,
            ∃ p st2,
              generateSimulatedPrice s retailer env1 st1 = Some (p, st2)
              ∧ PriceData.inStock p
                = (Fin (random env1 (random_calls st2 - 1))
                   >? of_Q (15 # 100))%num)
    ∧ ∀ env1 c op,
        op ∈ save_ops env1 c sets →
        ∃ k data,
          op = OpSetMerge "lego_catalog" k data
          ∧ data !! "availability" = Some (VString "available").
Proof.
  destruct (fetch_items_normalised
    (fun s => LegoSet.availability s = available) env st)
    as (sets & st' & Hrun & Hall).
  { intros set s Hs. by destruct (normalised_from_inv _ _ Hs) as (_ & _ & ? & _). }
  exists sets, st'. split; [done|].
  rewrite Forall_forall in Hall.
  assert (Hdata : ∀ s now, s ∈ sets →
            (<["lastUpdated" := VTimestamp now]> (LegoSet_data s))
              !! "availability" = Some (VString "available")).
  { intros s now Hs. rewrite lookup_insert_ne by done.
    by rewrite LegoSet_data_availability, (Hall s Hs). }
  split.
  - intros s Hs. pose proof (Hall s Hs) as Hav.
    split; [done|]. split.
    + intros now stored doc.
      assert (Hdoc : doc !! "availability" = Some (VString "available")).
      { subst doc. unfold set_merge.
        by rewrite (lookup_union_Some_l _ _ _ _ (Hdata s now Hs)). }
      split; [done|]. unfold availability_in. by rewrite Hdoc.
    + intros retailer env1 st1.
      destruct (generateSimulatedPrice_total s retailer env1 st1)
        as (d & inStock & st2 & Hgen & _ & _ & _ & _ & Hstock & _).
      eexists _, st2. split; [exact Hgen|].
      cbn [observation PriceData.inStock]. rewrite Hstock.
      destruct (decide (LegoSet.availability s = available));
        [done|contradiction].
  - intros env1 c op Hop. unfold save_ops in Hop.
    apply elem_of_lookup_imap in Hop as (j & s & -> & Hj).
    eexists _, _. split; [reflexivity|].
    apply Hdata. by eapply list_elem_of_lookup_2.
Qed.

(** ** Chunked batch writes *)

Lemma for_chunks_unroll {A} env (body : list A → M unit)
    (run : list A → State → State) :
  (∀ chunk st, body chunk env st = Some (tt, run chunk st)) →
  ∀ xs fuel i st,
    length xs ≤ i + fuel →
    ∃ chunks,
      for_chunks fuel xs i body env st
        = Some (tt, fold_left (fun s c => run c s) chunks st)
      ∧ concat chunks = drop i xs
      ∧ Forall (fun c => 0 < length c ≤ batchSize) chunks
      ∧ length (drop i xs) ≤ length chunks * batchSize
      ∧ length chunks * batchSize < length (drop i xs) + batchSize.
Proof.
  intros Hbody xs. unfold batchSize.
  induction fuel as [|fuel IH]; intros i st Hfuel; simpl;
    destruct (Nat.ltb_spec i (length xs)) as [Hi|Hi]; try lia.
  - exists []. rewrite drop_ge by lia. simpl. split_and!; auto; lia.
  - unfold bind. rewrite Hbody.
    destruct (IH (i + batchSize) (run (slice i (i + batchSize) xs) st))
      as (chunks & Hrun & Hcat & Hall & Hlo & Hhi); [unfold batchSize; lia|].
    exists (slice i (i + batchSize) xs :: chunks).
    assert (Hslice : slice i (i + batchSize) xs = take batchSize (drop i xs)).
    { unfold slice. f_equal. lia. }
    unfold batchSize in *. simpl. split_and!.
    + exact Hrun.
    + rewrite Hcat, Hslice. rewrite <- drop_drop. apply take_drop.
    + constructor; [|done]. rewrite Hslice, length_take, length_drop. lia.
    + rewrite length_drop in *. lia.
    + rewrite length_drop in *. lia.
  - exists []. rewrite drop_ge by lia. simpl. split_and!; auto; lia.
Qed.

Lemma save_batch_spec env (chunk : list LegoSet.t) :
  ∀ batch st,
    for_of chunk (fun set batch =>
      do now <- Date_now;
      ret (batch ++
           [ OpSetMerge "lego_catalog" (LegoSet.setNumber set)
               (<["lastUpdated" := VTimestamp now]> (LegoSet_data set)) ]))
      batch env st
    = Some (batch ++ save_ops env (clock_calls st) chunk,
            mkState (db st) (random_calls st) (length chunk + clock_calls st)
              (http_calls st) (log st)).
Proof.
  induction chunk as [|set chunk IH]; intros batch st; simpl.
  - unfold ret, save_ops. simpl. by rewrite app_nil_r.
  - unfold bind at 1. unfold bind at 1. unfold Date_now at 1, ret at 1.
    rewrite IH. simpl. unfold save_ops. simpl.
    rewrite <- app_assoc. simpl. rewrite Nat.add_0_r, Nat.add_succ_r.
    do 4 f_equal.
    apply imap_ext. intros j s _. simpl. by rewrite Nat.add_succ_r.
Qed.

Lemma save_chunk_spec env (chunk : list LegoSet.t) (st : State) :
  save_chunk chunk env st = Some (tt, after_save env chunk st).
Proof.
  unfold save_chunk, bind. rewrite save_batch_spec. reflexivity.
Qed.

Lemma save_chunks_fold env (chunks : list (list LegoSet.t)) :
  ∀ st,
    let st' := fold_left (fun s c => after_save env c s) chunks st in
    ∃ batches,
      log st' = log st ++ map EvCommit batches
      ∧ concat batches = save_ops env (clock_calls st) (concat chunks)
      ∧ Forall2 (fun b c => length b = length c) batches chunks
      ∧ db st' = apply_ops (db st) (concat batches)
      ∧ clock_calls st' = length (concat chunks) + clock_calls st.
Proof.
  induction chunks as [|c chunks IH]; intros st; simpl.
  - exists []. simpl. rewrite app_nil_r. split_and!; auto.
  - destruct (IH (after_save env c st)) as (batches & Hlog & Hcat & Hlen & Hdb & Hclk).
    exists (save_ops env (clock_calls st) c :: batches). simpl in *.
    split_and!.
    + rewrite Hlog. by rewrite <- app_assoc.
    + rewrite Hcat. unfold save_ops. rewrite imap_app. f_equal.
      apply imap_ext. intros j s _. simpl. do 4 f_equal. lia.
    + constructor; [|done]. unfold save_ops. by rewrite length_imap.
    + rewrite Hdb. unfold apply_ops. by rewrite fold_left_app.
    + rewrite Hclk, length_app. lia.
Qed.

Lemma delete_chunks_fold (chunks : list (list (string * Doc))) :
  ∀ st,
    let st' := fold_left (fun s c => after_delete c s) chunks st in
    log st' = log st ++ map EvCommit (map delete_ops chunks)
    ∧ db st' = apply_ops (db st) (delete_ops (concat chunks))
    ∧ clock_calls st' = clock_calls st
    ∧ random_calls st' = random_calls st
    ∧ http_calls st' = http_calls st.
Proof.
  induction chunks as [|c chunks IH]; intros st; simpl.
  - rewrite app_nil_r. split_and!; auto.
  - destruct (IH (after_delete c st)) as (Hlog & Hdb & Hclk & Hrnd & Hhttp).
    simpl in *. split_and!; auto.
    + rewrite Hlog. by rewrite <- app_assoc.
    + rewrite Hdb. unfold apply_ops, delete_ops.
      by rewrite map_app, fold_left_app.
Qed.

Lemma saveLegoSetsCatalog_spec env (sets : list LegoSet.t) (st : State) :
  ∃ st' batches,
    saveLegoSetsCatalog sets env st = Some (tt, st')
    ∧ log st' = log st ++ map EvCommit batches
    ∧ Forall (fun b => 0 < length b ≤ batchSize) batches
    ∧ concat batches = save_ops env (clock_calls st) sets
    ∧ length sets ≤ length batches * batchSize
    ∧ length batches * batchSize < length sets + batchSize
    ∧ db st' = apply_ops (db st) (save_ops env (clock_calls st) sets)
    ∧ clock_calls st' = length sets + clock_calls st
    ∧ random_calls st' = random_calls st
    ∧ http_calls st' = http_calls st.
Proof.
  destruct (for_chunks_unroll env save_chunk (after_save env)
              (save_chunk_spec env) sets (length sets) 0 st ltac:(lia))
    as (chunks & Hrun & Hcat & Hall & Hlo & Hhi).
  rewrite drop_0 in *.
  destruct (save_chunks_fold env chunks st)
    as (batches & Hlog & Hbat & Hlen & Hdb & Hclk).
  eexists _, batches. split; [exact Hrun|].
  rewrite Hcat in *.
  assert (Hsame : length batches = length chunks)
    by (eapply Forall2_length; eauto).
  split_and!; auto; try lia.
  - clear -Hall Hlen. induction Hlen as [|b c bs cs Hbc _ IH]; [constructor|].
    apply Forall_cons in Hall as [Hc Hcs].
    constructor; [lia | by apply IH].
  - by rewrite Hdb, Hbat.
  - clear. induction chunks as [|c chunks IH] using rev_ind; [done|].
    rewrite fold_left_app. simpl. exact IH.
  - clear. induction chunks as [|c chunks IH] using rev_ind; [done|].
    rewrite fold_left_app. simpl. exact IH.
Qed.

Lemma delete_chunk_spec env (chunk : list (string * Doc)) (st : State) :
  batch_commit (map (fun doc => OpDelete "deals" doc.1) chunk) env st
  = Some (tt, after_delete chunk st).
Proof. reflexivity. Qed.

Lemma cleanOldDeals_spec env (st : State) :
  let old := expired (clock env (clock_calls st)) (collection (db st) "deals") in
  ∃ st' chunks,
    cleanOldDeals env st = Some (tt, st')
    ∧ log st' = log st ++ map EvCommit (map delete_ops chunks)
    ∧ Forall (fun c => 0 < length c ≤ batchSize) chunks
    ∧ concat chunks = old
    ∧ length old ≤ length chunks * batchSize
    ∧ length chunks * batchSize < length old + batchSize
    ∧ db st' = apply_ops (db st) (delete_ops old)
    ∧ clock_calls st' = S (clock_calls st)
    ∧ random_calls st' = random_calls st
    ∧ http_calls st' = http_calls st.
Proof.
  intros old. unfold cleanOldDeals, bind at 1, Date_now at 1.
  unfold bind at 1, read_db at 1. cbn [db clock_calls].
  fold (expired (clock env (clock_calls st)) (collection (db st) "deals")).
  fold old.
  destruct (Nat.eqb_spec (length old) 0) as [Hnil|Hne].
  - apply nil_length_inv in Hnil. exists (mkState (db st) (random_calls st)
      (S (clock_calls st)) (http_calls st) (log st)), [].
    rewrite Hnil. simpl. rewrite app_nil_r. unfold batchSize.
    split_and!; auto; lia.
  - set (st1 := mkState _ _ _ _ _).
    destruct (for_chunks_unroll env
                (fun chunk => batch_commit
                   (map (fun doc => OpDelete "deals" doc.1) chunk))
                after_delete (delete_chunk_spec env) old (length old) 0 st1
                ltac:(lia))
      as (chunks & Hrun & Hcat & Hall & Hlo & Hhi).
    rewrite drop_0 in *.
    destruct (delete_chunks_fold chunks st1) as (Hlog & Hdb & Hclk & Hrnd & Hhttp).
    eexists _, chunks. split; [exact Hrun|].
    rewrite Hcat in *. subst st1. simpl in *. split_and!; auto.
Qed.

(** C6. The batches [saveLegoSetsCatalog] commits, and those
    [cleanOldDeals] commits, hold at most 450 writes each, and put end to
    end they are the writes of the input, one for each record in order:
    every record is in exactly one batch. A thousand sets are committed in
    three batches. *)
Theorem chunked_batches_within_limit (env : Env) (st : State)
    (sets : list LegoSet.t) :
  (∃ st' batches,
     saveLegoSetsCatalog sets env st = Some (tt, st')
     ∧ events_since st st' = map EvCommit batches
     ∧ Forall (fun b => length b ≤ 450) batches
     ∧ concat batches = save_ops env (clock_calls st) sets
     ∧ length (concat batches) = length sets
     ∧ (length sets = 1000 → length batches = 3))
  ∧ (∃ st' batches,
       cleanOldDeals env st = Some (tt, st')
       ∧ events_since st st' = map EvCommit batches
       ∧ Forall (fun b => length b ≤ 450) batches
       ∧ concat batches
         = delete_ops (expired (clock env (clock_calls st))
                         (collection (db st) "deals"))).
Proof.
  split.
  - destruct (saveLegoSetsCatalog_spec env sets st)
      as (st' & batches & Hrun & Hlog & Hall & Hcat & Hlo & Hhi & _).
    exists st', batches. unfold batchSize in *. split_and!; auto.
    + unfold events_since. rewrite Hlog. apply drop_app_length.
    + eapply Forall_impl; [exact Hall|]. simpl. lia.
    + rewrite Hcat. unfold save_ops. apply length_imap.
    + lia.
  - destruct (cleanOldDeals_spec env st)
      as (st' & chunks & Hrun & Hlog & Hall & Hcat & _).
    exists st', (map delete_ops chunks). unfold batchSize in *. split_and!; auto.
    + unfold events_since. rewrite Hlog. apply drop_app_length.
    + apply Forall_map. eapply Forall_impl; [exact Hall|]. simpl.
      intros c Hc. unfold delete_ops. rewrite length_map. lia.
    + rewrite <- Hcat. unfold delete_ops. clear.
      induction chunks as [|c chunks IH]; simpl; [done|].
      by rewrite map_app, IH.
Qed.

(** ** Retention sweep *)

Lemma collection_insert (db : Firestore) (c c' : string) (coll : Collection) :
  collection (<[c := coll]> db) c'
  = if decide (c = c') then coll else collection db c'.
Proof.
  unfold collection. rewrite lookup_insert. by case_decide.
Qed.

Lemma delete_ops_other (old : list (string * Doc)) :
  ∀ (db : Firestore) c,
    c ≠ "deals" →
    collection (apply_ops db (delete_ops old)) c = collection db c.
Proof.
  induction old as [|[k d] old IH]; intros db c Hc; simpl; [done|].
  unfold apply_ops, delete_ops in *. rewrite IH by done. simpl.
  rewrite collection_insert. by case_decide.
Qed.

Lemma delete_ops_deals (old : list (string * Doc)) :
  ∀ (db : Firestore) k,
    collection (apply_ops db (delete_ops old)) "deals" !! k
    = if decide (k ∈ old.*1) then None else collection db "deals" !! k.
Proof.
  induction old as [|[k0 d] old IH]; intros db k; simpl.
  - done.
  - rewrite IH. rewrite collection_insert.
    repeat case_decide; try done.
    + exfalso. rewrite elem_of_cons in *. tauto.
    + rewrite elem_of_cons in *. assert (k = k0) as -> by tauto.
      apply lookup_delete_eq.
    + rewrite lookup_delete_ne; [done|]. rewrite elem_of_cons in *.
      intros ->. tauto.
Qed.

Lemma elem_of_query (coll : Collection) (P : Doc → bool) (k : string) :
  k ∈ (query coll P).*1 ↔ ∃ d, coll !! k = Some d ∧ P d = true.
Proof.
  unfold query. rewrite list_elem_of_fmap. split.
  - intros ([k' d] & -> & Hin). apply elem_of_map_to_list in Hin.
    apply map_lookup_filter_Some in Hin as [Hk HP]. eauto.
  - intros (d & Hk & HP). exists (k, d). split; [done|].
    apply elem_of_map_to_list. by apply map_lookup_filter_Some.
Qed.

Lemma query_nil (coll : Collection) (P : Doc → bool) :
  (∀ k d, coll !! k = Some d → P d = false) → query coll P = [].
Proof.
  intros H. unfold query. apply map_to_list_empty_iff.
  apply map_empty. intros k. apply map_lookup_filter_None. right.
  intros d Hk HP. simpl in HP. rewrite (H k d Hk) in HP. discriminate.
Qed.

(** C5. At the instant [now], [cleanOldDeals] deletes the deals whose
    [lastUpdated] is strictly before [now] minus the retention of 24 hours
    and leaves every other deal, and every other collection, as it was. A
    second sweep at the same instant, with no write in between, deletes
    nothing: it leaves the store as it is and commits no batch. *)
Theorem sweep_deletes_exactly_expired_deals (env : Env) (st : State) :
  let now := clock env (clock_calls st) in
  let deals := collection (db st) "deals" in
  ∃ st',
    cleanOldDeals env st = Some (tt, st')
    ∧ (∀ k d, deals !! k = Some d →
         collection (db st') "deals" !! k
         = if older_than (now - retention)%Z d then None else Some d)
    ∧ (∀ k, deals !! k = None → collection (db st') "deals" !! k = None)
    ∧ (∀ k d t,
         deals !! k = Some d → d !! "lastUpdated" = Some (VTimestamp t) →
         ((t < now - 24 * 60 * 60 * 1000)%Z →
            collection (db st') "deals" !! k = None)
         ∧ ((now - 24 * 60 * 60 * 1000 ≤ t)%Z →
            collection (db st') "deals" !! k = Some d))
    ∧ (∀ c, c ≠ "deals" → collection (db st') c = collection (db st) c)
    ∧ (∀ env2 st2,
         db st2 = db st' → clock env2 (clock_calls st2) = now →
         ∃ st2',
           cleanOldDeals env2 st2 = Some (tt, st2')
           ∧ db st2' = db st2
           ∧ events_since st2 st2' = []).
Proof.
  intros now deals.
  destruct (cleanOldDeals_spec env st)
    as (st' & chunks & Hrun & _ & _ & _ & _ & _ & Hdb & _).
  fold now in Hdb. fold deals in Hdb.
  exists st'. split; [exact Hrun|].
  assert (Hsome : ∀ k d, deals !! k = Some d →
            collection (db st') "deals" !! k
            = if older_than (now - retention)%Z d then None else Some d).
  { intros k d Hk. rewrite Hdb, delete_ops_deals. fold deals. rewrite Hk.
    unfold expired. case_decide as Hin.
    - apply elem_of_query in Hin as (d' & Hk' & Hold).
      assert (d' = d) as -> by congruence. by rewrite Hold.
    - destruct (older_than (now - retention)%Z d) eqn:Hold; [|done].
      exfalso. apply Hin. apply elem_of_query. eauto. }
  assert (Hnone : ∀ k, deals !! k = None →
            collection (db st') "deals" !! k = None).
  { intros k Hk. rewrite Hdb, delete_ops_deals. fold deals.
    by case_decide. }
  split_and!; auto.
  - intros k d t Hk Ht. rewrite (Hsome k d Hk).
    unfold older_than. rewrite Ht. fold retention.
    destruct (Z.ltb_spec t (now - retention)); split; intros; try done; lia.
  - intros c Hc. rewrite Hdb. by apply delete_ops_other.
  - intros env2 st2 Hdb2 Hnow.
    destruct (cleanOldDeals_spec env2 st2)
      as (st2' & chunks2 & Hrun2 & Hlog2 & _ & Hcat2 & _ & Hhi2 & Hdb2' & _).
    assert (Hold : expired (clock env2 (clock_calls st2))
                     (collection (db st2) "deals") = []).
    { rewrite Hnow, Hdb2. apply query_nil. intros k d Hk.
      destruct (deals !! k) as [d0|] eqn:Hk0.
      - rewrite (Hsome k d0 Hk0) in Hk.
        destruct (older_than (now - retention)%Z d0) eqn:E; [done|].
        by injection Hk as <-.
      - by rewrite (Hnone k Hk0) in Hk. }
    rewrite Hold in *. simpl in *.
    assert (chunks2 = []) as ->.
    { destruct chunks2; [done|]. unfold batchSize in Hhi2. simpl in Hhi2. lia. }
    exists st2'. split_and!; auto.
    unfold events_since. rewrite Hlog2. simpl. rewrite app_nil_r.
    apply drop_all.
Qed.

(** ** Merge semantics of the writes *)

Lemma set_merge_merged_over (data : Doc) (stored : option Doc) :
  merged_over data stored (set_merge data stored).
Proof.
  intros f. unfold set_merge. rewrite lookup_union.
  destruct (data !! f) as [v|], stored as [d|]; simpl;
    try rewrite lookup_empty; try destruct (d !! f); reflexivity.
Qed.

Lemma apply_op_lookup (db : Firestore) (op : WriteOp) (c k : string) :
  collection (apply_op db op) c !! k
  = doc_after c k [op] (collection db c !! k).
Proof.
  destruct op as [c' k' data|c' k']; simpl; rewrite collection_insert.
  - destruct (decide (c' = c)) as [->|Hc].
    + rewrite lookup_insert. destruct (decide (k' = k)) as [->|Hk].
      * by rewrite decide_True.
      * rewrite decide_False; [done | tauto].
    + rewrite decide_False; [done | tauto].
  - destruct (decide (c' = c)) as [->|Hc].
    + rewrite lookup_delete. destruct (decide (k' = k)) as [->|Hk].
      * by rewrite decide_True.
      * rewrite decide_False; [done | tauto].
    + rewrite decide_False; [done | tauto].
Qed.

Lemma apply_ops_lookup (ops : list WriteOp) :
  ∀ (db : Firestore) (c k : string),
    collection (apply_ops db ops) c !! k
    = doc_after c k ops (collection db c !! k).
Proof.
  induction ops as [|op ops IH]; intros db c k; [done|].
  unfold apply_ops, doc_after in *. simpl. rewrite IH.
  f_equal. apply apply_op_lookup.
Qed.

Lemma doc_set_merge_spec (c k : string) (data : Doc) env st :
  ∃ st',
    doc_set_merge c k data env st = Some (tt, st')
    ∧ db st' = apply_op (db st) (OpSetMerge c k data)
    ∧ log st' = log st ++ [EvWrite (OpSetMerge c k data)]
    ∧ random_calls st' = random_calls st
    ∧ clock_calls st' = clock_calls st
    ∧ http_calls st' = http_calls st
    ∧ collection (db st') c !! k
      = Some (set_merge data (collection (db st) c !! k)).
Proof.
  eexists. split; [reflexivity|]. simpl. split_and!; auto.
  rewrite collection_insert, decide_True by done. apply lookup_insert_eq.
Qed.

Lemma save_ops_cons env (c : nat) (s : LegoSet.t) (sets : list LegoSet.t) :
  save_ops env c (s :: sets)
  = OpSetMerge "lego_catalog" (LegoSet.setNumber s)
      (<["lastUpdated" := VTimestamp (clock env c)]> (LegoSet_data s))
    :: save_ops env (S c) sets.
Proof.
  unfold save_ops. simpl. rewrite Nat.add_0_r. f_equal.
  apply imap_ext. intros j s' _. simpl. by rewrite Nat.add_succ_r.
Qed.

Lemma doc_after_cons (c k : string) (op : WriteOp) (ops : list WriteOp)
    (stored : option Doc) :
  doc_after c k (op :: ops) stored
  = doc_after c k ops (doc_after c k [op] stored).
Proof. reflexivity. Qed.

Lemma doc_after_save_ops_other env (k : string) (sets : list LegoSet.t) :
  ∀ c stored,
    (∀ s, s ∈ sets → LegoSet.setNumber s ≠ k) →
    doc_after "lego_catalog" k (save_ops env c sets) stored = stored.
Proof.
  induction sets as [|s sets IH]; intros c stored Hk; [done|].
  rewrite save_ops_cons, doc_after_cons. simpl.
  rewrite decide_False.
  - apply IH. intros s' Hs'. apply Hk. by right.
  - intros [_ Heq]. apply (Hk s); [by left | done].
Qed.

Lemma doc_after_save_ops env (sets : list LegoSet.t) :
  ∀ c stored j s,
    NoDup (map LegoSet.setNumber sets) →
    sets !! j = Some s →
    doc_after "lego_catalog" (LegoSet.setNumber s) (save_ops env c sets) stored
    = Some (set_merge
              (<["lastUpdated" := VTimestamp (clock env (c + j))]>
                 (LegoSet_data s)) stored).
Proof.
  induction sets as [|s0 sets IH]; intros c stored j s Hnd Hj; [done|].
  apply NoDup_cons in Hnd as [Hnotin Hnd].
  rewrite save_ops_cons, doc_after_cons.
  destruct j as [|j]; simpl in Hj.
  - injection Hj as ->. simpl.
    rewrite decide_True by done. rewrite Nat.add_0_r.
    apply doc_after_save_ops_other.
    intros s' Hs' Heq. apply Hnotin. rewrite <- Heq.
    apply list_elem_of_fmap. eauto.
  - simpl. rewrite decide_False.
    + rewrite (IH (S c) stored j s Hnd Hj).
      by rewrite Nat.add_succ_r.
    + intros [_ Heq]. apply Hnotin. rewrite Heq.
      apply list_elem_of_fmap. exists s. split; [done|].
      by eapply list_elem_of_lookup_2.
Qed.


(** ** The data of a write *)

Lemma undefined_property_app (o o' : Obj) :
  undefined_property (o ++ o')
  = match undefined_property o with
    | Some field => Some field
    | None => undefined_property o'
    end.
Proof.
  induction o as [|[k [v|]] o IH]; [done | exact IH | done].
Qed.

Lemma document_app (o o' : Obj) :
  document (o ++ o')
  = fold_left (fun d kv =>
                 match kv.2 with
                 | Some v => <[kv.1 := v]> d
                 | None => d
                 end) o' (document o).
Proof. apply fold_left_app. Qed.

Lemma DealData_data_undefined (d : DealData.t) :
  undefined_property (DealData_data d)
  = undefined_property (PriceData_data (DealData.base d)).
Proof.
  unfold DealData_data. rewrite undefined_property_app.
  by destruct (undefined_property _).
Qed.

Lemma DealData_doc_unfold (d : DealData.t) :
  DealData_doc d
  = <["savings" := VNumber (DealData.savings d)]>
      (<["percentOff" := VNumber (DealData.percentOff d)]>
         (PriceData_doc (DealData.base d))).
Proof. unfold DealData_doc, DealData_data. by rewrite document_app. Qed.

Lemma observation_accepted (set : LegoSet.t) (r : string) (d : number)
    (b : bool) (now : Timestamp) :
  accepted (observation set r d b now) ↔ priceable set.
Proof.
  unfold accepted, priceable, PriceData_data, observation.
  cbn [PriceData.imageUrl PriceData.theme PriceData.pieces].
  destruct (LegoSet.theme set), (LegoSet.pieces set); cbn; split;
    try done; intros [[? ?] [? ?]]; done.
Qed.

Lemma observation_refused (set : LegoSet.t) (r : string) (d : number)
    (b : bool) (now : Timestamp) :
  ¬ priceable set →
  ∃ field,
    undefined_property (PriceData_data (observation set r d b now))
    = Some field
    ∧ (field = "theme" ∨ field = "pieces").
Proof.
  unfold priceable, PriceData_data, observation.
  cbn [PriceData.imageUrl PriceData.theme PriceData.pieces].
  destruct (LegoSet.theme set), (LegoSet.pieces set); cbn; intros Hn.
  - destruct Hn. split; eauto.
  - exists "pieces". auto.
  - exists "theme". auto.
  - exists "theme". auto.
Qed.

Lemma doc_set_accepted (c k : string) (data : Obj) env st :
  undefined_property data = None →
  ∃ st',
    doc_set c k data env st = Some (Done tt, st')
    ∧ db st' = apply_op (db st) (OpSetMerge c k (document data))
    ∧ log st' = log st ++ [EvWrite (OpSetMerge c k (document data))]
    ∧ random_calls st' = random_calls st
    ∧ clock_calls st' = clock_calls st
    ∧ http_calls st' = http_calls st
    ∧ collection (db st') c !! k
      = Some (set_merge (document data) (collection (db st) c !! k)).
Proof.
  intros Hok. unfold doc_set. rewrite Hok.
  destruct (doc_set_merge_spec c k (document data) env st)
    as (st' & Hrun & H).
  exists st'. unfold bind. rewrite Hrun. split; [reflexivity | exact H].
Qed.

Lemma doc_set_refused (c k : string) (data : Obj) (field : string) env st :
  undefined_property data = Some field →
  doc_set c k data env st = Some (Thrown (UndefinedValue field), st).
Proof. intros Hno. unfold doc_set. by rewrite Hno. Qed.


(** ** The price job *)

Lemma apply_ops_app (d : Firestore) (ops1 ops2 : list WriteOp) :
  apply_ops d (ops1 ++ ops2) = apply_ops (apply_ops d ops1) ops2.
Proof. apply fold_left_app. Qed.

Lemma stamped_between_weaken env (c1 c2 c1' c2' : nat) (g : Generated) :
  c1' ≤ c1 → c2 ≤ c2' →
  stamped_between env c1 c2 g → stamped_between env c1' c2' g.
Proof. intros ? ? (i & ? & ?). exists i. split; [lia|done]. Qed.

(** One turn: the observation is generated; the store then either takes
    its price record, and its deal record when it qualifies, or refuses the
    price record and writes nothing. *)
Lemma price_step_spec {T} (upd : DealData.t → T → T) (set : LegoSet.t)
    (retailer : string) (acc : T) env st :
  ∃ g st',
    gen_set g = set ∧ gen_retailer g = retailer ∧ generated_ok g
    ∧ PriceData.lastUpdated (gen_price g) = clock env (clock_calls st)
    ∧ clock_calls st' = S (clock_calls st)
    ∧ http_calls st' = http_calls st
    ∧ match undefined_property (PriceData_data (gen_price g)) with
      | None =>
          price_step upd set retailer acc env st
          = Some (Done (collect upd [g] acc), st')
          ∧ log st' = log st ++ gen_events g
          ∧ db st' = apply_ops (db st) (turn_ops g)
      | Some field =>
          price_step upd set retailer acc env st
          = Some (Thrown (UndefinedValue field), st')
          ∧ log st' = log st ++ refused_events g
          ∧ db st' = db st
      end.
Proof.
  destruct (generateSimulatedPrice_total set retailer env st)
    as (d & inStock & st1 & Hgen & Hdb1 & Hlog & Hclk1 & Hhttp1 & Hstock
        & Hlego).
  set (p := observation set retailer (Fin d) inStock
              (clock env (clock_calls st))) in *.
  set (g := {| gen_set := set; gen_retailer := retailer;
               gen_discount := Fin d; gen_price := p |}).
  assert (Hok : generated_ok g).
  { exists d, inStock, (clock env (clock_calls st)). cbn. split_and!; auto.
    intros Hin. rewrite Hstock in Hin. by case_decide. }
  assert (Hstep : ∀ k : PriceData.t → M (Outcome T),
            (do priceData <- generateSimulatedPrice set retailer;
             k priceData) env st = k p env st1).
  { intros k. unfold bind. by rewrite Hgen. }
  unfold price_step. rewrite Hstep. clear Hstep.
  unfold savePriceToFirestore, saveDealToFirestore.
  cbn [DealData.base make_deal].
  set (k := docId (PriceData.setNumber p) (PriceData.retailer p)).
  destruct (undefined_property (PriceData_data p)) as [field|] eqn:E.
  - exists g, st1. change (gen_price g) with p. rewrite E.
    split_and!; auto.
    unfold bind_outcome, bind.
    by rewrite (doc_set_refused _ _ _ field env st1 E).
  - destruct (doc_set_accepted "prices" k (PriceData_data p) env st1 E)
      as (st2 & Hrun2 & Hdb2 & Hlog2 & _ & Hclk2 & Hhttp2 & _).
    destruct ((percentOff p >=? of_Z 10)%num && PriceData.inStock p) eqn:Hq.
    + destruct (doc_set_accepted "deals" k
                  (DealData_data (make_deal p (percentOff p))) env st2)
        as (st3 & Hrun3 & Hdb3 & Hlog3 & _ & Hclk3 & Hhttp3 & _).
      { by rewrite DealData_data_undefined. }
      exists g, st3. change (gen_price g) with p. rewrite E.
      unfold collect, gen_events, turn_ops, qualifies. cbn [fold_left].
      change (gen_price g) with p. rewrite Hq.
      split_and!;
        first [ done | congruence
              | by rewrite Hlog3, Hlog2, Hlog, <- !app_assoc
              | by rewrite Hdb3, Hdb2, Hdb1
              | idtac ].
      unfold bind_outcome, bind. rewrite Hrun2. cbv beta iota.
      by rewrite Hrun3.
    + exists g, st2. change (gen_price g) with p. rewrite E.
      unfold collect, gen_events, turn_ops, qualifies. cbn [fold_left].
      change (gen_price g) with p. rewrite Hq.
      split_and!;
        first [ done | congruence
              | by rewrite Hlog2, Hlog, <- !app_assoc
              | by rewrite Hdb2, Hdb1
              | idtac ].
      unfold bind_outcome, bind. by rewrite Hrun2.
Qed.

Lemma collect_app {T} (upd : DealData.t → T → T) (gs1 gs2 : list Generated)
    (acc : T) :
  collect upd (gs1 ++ gs2) acc = collect upd gs2 (collect upd gs1 acc).
Proof. apply fold_left_app. Qed.


Lemma turns_run_nil : turns_run [] [] None.
Proof. split_and!; constructor. Qed.

Lemma turns_run_cons (g : Generated) (ts : list (LegoSet.t * string))
    (gs : list Generated) (refusal : Refusal) :
  generated_ok g → accepted (gen_price g) →
  turns_run ts gs refusal →
  turns_run ((gen_set g, gen_retailer g) :: ts) (g :: gs) refusal.
Proof.
  intros Hok Hacc (Hoks & Haccs & Hend). split_and!; [by constructor..|].
  destruct refusal as [[g' field]|]; cbn [map].
  - destruct Hend as (Hok' & Hno & later & ->). split_and!; eauto.
  - by rewrite Hend.
Qed.

Lemma turns_run_app (ts1 ts2 : list (LegoSet.t * string))
    (gs1 gs2 : list Generated) (refusal : Refusal) :
  turns_run ts1 gs1 None → turns_run ts2 gs2 refusal →
  turns_run (ts1 ++ ts2) (gs1 ++ gs2) refusal.
Proof.
  intros (Hok1 & Hacc1 & <-) (Hok2 & Hacc2 & Hend).
  split_and!; [by apply Forall_app..|].
  destruct refusal as [[g' field]|]; rewrite map_app.
  - destruct Hend as (Hok' & Hno & later & ->). split_and!; eauto.
    exists later. by rewrite <- app_assoc.
  - by rewrite Hend.
Qed.

Lemma turns_run_later (ts ts' : list (LegoSet.t * string))
    (gs : list Generated) (g : Generated) (field : string) :
  turns_run ts gs (Some (g, field)) →
  turns_run (ts ++ ts') gs (Some (g, field)).
Proof.
  intros (Hok & Hacc & Hokg & Hno & later & ->). split_and!; auto.
  exists (later ++ ts'). by rewrite <- app_assoc.
Qed.

Lemma price_loop_retailers {T} (upd : DealData.t → T → T) (set : LegoSet.t)
    env (rs : list string) :
  ∀ acc st,
    ∃ gs refusal st',
      for_of_throwing rs (price_step upd set) acc env st
        = Some (outcome_of refusal (collect upd gs acc), st')
      ∧ log st' = log st ++ flat_map gen_events gs ++ end_events refusal
      ∧ turns_run (map (pair set) rs) gs refusal
      ∧ db st' = apply_ops (db st) (flat_map turn_ops gs)
      ∧ http_calls st' = http_calls st
      ∧ clock_calls st' = clock_calls st + readings gs refusal
      ∧ Forall (stamped_between env (clock_calls st)
                  (clock_calls st + length gs)) gs.
Proof.
  induction rs as [|r rs IH]; intros acc st.
  - exists [], None, st. cbn. rewrite app_nil_r, Nat.add_0_r.
    split_and!; auto. apply turns_run_nil.
  - destruct (price_step_spec upd set r acc env st)
      as (g & st1 & Hset & Hret & Hok & Hstamp & Hclk & Hhttp & Hstep).
    cbn [for_of_throwing map]. unfold bind_outcome at 1, bind at 1.
    destruct (undefined_property (PriceData_data (gen_price g)))
      as [field|] eqn:E.
    + destruct Hstep as (-> & Hlog & Hdb).
      exists [], (Some (g, field)), st1. cbn. split_and!; auto.
      * split_and!; [constructor.. | done | done |].
        exists (map (pair set) rs). by rewrite Hset, Hret.
      * rewrite Hclk. unfold readings. cbn. lia.
    + destruct Hstep as (-> & Hlog & Hdb).
      destruct (IH (collect upd [g] acc) st1)
        as (gs & refusal & st' & Hrun & Hlog' & Hturns & Hdb' & Hhttp'
            & Hclk' & Hstamps).
      exists (g :: gs), refusal, st'. split_and!.
      * exact Hrun.
      * rewrite Hlog', Hlog. cbn [flat_map]. by rewrite <- !app_assoc.
      * rewrite <- Hset at 1. rewrite <- Hret. by apply turns_run_cons.
      * rewrite Hdb', Hdb. cbn [flat_map]. by rewrite apply_ops_app.
      * congruence.
      * rewrite Hclk', Hclk. unfold readings. cbn [length]. lia.
      * constructor.
        -- exists (clock_calls st). split; [cbn [length]; lia | done].
        -- eapply Forall_impl; [exact Hstamps|].
           intros g'. apply stamped_between_weaken; cbn [length]; lia.
Qed.

Lemma price_loop_sets {T} (upd : DealData.t → T → T) env (rs : list string)
    (sets : list LegoSet.t) :
  ∀ acc st,
    ∃ gs refusal st',
      for_of_throwing sets
        (fun set acc => for_of_throwing rs (price_step upd set) acc) acc env st
        = Some (outcome_of refusal (collect upd gs acc), st')
      ∧ log st' = log st ++ flat_map gen_events gs ++ end_events refusal
      ∧ turns_run (flat_map (fun set => map (pair set) rs) sets) gs refusal
      ∧ db st' = apply_ops (db st) (flat_map turn_ops gs)
      ∧ http_calls st' = http_calls st
      ∧ clock_calls st' = clock_calls st + readings gs refusal
      ∧ Forall (stamped_between env (clock_calls st)
                  (clock_calls st + length gs)) gs.
Proof.
  induction sets as [|set sets IH]; intros acc st.
  - exists [], None, st. cbn. rewrite app_nil_r, Nat.add_0_r.
    split_and!; auto. apply turns_run_nil.
  - destruct (price_loop_retailers upd set env rs acc st)
      as (gs1 & refusal1 & st1 & Hrun1 & Hlog1 & Hturns1 & Hdb1 & Hhttp1
          & Hclk1 & Hst1).
    cbn [for_of_throwing flat_map]. unfold bind_outcome at 1, bind at 1.
    rewrite Hrun1. destruct refusal1 as [[g field]|].
    + exists gs1, (Some (g, field)), st1. cbn [outcome_of].
      split_and!; auto. by apply turns_run_later.
    + cbn [outcome_of].
      destruct (IH (collect upd gs1 acc) st1)
        as (gs2 & refusal & st' & Hrun2 & Hlog2 & Hturns2 & Hdb2 & Hhttp2
            & Hclk2 & Hst2).
      exists (gs1 ++ gs2), refusal, st'. split_and!.
      * by rewrite collect_app.
      * rewrite Hlog2, Hlog1. cbn [end_events].
        rewrite flat_map_app, app_nil_r. by rewrite <- !app_assoc.
      * by apply turns_run_app.
      * rewrite Hdb2, Hdb1, flat_map_app. by rewrite apply_ops_app.
      * congruence.
      * rewrite Hclk2, Hclk1. unfold readings. rewrite length_app. lia.
      * unfold readings in Hclk1. cbn in Hclk1.
        apply Forall_app. split.
        -- eapply Forall_impl; [exact Hst1|].
           intros g'. apply stamped_between_weaken; rewrite ?length_app; lia.
        -- eapply Forall_impl; [exact Hst2|].
           intros g'. apply stamped_between_weaken; rewrite ?length_app; lia.
Qed.

Lemma updatePrices_price_job :
  updatePrices = price_job 100 count_deal 0%nat (fun _ dealsFound => dealsFound).
Proof. reflexivity. Qed.

Lemma manualPriceUpdate_price_job env st :
  manualPriceUpdate env st
  = match price_job 50 count_and_sample (0%nat, [])
            (fun sets found => {| catalogSize := length sets;
                                  dealsFound := fst found;
                                  sampleDeals := snd found |}) env st with
    | Some (r, st') => Some (answer_of r, st')
    | None => None
    end.
Proof.
  unfold manualPriceUpdate, bind at 1.
  change (do sets <- getLegoSetsCatalog; _)
    with (price_job 50 count_and_sample (0%nat, [])
            (fun sets found => {| catalogSize := length sets;
                                  dealsFound := fst found;
                                  sampleDeals := snd found |})).
  destruct (price_job _ _ _ _ env st) as [[[body|error] st']|]; reflexivity.
Qed.

Lemma normalised_priceable (set : RawSet.t) (s : LegoSet.t) :
  normalised_from set s → priceable s.
Proof.
  unfold normalised_from, push_set.
  destruct (_ || _); [discriminate|]. destruct (_ && _); [discriminate|].
  intros [= <-]. split; eexists; reflexivity.
Qed.

Lemma seed_spec env (sets : list LegoSet.t) (st : State) :
  ∃ priced st1 pre,
    (if (length sets =? 0)%nat then
       do fetched <- fetchFromRebrickable;
       saveLegoSetsCatalog fetched;;
       ret fetched
     else ret sets) env st = Some (priced, st1)
    ∧ log st1 = log st ++ pre
    ∧ forallb (fun ev => negb (is_doc_write ev)) pre = true
    ∧ (sets ≠ [] → priced = sets ∧ pre = [] ∧ st1 = st)
    ∧ (sets = [] → Forall priceable priced).
Proof.
  destruct sets as [|s sets]; simpl.
  - destruct (fetch_items_normalised priceable env st normalised_priceable)
      as (fetched & st1 & Hfetch & Hall).
    destruct (fetchFromRebrickable_spec env st)
      as (fetched' & st1' & evs & Hfetch' & Hlog1 & Hreq & _).
    rewrite Hfetch in Hfetch'. injection Hfetch' as <- <-.
    destruct (saveLegoSetsCatalog_spec env fetched st1)
      as (st2 & batches & Hsave & Hlog2 & _).
    exists fetched, st2, (evs ++ map EvCommit batches).
    unfold bind. rewrite Hfetch, Hsave. split_and!; [done| | |done|done].
    + by rewrite Hlog2, Hlog1, app_assoc.
    + rewrite forallb_app. apply andb_true_iff. split.
      * clear -Hreq. induction evs as [|ev evs IH]; [done|].
        simpl in *. apply andb_true_iff in Hreq as [Hev Hevs].
        rewrite IH by done. by destruct ev.
      * clear. by induction batches.
  - exists (s :: sets), st, []. rewrite app_nil_r. split_and!; auto.
    discriminate.
Qed.

Lemma count_deal_collect (gs : list Generated) :
  ∀ n, collect count_deal gs n
       = n + length (List.filter (fun g => qualifies (gen_price g)) gs).
Proof.
  induction gs as [|g gs IH]; intros n; simpl; [lia|].
  unfold collect in *. simpl. rewrite IH.
  destruct (qualifies (gen_price g)); unfold count_deal; simpl; lia.
Qed.

Lemma count_and_sample_collect (gs : list Generated) :
  ∀ found, fst (collect count_and_sample gs found)
       = fst found + length (List.filter (fun g => qualifies (gen_price g)) gs).
Proof.
  induction gs as [|g gs IH]; intros n; simpl; [lia|].
  unfold collect in *. simpl. rewrite IH.
  destruct (qualifies (gen_price g)); unfold count_and_sample; simpl; lia.
Qed.

Lemma elem_of_turns (s : LegoSet.t) (r : string) (sets : list LegoSet.t) :
  (s, r) ∈ turns sets ↔ s ∈ sets ∧ r ∈ retailers.
Proof.
  unfold turns. rewrite list_elem_of_In, in_flat_map. split.
  - intros (s' & Hs' & Hin). apply in_map_iff in Hin as (r' & [= -> ->] & Hr).
    by rewrite !list_elem_of_In.
  - intros [Hs Hr]. exists s. split; [by apply list_elem_of_In|].
    apply in_map_iff. exists r. split; [done | by apply list_elem_of_In].
Qed.

Lemma generated_ok_accepted (g : Generated) :
  generated_ok g → accepted (gen_price g) ↔ priceable (gen_set g).
Proof.
  intros (d & b & now & _ & -> & _). apply observation_accepted.
Qed.

(** The loops end without a refusal exactly when every set processed has
    its theme and its pieces: the first turn of a set that lacks one is
    refused. *)
Lemma turns_run_refusal (sets : list LegoSet.t) (gs : list Generated)
    (refusal : Refusal) :
  turns_run (turns sets) gs refusal →
  (refusal = None ↔ Forall priceable sets).
Proof.
  intros (Hok & Hacc & Hend). split.
  - intros ->. apply Forall_forall. intros s Hs.
    assert (Hin : (s, "lego") ∈ turns sets).
    { apply elem_of_turns. split; [done | by left]. }
    rewrite <- Hend in Hin.
    apply list_elem_of_fmap in Hin as (g & [= -> _] & Hg).
    rewrite Forall_forall in Hok, Hacc.
    by apply (generated_ok_accepted g (Hok g Hg)), Hacc.
  - intros Hall. destruct refusal as [[g field]|]; [|done].
    destruct Hend as (Hokg & Hno & later & Hts). exfalso.
    assert (Hin : (gen_set g, gen_retailer g) ∈ turns sets).
    { rewrite Hts. apply elem_of_app. right. by left. }
    apply elem_of_turns in Hin as [Hs _].
    rewrite Forall_forall in Hall.
    apply (generated_ok_accepted g Hokg) in Hall; [|done].
    unfold accepted in Hall. congruence.
Qed.

(** A price job, step by step: the catalog is seeded when none is stored,
    the loops run to their last turn or to a refusal, and the sweep follows
    unless the refusal has ended the job. *)
Lemma price_job_steps {T R} (limit : nat) (upd : DealData.t → T → T)
    (acc0 : T) (answer : list LegoSet.t → T → R)
    env (st : State) (sets : list LegoSet.t) :
  getLegoSetsCatalog env st = Some (sets, st) →
  ∃ priced pre st1 gs refusal st2 st',
    log st1 = log st ++ pre
    ∧ forallb (fun ev => negb (is_doc_write ev)) pre = true
    ∧ (sets ≠ [] → priced = sets ∧ pre = [] ∧ st1 = st)
    ∧ (sets = [] → Forall priceable priced)
    ∧ log st2 = log st1 ++ flat_map gen_events gs ++ end_events refusal
    ∧ turns_run (turns (slice 0 limit priced)) gs refusal
    ∧ db st2 = apply_ops (db st1) (flat_map turn_ops gs)
    ∧ http_calls st2 = http_calls st1
    ∧ clock_calls st2 = clock_calls st1 + readings gs refusal
    ∧ Forall (stamped_between env (clock_calls st1)
                (clock_calls st1 + length gs)) gs
    ∧ match refusal with
      | None =>
          ∃ chunks,
            log st' = log st2 ++ map EvCommit (map delete_ops chunks)
            ∧ db st'
              = apply_ops (db st2)
                  (delete_ops (expired (clock env (clock_calls st2))
                                 (collection (db st2) "deals")))
            ∧ http_calls st' = http_calls st2
      | Some _ => st' = st2
      end
    ∧ price_job limit upd acc0 answer env st
      = Some (outcome_of refusal (answer priced (collect upd gs acc0)), st').
Proof.
  intros Hread. unfold price_job, bind at 1. rewrite Hread.
  destruct (seed_spec env sets st)
    as (priced & st1 & pre & Hseed & Hlog1 & Hpre & Hsets & Hfetched).
  unfold bind at 1. rewrite Hseed.
  destruct (price_loop_sets upd env retailers (slice 0 limit priced) acc0 st1)
    as (gs & refusal & st2 & Hloop & Hlog2 & Hturns & Hdb2 & Hhttp2 & Hclk2
        & Hst).
  unfold bind_outcome, bind at 1. rewrite Hloop.
  destruct refusal as [[g field]|]; cbn [outcome_of].
  - exists priced, pre, st1, gs, (Some (g, field)), st2, st2.
    split_and!; auto.
  - destruct (cleanOldDeals_spec env st2)
      as (st' & chunks & Hclean & Hlog3 & _ & _ & _ & _ & Hdb3 & _ & _
          & Hhttp3).
    unfold bind. rewrite Hclean.
    exists priced, pre, st1, gs, None, st2, st'. split_and!; auto.
    exists chunks. split_and!; auto.
Qed.

Lemma commits_no_doc_write (batches : list (list WriteOp)) :
  forallb (fun ev => negb (is_doc_write ev)) (map EvCommit batches) = true.
Proof. by induction batches. Qed.

(** The run of a price job, whatever the catalog read holds. *)
Lemma price_job_spec {T R} (limit : nat) (upd : DealData.t → T → T)
    (acc0 : T) (answer : list LegoSet.t → T → R)
    env (st : State) (sets : list LegoSet.t) :
  getLegoSetsCatalog env st = Some (sets, st) →
  ∃ priced gs refusal st',
    price_job limit upd acc0 answer env st
      = Some (outcome_of refusal (answer priced (collect upd gs acc0)), st')
    ∧ price_job_run limit sets st st' gs
        (length (List.filter (fun g => qualifies (gen_price g)) gs)) refusal
    ∧ (sets ≠ [] → priced = sets)
    ∧ (refusal = None ↔ Forall priceable (slice 0 limit sets)).
Proof.
  intros Hread.
  destruct (price_job_steps limit upd acc0 answer env st sets Hread)
    as (priced & pre & st1 & gs & refusal & st2 & st' & Hlog1 & Hpre & Hsets
        & Hfetched & Hlog2 & Hturns & _ & _ & _ & _ & Hend & Hrun).
  exists priced, gs, refusal, st'. split; [exact Hrun|]. split_and!.
  - destruct refusal as [[g field]|].
    + subst st'. exists priced, pre, (end_events (Some (g, field))).
      split_and!; auto.
      * unfold events_since. rewrite Hlog2, Hlog1.
        rewrite <- !app_assoc. by rewrite drop_app_length.
      * rewrite forallb_app, Hpre. reflexivity.
      * intros Hne. by destruct (Hsets Hne) as (? & ? & _).
    + destruct Hend as (chunks & Hlog3 & _).
      exists priced, pre, (map EvCommit (map delete_ops chunks)).
      split_and!; auto.
      * unfold events_since. rewrite Hlog3, Hlog2, Hlog1. cbn [end_events].
        rewrite app_nil_r, <- !app_assoc. by rewrite drop_app_length.
      * rewrite forallb_app, Hpre. apply commits_no_doc_write.
      * intros Hne. by destruct (Hsets Hne) as (? & ? & _).
      * done.
  - intros Hne. by destruct (Hsets Hne).
  - rewrite (turns_run_refusal _ _ _ Hturns).
    destruct sets as [|s0 sets0].
    + split; [by intros _; unfold slice; rewrite drop_0, take_nil; constructor|].
      intros _. unfold slice. rewrite drop_0.
      apply Forall_take. by apply Hfetched.
    + destruct Hsets as (-> & _); done.
Qed.



(** ** Percent-off of a generated observation *)

Lemma percentOff_observation (set : LegoSet.t) (r : string) (d : Z)
    (b : bool) (now : Timestamp) (q : Qc) :
  LegoSet.price set = Fin q → q ≠ Q2Qc 0 →
  percentOff (observation set r (of_Z d) b now)
  = of_Z (Qfloor
      ((this q
        - inject_Z
            (Qfloor (this q * (inject_Z 1 - inject_Z d / inject_Z 100)
                     * inject_Z 100 + (1 # 2)))
          / inject_Z 100)
       / this q * inject_Z 100 + (1 # 2))%Q).
Proof.
  intros Hq Hnz.
  assert (H100 : ¬ inject_Z 100 == 0) by (unfold Qeq; simpl; lia).
  assert (Hx : ¬ this q == 0).
  { intros H. apply Hnz. by apply Qc_is_canon. }
  unfold percentOff, observation.
  cbn [PriceData.originalPrice PriceData.currentPrice]. rewrite Hq.
  rewrite (Fin_of_Q q). unfold round2, of_Z.
  rewrite (of_Q_div _ _ H100), of_Q_sub, of_Q_mul, of_Q_mul.
  rewrite Math_round_of_Q. unfold of_Z.
  rewrite (of_Q_div _ _ H100), of_Q_sub, (of_Q_div _ _ Hx), of_Q_mul.
  apply Math_round_of_Q.
Qed.

Lemma half_price_Q (x : Q) (f : Z) :
  (1 <= x)%Q →
  (inject_Z f <= x * (inject_Z 1 - inject_Z 50 / inject_Z 100) * inject_Z 100
                 + (1 # 2))%Q →
  (inject_Z 10
   <= (x - inject_Z f / inject_Z 100) / x * inject_Z 100 + (1 # 2))%Q.
Proof.
  intros Hx Hf.
  change (inject_Z 1) with 1%Q in *. change (inject_Z 50) with 50%Q in *.
  change (inject_Z 100) with 100%Q in *. change (inject_Z 10) with 10%Q.
  assert (Hu : (x * / x == 1)%Q) by (apply Qmult_inv_r; lra).
  assert (Hupos : (0 < / x)%Q) by (apply Qinv_lt_0_compat; lra).
  set (u := (/ x)%Q) in *.
  assert (Hfu : (inject_Z f * u <= (x * 50 + (1 # 2)) * u)%Q).
  { apply Qmult_le_compat_r; [|lra].
    assert (x * (1 - 50 / 100) * 100 == x * 50)%Q by field. lra. }
  unfold Qdiv. fold u.
  assert (Hu1 : (u <= 1)%Q).
  { assert (u * 1 <= u * x)%Q by (apply Qmult_le_l; lra). lra. }
  generalize dependent (inject_Z f). intros y Hf Hfu.
  assert ((x - y * / 100) * u * 100 == 100 * (x * u) - y * u)%Q by field.
  lra.
Qed.

Lemma full_price_Q (x : Q) (f : Z) :
  (1 <= x)%Q →
  (x * (inject_Z 1 - inject_Z 0 / inject_Z 100) * inject_Z 100 + (1 # 2)
   < inject_Z (f + 1))%Q →
  ((x - inject_Z f / inject_Z 100) / x * inject_Z 100 + (1 # 2)
   < inject_Z 10)%Q.
Proof.
  intros Hx Hf. rewrite inject_Z_plus in Hf.
  change (inject_Z 1) with 1%Q in *. change (inject_Z 0) with 0%Q in *.
  change (inject_Z 100) with 100%Q in *. change (inject_Z 10) with 10%Q.
  assert (Hu : (x * / x == 1)%Q) by (apply Qmult_inv_r; lra).
  assert (Hupos : (0 < / x)%Q) by (apply Qinv_lt_0_compat; lra).
  set (u := (/ x)%Q) in *.
  assert (Hfu : ((x * 100 - (1 # 2)) * u <= inject_Z f * u)%Q).
  { apply Qmult_le_compat_r; [|lra].
    assert (x * (1 - 0 / 100) * 100 == x * 100)%Q by field. lra. }
  unfold Qdiv. fold u.
  assert (Hu1 : (u <= 1)%Q).
  { assert (u * 1 <= u * x)%Q by (apply Qmult_le_l; lra). lra. }
  generalize dependent (inject_Z f). intros y Hf Hfu.
  assert ((x - y * / 100) * u * 100 == 100 * (x * u) - y * u)%Q by field.
  lra.
Qed.

Lemma price_at_least_one (q : Qc) :
  (Q2Qc 1 ≤ q)%Qc → (1 <= this q)%Q ∧ q ≠ Q2Qc 0.
Proof.
  intros H. unfold Qcle in H. rewrite this_Q2Qc in H. split; [done|].
  intros ->. rewrite this_Q2Qc in H. lra.
Qed.

(** A discount of 50 on a price of at least one unit qualifies by its
    percent-off; no discount never does. *)
Lemma percentOff_half_price (set : LegoSet.t) (r : string) (b : bool)
    (now : Timestamp) (q : Qc) :
  LegoSet.price set = Fin q → (Q2Qc 1 ≤ q)%Qc →
  (percentOff (observation set r (of_Z 50) b now) >=? of_Z 10)%num = true.
Proof.
  intros Hq Hone. destruct (price_at_least_one q Hone) as [Hx Hnz].
  rewrite (percentOff_observation set r 50 b now q Hq Hnz).
  apply of_Z_geb. rewrite <- (Qfloor_Z 10). apply Qfloor_resp_le.
  apply half_price_Q; [done|]. apply Qfloor_le.
Qed.

Lemma percentOff_full_price (set : LegoSet.t) (r : string) (b : bool)
    (now : Timestamp) (q : Qc) :
  LegoSet.price set = Fin q → (Q2Qc 1 ≤ q)%Qc →
  (percentOff (observation set r (of_Z 0) b now) >=? of_Z 10)%num = false.
Proof.
  intros Hq Hone. destruct (price_at_least_one q Hone) as [Hx Hnz].
  rewrite (percentOff_observation set r 0 b now q Hq Hnz).
  apply not_true_is_false. rewrite of_Z_geb.
  intros Hle. rewrite Zle_Qle in Hle.
  eapply Qle_not_lt; [exact Hle|].
  eapply Qle_lt_trans; [apply Qfloor_le|].
  apply full_price_Q; [done|]. apply Qlt_floor.
Qed.

(** ** The seeded scenario *)

Lemma PriceData_doc_setNumber (p : PriceData.t) :
  PriceData_doc p !! "setNumber" = Some (VString (PriceData.setNumber p)).
Proof.
  unfold PriceData_doc, PriceData_data.
  destruct (PriceData.imageUrl p), (PriceData.theme p), (PriceData.pieces p);
    reflexivity.
Qed.

Lemma DealData_doc_setNumber (d : DealData.t) :
  DealData_doc d !! "setNumber"
  = Some (VString (PriceData.setNumber (DealData.base d))).
Proof.
  rewrite DealData_doc_unfold, !lookup_insert_ne by done.
  apply PriceData_doc_setNumber.
Qed.

Lemma deals_for_gen_events (s : string) (g : Generated) :
  deals_for s (gen_events g)
  = if qualifies (gen_price g)
       && String.eqb (PriceData.setNumber (gen_price g)) s
    then [EvWrite (deal_write (gen_price g))] else [].
Proof.
  unfold deals_for, gen_events. simpl.
  destruct (qualifies (gen_price g)); simpl; [|done].
  by rewrite DealData_doc_setNumber.
Qed.

Lemma deals_for_app (s : string) (evs1 evs2 : list Event) :
  deals_for s (evs1 ++ evs2) = deals_for s evs1 ++ deals_for s evs2.
Proof. apply List.filter_app. Qed.

Lemma deals_for_turns (s : string) (gs : list Generated) :
  deals_for s (flat_map gen_events gs)
  = map (fun g => EvWrite (deal_write (gen_price g)))
      (List.filter (fun g => qualifies (gen_price g)
                             && String.eqb (PriceData.setNumber (gen_price g)) s)
         gs).
Proof.
  induction gs as [|g gs IH]; [done|]. cbn [flat_map List.filter].
  rewrite deals_for_app, IH, deals_for_gen_events.
  by destruct (_ && _).
Qed.

Lemma deals_for_no_doc_write (s : string) (evs : list Event) :
  forallb (fun ev => negb (is_doc_write ev)) evs = true →
  deals_for s evs = [].
Proof.
  induction evs as [|ev evs IH]; [done|]. simpl.
  intros [Hev Hevs]%andb_true_iff. rewrite (IH Hevs).
  by destruct ev.
Qed.

Lemma filter_map_comm {X Y} (f : X → Y) (P : X → bool) (Q : Y → bool)
    (xs : list X) :
  (∀ x, x ∈ xs → P x = Q (f x)) →
  map f (List.filter P xs) = List.filter Q (map f xs).
Proof.
  induction xs as [|x xs IH]; intros H; [done|]. simpl.
  rewrite <- (H x) by (by left).
  rewrite <- IH by (intros y Hy; apply H; by right).
  by destruct (P x).
Qed.

Lemma filter_ext_in {X} (P Q : X → bool) (xs : list X) :
  (∀ x, x ∈ xs → P x = Q x) → List.filter P xs = List.filter Q xs.
Proof.
  intros H. apply List.filter_ext_in. intros x Hx. apply H.
  by apply list_elem_of_In.
Qed.

Lemma discounted_turns_of_set (A s : LegoSet.t) (rs : list string) :
  List.filter (discounted_turn A) (map (pair s) rs)
  = if String.eqb (LegoSet.setNumber s) (LegoSet.setNumber A)
    then map (pair s) (List.filter (fun r => negb (String.eqb r "lego")) rs)
    else [].
Proof.
  induction rs as [|r rs IH]; cbn [map List.filter].
  - by destruct (String.eqb _ _).
  - rewrite IH. unfold discounted_turn. cbn [fst snd].
    destruct (String.eqb (LegoSet.setNumber s) (LegoSet.setNumber A));
      cbn [andb]; [|done].
    by destruct (negb (String.eqb r "lego")).
Qed.

Lemma other_retailers :
  List.filter (fun r => negb (String.eqb r "lego")) retailers = tail retailers.
Proof. vm_compute. reflexivity. Qed.

Lemma discounted_turns_two (A B : LegoSet.t) (sets : list LegoSet.t) :
  sets ≡ₚ [A; B] →
  LegoSet.setNumber A ≠ LegoSet.setNumber B →
  List.filter (discounted_turn A) (turns sets)
  = map (pair A) (tail retailers).
Proof.
  intros Hperm Hne.
  assert (HB : String.eqb (LegoSet.setNumber B) (LegoSet.setNumber A) = false).
  { apply String.eqb_neq. congruence. }
  assert (sets = [A; B] ∨ sets = [B; A]) as [-> | ->].
  { symmetry in Hperm. apply Permutation_length_2_inv in Hperm.
    destruct Hperm; auto. }
  - unfold turns. cbn [flat_map]. rewrite !List.filter_app.
    rewrite !discounted_turns_of_set, String.eqb_refl, HB, other_retailers.
    cbn [List.filter]. by rewrite !app_nil_r.
  - unfold turns. cbn [flat_map]. rewrite !List.filter_app.
    rewrite !discounted_turns_of_set, String.eqb_refl, HB, other_retailers.
    cbn [List.filter]. by rewrite !app_nil_r.
Qed.

Lemma filter_none {X} (xs : list X) : List.filter (fun _ => false) xs = [].
Proof. by induction xs. Qed.


(** C3 (amended). The catalog read holds exactly the two sets [A] and [B],
    of distinct set numbers, each priced at one currency unit or more and
    carrying its theme and its pieces. In a run of the scheduled price job
    in which the generator yields, for [A], a stock flag that is true and a
    discount of 50 for every retailer but [lego], and for [B] a discount of
    0, the job writes 15 deals for [A], one for each of the 16 retailers
    but [lego], whose discount is always 0, and no deal for [B]; it
    completes and reports 15 deals. *)
Theorem seeded_run_writes_fifteen_deals (env : Env) (st st' : State)
    (A B : LegoSet.t) (sets : list LegoSet.t) (out : Outcome nat) :
  getLegoSetsCatalog env st = Some (sets, st) →
  sets ≡ₚ [A; B] →
  LegoSet.setNumber A ≠ LegoSet.setNumber B →
  priced_at_least_one A →
  priced_at_least_one B →
  priceable A →
  priceable B →
  updatePrices env st = Some (out, st') →
  (∀ r d b,
     EvGenerated (LegoSet.setNumber A) r d b ∈ events_since st st' →
     b = true ∧ (r ≠ "lego" → d = of_Z 50)) →
  (∀ r d b,
     EvGenerated (LegoSet.setNumber B) r d b ∈ events_since st st' →
     d = of_Z 0) →
  length (deals_for (LegoSet.setNumber A) (events_since st st')) = 15
  ∧ deals_for (LegoSet.setNumber B) (events_since st st') = []
  ∧ out = Done 15
  ∧ length retailers = 16.
Proof.
  intros Hread Hperm Hne (qa & HqA & HA1) (qb & HqB & HB1) HpA HpB Hrun
    HgenA HgenB.
  assert (Hlen : length sets = 2) by (by rewrite Hperm).
  assert (Hslice : slice 0 100 sets = sets).
  { unfold slice. rewrite drop_0. apply take_ge. lia. }
  destruct (price_job_spec 100 count_deal 0%nat (fun _ n => n)
              env st sets Hread)
    as (priced & gs & refusal & st2 & Hjob & Hspec & _ & Hiff).
  assert (refusal = None) as ->.
  { apply Hiff. rewrite Hslice, Hperm.
    apply Forall_cons_2; [exact HpA|]. apply Forall_cons_2; [exact HpB|].
    apply Forall_nil_2. }
  rewrite updatePrices_price_job, Hjob in Hrun. cbn [outcome_of] in Hrun.
  injection Hrun as Hn <-.
  destruct Hspec as (priced' & pre & post & Hev & Hnw & Hsets
                     & (Hok & _ & Hturns) & _ & Hfound).
  destruct Hsets as [-> ->]; [by destruct sets|].
  rewrite Hslice in Hturns. simpl in Hev, Hnw.
  set (pairf := fun g => (gen_set g, gen_retailer g)) in *.
  assert (HsB : String.eqb (LegoSet.setNumber B) (LegoSet.setNumber A) = false).
  { apply String.eqb_neq. congruence. }
  assert (Hq : ∀ g, g ∈ gs →
            qualifies (gen_price g) = discounted_turn A (pairf g)
            ∧ PriceData.setNumber (gen_price g) = LegoSet.setNumber (gen_set g)).
  { intros g Hg.
    assert (Hin : pairf g ∈ turns sets).
    { rewrite <- Hturns. apply list_elem_of_fmap. eauto. }
    apply elem_of_turns in Hin as [Hset _].
    rewrite Hperm in Hset.
    assert (Hevg : EvGenerated (LegoSet.setNumber (gen_set g)) (gen_retailer g)
                     (gen_discount g) (PriceData.inStock (gen_price g))
                   ∈ events_since st st2).
    { rewrite Hev. apply elem_of_app. left.
      apply list_elem_of_In, in_flat_map. exists g.
      split; [by apply list_elem_of_In | by left]. }
    rewrite Forall_forall in Hok.
    destruct (Hok g Hg) as (d & inStock & now & Hd & Hp & _ & Hlego).
    split; [|by rewrite Hp].
    unfold discounted_turn, pairf, qualifies. cbn [fst snd].
    apply elem_of_cons in Hset as [HA|HB].
    - rewrite HA in *. rewrite String.eqb_refl. cbn [andb].
      destruct (HgenA _ _ _ Hevg) as [Hstock H50].
      destruct (String.eqb_spec (gen_retailer g) "lego") as [Hr|Hr].
      + rewrite Hp, <- Hd, (Hlego Hr).
        by rewrite (percentOff_full_price A _ _ _ qa HqA HA1).
      + rewrite Hstock, Hp, <- Hd, (H50 Hr).
        by rewrite (percentOff_half_price A _ _ _ qa HqA HA1).
    - apply list_elem_of_singleton in HB. rewrite HB in *. rewrite HsB.
      rewrite Hp, <- Hd, (HgenB _ _ _ Hevg).
      by rewrite (percentOff_full_price B _ _ _ qb HqB HB1). }
  assert (Hfifteen :
    map pairf (List.filter (fun g => qualifies (gen_price g)) gs)
    = map (pair A) (tail retailers)).
  { rewrite (filter_map_comm pairf _ (discounted_turn A)).
    - rewrite Hturns. by apply (discounted_turns_two A B).
    - intros g Hg. by destruct (Hq g Hg). }
  assert (Hcount : length (List.filter (fun g => qualifies (gen_price g)) gs) = 15).
  { rewrite <- (length_map pairf), Hfifteen. reflexivity. }
  split_and!.
  - rewrite Hev, deals_for_app, deals_for_turns.
    rewrite (deals_for_no_doc_write _ post Hnw), app_nil_r, length_map.
    rewrite <- Hcount. f_equal. apply filter_ext_in. intros g Hg.
    destruct (Hq g Hg) as [Hqual Hnum]. rewrite Hnum.
    destruct (qualifies (gen_price g)); [|done]. cbn [andb].
    symmetry in Hqual. unfold discounted_turn, pairf in Hqual.
    cbn [fst snd] in Hqual. by apply andb_true_iff in Hqual as [HsA _].
  - rewrite Hev, deals_for_app, deals_for_turns.
    rewrite (deals_for_no_doc_write _ post Hnw), app_nil_r.
    rewrite (filter_ext_in _ (fun _ => false)); [by rewrite filter_none|].
    intros g Hg. destruct (Hq g Hg) as [Hqual Hnum]. rewrite Hnum.
    destruct (qualifies (gen_price g)); [|done]. cbn [andb].
    symmetry in Hqual. unfold discounted_turn, pairf in Hqual.
    apply andb_true_iff in Hqual as [HsA _]. cbn [fst] in HsA.
    apply String.eqb_eq in HsA. rewrite HsA.
    apply String.eqb_neq. done.
  - rewrite <- Hn, count_deal_collect. simpl. by rewrite Hcount.
  - reflexivity.
Qed.

(** ** The estimate on a small set *)

(** C2 fails on the code: the entry [small_entry] has 20 pieces and an
    image, so it passes the filters, and the item it is normalised to has
    the reference price [Math.round(20 * 0.11) = 2], which is positive and
    so is kept, although it is below 20. *)
Theorem estimated_price_below_twenty :
  normalised_from small_entry small_item
  ∧ LegoSet.price small_item = of_Z 2
  ∧ (LegoSet.price small_item >=? of_Z 20)%num = false
  ∧ ∃ st', fetchFromRebrickable sample_env empty_state
           = Some ([small_item], st').
Proof.
  split_and!.
  - vm_compute. reflexivity.
  - reflexivity.
  - vm_compute. reflexivity.
  - eexists. vm_compute. reflexivity.
Qed.


(** ** Instances on the sample inputs *)

Lemma generated_all_sound (s : string) (ok : string → number → bool → bool)
    (P : string → number → bool → Prop) (evs : list Event) :
  generated_all s ok evs = true →
  (∀ r d b, ok r d b = true → P r d b) →
  ∀ r d b, EvGenerated s r d b ∈ evs → P r d b.
Proof.
  intros Hall Hok r d b Hin. unfold generated_all in Hall.
  rewrite forallb_forall in Hall.
  specialize (Hall _ (proj1 (list_elem_of_In _ _) Hin)). simpl in Hall.
  rewrite String.eqb_refl in Hall. by apply Hok.
Qed.

Lemma fetch_returns_partial_result_witness :
  ∃ st',
    fetchFromRebrickable sample_env empty_state
      = Some (accumulate [[small_entry]] [], st')
    ∧ events_since empty_state st'
      = map (fun p => EvRequest (page_request sample_env empty_state p))
          (seq 1 2)
    ∧ http_calls st' = 2
    ∧ db st' = ∅.
Proof.
  apply (fetch_returns_partial_result_on_page_failure sample_env empty_state
           [[small_entry]]).
  - vm_compute. lia.
  - intros [|i] rs; simpl; intros [= <-].
    eexists _, _. split_and!; [reflexivity | done | done].
  - simpl. exact I.
Defined.




Lemma seeded_run_witness :
  length (deals_for "10001-1" (events_since scenario_state scenario_final)) = 15
  ∧ deals_for "10002-1" (events_since scenario_state scenario_final) = []
  ∧ fst <$> updatePrices sample_env scenario_state = Some (Done 15).
Proof.
  assert (Hn : fst <$> updatePrices sample_env scenario_state
               = Some (Done 15))
    by (vm_compute; reflexivity).
  destruct (seeded_run_writes_fifteen_deals sample_env scenario_state
              scenario_final set_A set_B [set_A; set_B] (Done 15))
    as (HA & HB & _).
  - vm_compute. reflexivity.
  - reflexivity.
  - vm_compute. discriminate.
  - exists (Q2Qc 100). split; [reflexivity|]. vm_compute. discriminate.
  - exists (Q2Qc 30). split; [reflexivity|]. vm_compute. discriminate.
  - split; by eexists.
  - split; by eexists.
  - unfold scenario_final.
    destruct (updatePrices sample_env scenario_state) as [[n st']|];
      [|discriminate Hn].
    injection Hn as ->. reflexivity.
  - apply (generated_all_sound _
      (fun r d b => b && (String.eqb r "lego" || bool_decide (d = of_Z 50)))).
    + vm_compute. reflexivity.
    + intros r d b [-> Hd]%andb_true_iff. split; [reflexivity|].
      intros Hr. apply orb_true_iff in Hd as [Hd|Hd].
      * apply String.eqb_eq in Hd. contradiction.
      * by apply bool_decide_eq_true in Hd.
  - apply (generated_all_sound _ (fun r d b => bool_decide (d = of_Z 0))).
    + vm_compute. reflexivity.
    + intros r d b Hd. by apply bool_decide_eq_true in Hd.
  - split_and!; [exact HA | exact HB | exact Hn].
Defined.

(** C3, as it is stated, fails on an item [A] whose reference price is
    zero, and on an item [A] that has no theme. In both runs the generator
    is forced as the claim has it (a stock flag that is true and a discount
    of 50 for every retailer of [A] but [lego], a discount of 0 for [B]).
    With the price zero, the current price is 0, the percent-off is not a
    number, no observation of [A] qualifies and the job writes 32 prices
    and no deal at all. With no theme, the store refuses the price record
    of the first observation of [A] and the job ends with that exception,
    no record written. *)
Lemma seeded_run_short_of_fifteen_deals :
  (getLegoSetsCatalog sample_env free_state
     = Some ([set_A0; set_B], free_state)
   ∧ fst <$> updatePrices sample_env free_state = Some (Done 0)
   ∧ generated_all "10001-1"
       (fun r d b => b && (String.eqb r "lego" || bool_decide (d = of_Z 50)))
       (events_since free_state free_final) = true
   ∧ generated_all "10002-1" (fun r d b => bool_decide (d = of_Z 0))
       (events_since free_state free_final) = true
   ∧ length (List.filter is_doc_write (events_since free_state free_final))
     = 32
   ∧ percentOff (observation set_A0 "amazon" (of_Z 50) true 1700000000001%Z)
     = NaN
   ∧ length (deals_for "10001-1" (events_since free_state free_final)) = 0
   ∧ deals_for "10002-1" (events_since free_state free_final) = [])
  ∧ (getLegoSetsCatalog sample_env bare_state
       = Some ([set_A_bare; set_B], bare_state)
     ∧ fst <$> updatePrices sample_env bare_state
       = Some (Thrown (UndefinedValue "theme"))
     ∧ generated_all "10001-1"
         (fun r d b => b && (String.eqb r "lego" || bool_decide (d = of_Z 50)))
         (events_since bare_state bare_final) = true
     ∧ generated_all "10002-1" (fun r d b => bool_decide (d = of_Z 0))
         (events_since bare_state bare_final) = true
     ∧ events_since bare_state bare_final
       = [EvGenerated "10001-1" "lego" (of_Z 0) true]
     ∧ length (deals_for "10001-1" (events_since bare_state bare_final)) = 0
     ∧ db bare_final = db bare_state).
Proof.
  split; split_and!; vm_compute; reflexivity.
Qed.

(* ===================================================================== *)
(** * Further properties *)
(* ===================================================================== *)

(** ** The fetcher: what is kept, and where pagination ends *)

Lemma push_results_flat_map (results : list RawSet.t) :
  ∀ sets,
    push_results results sets
    = sets ++ flat_map (fun set => push_set set []) results.
Proof.
  unfold push_results.
  induction results as [|set results IH]; intros sets; simpl.
  - by rewrite app_nil_r.
  - rewrite IH, push_set_app. by rewrite <- app_assoc.
Qed.

Lemma accumulate_flat_map (pages : list (list RawSet.t)) :
  ∀ sets,
    accumulate pages sets
    = sets ++ flat_map (fun set => push_set set []) (concat pages).
Proof.
  unfold accumulate.
  induction pages as [|rs pages IH]; intros sets; simpl.
  - by rewrite app_nil_r.
  - rewrite IH, push_results_flat_map, flat_map_app. by rewrite <- app_assoc.
Qed.

Lemma accumulate_snoc (pages : list (list RawSet.t)) (rs : list RawSet.t)
    (sets : list LegoSet.t) :
  accumulate (pages ++ [rs]) sets = push_results rs (accumulate pages sets).
Proof. unfold accumulate. by rewrite fold_left_app. Qed.

Lemma after_pages_fields minYear currentYear (n : nat) :
  ∀ p st,
    let st' := after_pages minYear currentYear p n st in
    db st' = db st
    ∧ random_calls st' = random_calls st
    ∧ clock_calls st' = clock_calls st
    ∧ http_calls st' = http_calls st + n
    ∧ log st' = log st ++
        map (fun q => EvRequest (req minYear currentYear q)) (seq p n).
Proof.
  induction n as [|n IH]; intros p st; simpl.
  - rewrite app_nil_r. split_and!; auto.
  - destruct (IH (S p) (after_request st (req minYear currentYear p)))
      as (Hdb & Hrnd & Hclk & Hhttp & Hlog).
    simpl in *. split_and!; auto; [lia|].
    rewrite Hlog. by rewrite <- app_assoc.
Qed.

(** The pages that lead on are fetched one after the other; the loop then
    goes on from the page after them. *)
Lemma fetch_loop_leading_pages env minYear currentYear
    (pages : list (list RawSet.t)) :
  ∀ fuel p sets st,
    p + length pages ≤ S maxPages →
    (∀ i rs, pages !! i = Some rs →
       page_leads_on
         (upstream env (http_calls st + i) (req minYear currentYear (p + i)))
         rs) →
    fetch_loop (length pages + fuel) minYear currentYear p sets env st
    = fetch_loop fuel minYear currentYear (p + length pages)
        (accumulate pages sets) env
        (after_pages minYear currentYear p (length pages) st).
Proof.
  unfold maxPages.
  induction pages as [|rs pages IH]; intros fuel p sets st Hp Hok.
  - simpl. by rewrite Nat.add_0_r.
  - cbn [length Nat.add fetch_loop]. unfold maxPages.
    destruct (Nat.leb_spec p 10) as [E|E]; [|simpl in Hp; lia].
    pose proof (Hok 0 rs eq_refl) as Hans. rewrite !Nat.add_0_r in Hans.
    unfold bind at 1.
    rewrite (fetch_page_leads_on _ _ _ _ sets _ _ Hans).
    rewrite (IH fuel (p + 1) (push_results rs sets)
               (after_request st (req minYear currentYear p))).
    + cbn [after_pages accumulate fold_left].
      replace (p + 1 + length pages) with (p + S (length pages)) by lia.
      replace (p + 1) with (S p) by lia. reflexivity.
    + simpl in Hp. lia.
    + intros i rs' Hi. specialize (Hok (S i) rs' Hi). simpl.
      replace (S (http_calls st + i)) with (http_calls st + S i) by lia.
      replace (p + 1 + i) with (p + S i) by lia. exact Hok.
Qed.

Lemma fetch_page_ends env minYear currentYear p sets st rs :
  page_ends (upstream env (http_calls st) (req minYear currentYear p)) rs →
  fetch_page minYear currentYear p sets env st
  = Some (inr (Break (push_results rs sets)),
          after_request st (req minYear currentYear p)).
Proof.
  intros (status & data & Hans & Hres & Hne & Hnext).
  unfold fetch_page, bind, http_fetch. rewrite Hans.
  cbn [negb]. rewrite Hres, Hnext. cbn [default negb].
  destruct rs as [|r0 rs]; [done|]. reflexivity.
Qed.

Lemma fetch_page_is_empty env minYear currentYear p sets st :
  page_is_empty (upstream env (http_calls st) (req minYear currentYear p)) →
  fetch_page minYear currentYear p sets env st
  = Some (inr (Break sets), after_request st (req minYear currentYear p)).
Proof.
  intros (status & data & Hans & Hres).
  unfold fetch_page, bind, http_fetch. rewrite Hans.
  cbn [negb]. rewrite Hres. reflexivity.
Qed.

(** The run of [fetchFromRebrickable] over the pages that lead on. *)
Lemma fetch_leading_pages (env : Env) (st : State)
    (pages : list (list RawSet.t)) :
  length pages ≤ maxPages →
  (∀ i rs, pages !! i = Some rs →
     page_leads_on (page_answer env st (S i)) rs) →
  let currentYear := fullYear env (clock env (clock_calls st)) in
  let st1 := mkState (db st) (random_calls st) (S (clock_calls st))
               (http_calls st) (log st) in
  fetchFromRebrickable env st
  = fetch_loop (maxPages - length pages) (currentYear - 3) currentYear
      (S (length pages)) (accumulate pages []) env
      (after_pages (currentYear - 3) currentYear 1 (length pages) st1).
Proof.
  intros Hlen Hok currentYear st1.
  unfold fetchFromRebrickable, bind, Date_now. fold currentYear. fold st1.
  replace maxPages with (length pages + (maxPages - length pages)) at 1 by lia.
  rewrite (fetch_loop_leading_pages env (currentYear - 3) currentYear pages
             (maxPages - length pages) 1 [] st1).
  - reflexivity.
  - lia.
  - intros i rs Hi. specialize (Hok i rs Hi).
    unfold page_answer, page_request in Hok. subst st1; simpl in *.
    rewrite Nat.sub_0_r in Hok. exact Hok.
Qed.

(** X1. When the pages before the last lead on and the last page served
    has entries but no cursor to a next page, [fetchFromRebrickable] returns
    the items of all these pages, the last one included: the entries that
    pass the filters, normalised, in the order the upstream served them. It
    has issued one request for each page. *)
Theorem fetch_returns_all_pages_to_the_last (env : Env) (st : State)
    (pages : list (list RawSet.t)) (last_page : list RawSet.t) :
  length pages < maxPages →
  (∀ i rs, pages !! i = Some rs →
     page_leads_on (page_answer env st (S i)) rs) →
  page_ends (page_answer env st (S (length pages))) last_page →
  ∃ st',
    fetchFromRebrickable env st
    = Some (flat_map (fun set => push_set set [])
              (concat (pages ++ [last_page])), st')
    ∧ events_since st st'
      = map (fun p => EvRequest (page_request env st p))
          (seq 1 (S (length pages)))
    ∧ http_calls st' = http_calls st + S (length pages).
Proof.
  intros Hlen Hok Hend.
  rewrite (fetch_leading_pages env st pages) by (done || lia).
  set (cy := fullYear env (clock env (clock_calls st))).
  set (st1 := mkState _ _ _ _ _).
  destruct (after_pages_fields (cy - 3) cy (length pages) 1 st1)
    as (Hdb & Hrnd & Hclk & Hhttp & Hlog).
  unfold maxPages in *.
  destruct (10 - length pages) as [|fuel] eqn:Hfuel; [lia|].
  cbn [fetch_loop]. unfold maxPages.
  destruct (Nat.leb_spec (S (length pages)) 10) as [_|E]; [|lia].
  unfold bind at 1. rewrite (fetch_page_ends _ _ _ _ _ _ last_page).
  - eexists. split_and!.
    + rewrite <- accumulate_snoc, accumulate_flat_map. reflexivity.
    + unfold events_since. cbn [log after_request]. rewrite Hlog.
      subst st1. cbn [log]. rewrite <- app_assoc, drop_app_length.
      rewrite seq_S, map_app. reflexivity.
    + cbn [http_calls after_request]. rewrite Hhttp. subst st1. simpl. lia.
  - rewrite Hhttp. subst st1. cbn [http_calls].
    unfold page_answer, page_request in Hend.
    replace (S (length pages) - 1) with (length pages) in Hend by lia.
    exact Hend.
Qed.

(** X2. A page served with no entry ends the pagination: whatever cursor
    it carries, [fetchFromRebrickable] returns the items of the pages
    before it and requests no further page. *)
Theorem fetch_stops_at_empty_page (env : Env) (st : State)
    (pages : list (list RawSet.t)) :
  length pages < maxPages →
  (∀ i rs, pages !! i = Some rs →
     page_leads_on (page_answer env st (S i)) rs) →
  page_is_empty (page_answer env st (S (length pages))) →
  ∃ st',
    fetchFromRebrickable env st
    = Some (flat_map (fun set => push_set set []) (concat pages), st')
    ∧ http_calls st' = http_calls st + S (length pages).
Proof.
  intros Hlen Hok Hempty.
  rewrite (fetch_leading_pages env st pages) by (done || lia).
  set (cy := fullYear env (clock env (clock_calls st))).
  set (st1 := mkState _ _ _ _ _).
  destruct (after_pages_fields (cy - 3) cy (length pages) 1 st1)
    as (Hdb & Hrnd & Hclk & Hhttp & Hlog).
  unfold maxPages in *.
  destruct (10 - length pages) as [|fuel] eqn:Hfuel; [lia|].
  cbn [fetch_loop]. unfold maxPages.
  destruct (Nat.leb_spec (S (length pages)) 10) as [_|E]; [|lia].
  unfold bind at 1. rewrite fetch_page_is_empty.
  - eexists. split.
    + rewrite accumulate_flat_map. reflexivity.
    + cbn [http_calls after_request]. rewrite Hhttp. subst st1. simpl. lia.
  - rewrite Hhttp. subst st1. cbn [http_calls].
    unfold page_answer, page_request in Hempty.
    replace (S (length pages) - 1) with (length pages) in Hempty by lia.
    exact Hempty.
Qed.

(** X3. When the upstream keeps leading on, [fetchFromRebrickable] stops
    at the page ceiling: it returns the items of the first ten pages and
    never requests an eleventh, although the tenth page carries a cursor. *)
Theorem fetch_truncates_at_page_ceiling (env : Env) (st : State)
    (pages : list (list RawSet.t)) :
  length pages = maxPages →
  (∀ i rs, pages !! i = Some rs →
     page_leads_on (page_answer env st (S i)) rs) →
  ∃ st',
    fetchFromRebrickable env st
    = Some (flat_map (fun set => push_set set []) (concat pages), st')
    ∧ events_since st st'
      = map (fun p => EvRequest (page_request env st p)) (seq 1 10)
    ∧ http_calls st' = http_calls st + 10.
Proof.
  intros Hlen Hok.
  rewrite (fetch_leading_pages env st pages) by (done || lia).
  set (cy := fullYear env (clock env (clock_calls st))).
  set (st1 := mkState _ _ _ _ _).
  destruct (after_pages_fields (cy - 3) cy (length pages) 1 st1)
    as (Hdb & Hrnd & Hclk & Hhttp & Hlog).
  rewrite Hlen in *. unfold maxPages in *. cbn [Nat.sub fetch_loop].
  unfold maxPages. cbn [Nat.leb]. unfold ret.
  eexists. split_and!.
  - rewrite accumulate_flat_map. reflexivity.
  - unfold events_since. rewrite Hlog. subst st1. cbn [log].
    by rewrite drop_app_length.
  - rewrite Hhttp. subst st1. reflexivity.
Qed.

Lemma push_results_served (P : LegoSet.t → Prop) (results : list RawSet.t) :
  (∀ set s, set ∈ results → normalised_from set s → P s) →
  ∀ sets, Forall P sets → Forall P (push_results results sets).
Proof.
  intros HP sets Hsets. rewrite push_results_flat_map.
  apply Forall_app. split; [done|].
  apply Forall_forall. intros s Hs.
  apply list_elem_of_In, in_flat_map in Hs as (set & Hset & Hs).
  apply list_elem_of_In in Hset, Hs.
  destruct (push_set_nil_or_singleton set) as [Hnil | [s' Hone]].
  - rewrite Hnil in Hs. by apply elem_of_nil in Hs.
  - rewrite Hone in Hs. apply list_elem_of_singleton in Hs as ->.
    by apply (HP set).
Qed.

Lemma fetch_loop_served (P : LegoSet.t → Prop) env minYear currentYear :
  (∀ set s, served env set → normalised_from set s → P s) →
  ∀ fuel page sets st res st',
    Forall P sets →
    fetch_loop fuel minYear currentYear page sets env st = Some (res, st') →
    Forall P res.
Proof.
  intros HP. induction fuel as [|fuel IH]; intros page sets st res st' Hsets;
    simpl; destruct (page <=? maxPages); try discriminate;
    try (intros [= <- <-]; done).
  intros Hrun. apply bind_Some in Hrun as (r & st1 & Hpage & Hrest).
  assert (Hr : match r with
               | inl _ => True
               | inr (Break sets') | inr (Continue sets') => Forall P sets'
               end).
  { revert Hpage. unfold fetch_page, bind, http_fetch.
    destruct (upstream env (http_calls st) _) as [|[] status [data|]] eqn:Hans;
      simpl; try (intros [= <- <-]; done).
    assert (Hpush : Forall P (push_results (default [] (results data)) sets)).
    { apply push_results_served; [|done]. intros set s Hin Hs.
      apply (HP set); [|done].
      destruct (results data) as [rs|] eqn:Hres; simpl in Hin;
        [|by apply elem_of_nil in Hin].
      exists (http_calls st), (req minYear currentYear page), status, data, rs.
      by split_and!. }
    destruct (length _ =? 0); [intros [= <- <-]; done|].
    destruct (truthy (next data)); simpl; intros [= <- <-]; done. }
  destruct r as [[]|[sets'|sets']].
  - injection Hrest as <- <-. done.
  - injection Hrest as <- <-. done.
  - eapply IH; eauto.
Qed.

Lemma normalised_from_passes (set : RawSet.t) (s : LegoSet.t) :
  normalised_from set s →
  passes_filters set
  ∧ LegoSet.setNumber s = RawSet.set_num set
  ∧ LegoSet.name s = RawSet.name set
  ∧ RawSet.set_img_url set = Some (LegoSet.imageUrl s)
  ∧ LegoSet.url s
    = "https://www.lego.com/en-us/product/"
        +:+ replace "-1" "" (RawSet.set_num set)
  ∧ LegoSet.theme s
    = Some (default "LEGO" (THEME_NAMES (RawSet.theme_id set)))
  ∧ LegoSet.themeId s = Some (of_Z (RawSet.theme_id set))
  ∧ LegoSet.pieces s = Some (of_Z (RawSet.num_parts set))
  ∧ LegoSet.year s = Some (of_Z (RawSet.year set)).
Proof.
  unfold normalised_from, push_set, passes_filters.
  destruct (RawSet.set_img_url set) as [img|] eqn:Himg; simpl;
    [|discriminate].
  destruct (String.eqb_spec img "") as [->|Hne]; simpl; [discriminate|].
  destruct (Z.ltb_spec (RawSet.num_parts set) 20); [discriminate|].
  destruct (Z.ltb_spec (RawSet.num_parts set) 50) as [Hlt|Hge]; cbn [andb].
  - destruct (includes "minifig" (toLowerCase (RawSet.name set))) eqn:Hmini;
      [discriminate|].
    intros [= <-].
    cbn [LegoSet.setNumber LegoSet.name LegoSet.imageUrl LegoSet.url
         LegoSet.theme LegoSet.themeId LegoSet.pieces LegoSet.year default].
    split_and!; try reflexivity; [eauto | lia |].
    intros [_ ?]. discriminate.
  - intros [= <-].
    cbn [LegoSet.setNumber LegoSet.name LegoSet.imageUrl LegoSet.url
         LegoSet.theme LegoSet.themeId LegoSet.pieces LegoSet.year default].
    split_and!; try reflexivity; [eauto | lia |].
    intros [? _]. lia.
Qed.

(** X4. Every item [fetchFromRebrickable] returns is the normalisation of
    an entry the upstream served that has an image, at least 20 pieces, and
    is not a pack of under 50 pieces with "minifig" in its name; the item
    copies the set number, the name, the image, the piece count and the
    year of the entry, its product URL is the set number without its first
    "-1", and its theme is the name of the table or "LEGO". *)
Theorem fetched_items_pass_filters (env : Env) (st : State) :
  ∃ sets st',
    fetchFromRebrickable env st = Some (sets, st')
    ∧ ∀ s, s ∈ sets →
        ∃ set,
          served env set
          ∧ passes_filters set
          ∧ LegoSet.setNumber s = RawSet.set_num set
          ∧ LegoSet.name s = RawSet.name set
          ∧ RawSet.set_img_url set = Some (LegoSet.imageUrl s)
          ∧ LegoSet.url s
            = "https://www.lego.com/en-us/product/"
                +:+ replace "-1" "" (RawSet.set_num set)
          ∧ LegoSet.theme s
            = Some (default "LEGO" (THEME_NAMES (RawSet.theme_id set)))
          ∧ LegoSet.themeId s = Some (of_Z (RawSet.theme_id set))
          ∧ LegoSet.pieces s = Some (of_Z (RawSet.num_parts set))
          ∧ LegoSet.year s = Some (of_Z (RawSet.year set)).
Proof.
  destruct (fetchFromRebrickable_spec env st)
    as (sets & st' & evs & Hrun & _).
  exists sets, st'. split; [done|].
  apply Forall_forall.
  revert Hrun. unfold fetchFromRebrickable, bind, Date_now.
  apply fetch_loop_served; [|constructor].
  intros set s Hserved Hs. exists set. split; [done|].
  by apply normalised_from_passes.
Qed.

(** ** The catalog store: what is saved is what is read *)

Lemma as_LegoSet_LegoSet_data (s : LegoSet.t) :
  as_LegoSet (LegoSet_data s) = Some s.
Proof.
  destruct s as [sn nm pr img url th thid pcs yr av].
  destruct th, thid, pcs, yr, av; reflexivity.
Qed.

Lemma as_LegoSet_ext (d d' : Doc) :
  (∀ f, f ∈ LegoSet_fields → d !! f = d' !! f) →
  as_LegoSet d = as_LegoSet d'.
Proof.
  intros H. unfold as_LegoSet, get_string, get_number, get_opt_string,
    get_opt_number.
  rewrite !(H "setNumber"), !(H "name"), !(H "price"), !(H "imageUrl"),
    !(H "url"), !(H "theme"), !(H "themeId"), !(H "pieces"), !(H "year"),
    !(H "availability")
    by (unfold LegoSet_fields; repeat (first [by left | right])).
  reflexivity.
Qed.

Lemma LegoSet_data_fully_described (s : LegoSet.t) (f : string) :
  fully_described s → f ∈ LegoSet_fields → is_Some (LegoSet_data s !! f).
Proof.
  intros ([th Hth] & [thid Hthid] & [pcs Hpcs] & [yr Hyr]) Hf.
  unfold LegoSet_data. rewrite Hth, Hthid, Hpcs, Hyr.
  unfold LegoSet_fields in Hf.
  repeat (apply elem_of_cons in Hf as [->|Hf]; [eexists; reflexivity|]).
  by apply elem_of_nil in Hf.
Qed.

Lemma LegoSet_data_lastUpdated (s : LegoSet.t) (f : string) :
  f ∈ LegoSet_fields → f ≠ "lastUpdated".
Proof.
  unfold LegoSet_fields. intros Hf ->.
  repeat (apply elem_of_cons in Hf as [Hf|Hf]; [discriminate|]).
  by apply elem_of_nil in Hf.
Qed.

Lemma as_LegoSet_merged (s : LegoSet.t) (now : Timestamp)
    (stored : option Doc) :
  stored = None ∨ fully_described s →
  as_LegoSet
    (set_merge (<["lastUpdated" := VTimestamp now]> (LegoSet_data s)) stored)
  = Some s.
Proof.
  intros Hcase.
  transitivity (as_LegoSet (LegoSet_data s));
    [|apply as_LegoSet_LegoSet_data].
  apply as_LegoSet_ext. intros f Hf.
  rewrite (set_merge_merged_over _ stored f).
  rewrite lookup_insert_ne
    by (intros Heq; by apply (LegoSet_data_lastUpdated s f Hf)).
  destruct (LegoSet_data s !! f) as [v|] eqn:Hv; [done|].
  destruct Hcase as [-> | Hfull]; [done|].
  destruct (LegoSet_data_fully_described s f Hfull Hf) as [v Hv'].
  congruence.
Qed.

Lemma as_LegoSet_availability_in (d : Doc) (s : LegoSet.t) :
  as_LegoSet d = Some s → availability_in d = true ↔ selectable s.
Proof.
  intros H. unfold as_LegoSet in H.
  repeat (apply stdpp.option.bind_Some in H as (? & ? & H)).
  injection H as <-. unfold selectable. cbn [LegoSet.availability].
  match goal with
  | Hav : get_string d "availability" ≫= _ = Some _ |- _ =>
      apply stdpp.option.bind_Some in Hav as (a & Hget & Hav);
      unfold get_string in Hget; unfold availability_in;
      destruct (d !! "availability") as [[]|]; try discriminate;
      injection Hget as ->;
      unfold Availability_of_string in Hav;
      repeat case_decide; subst; try discriminate;
      injection Hav as <-
  end.
  - split; [by left | reflexivity].
  - split; [discriminate | intros [?|?]; discriminate].
  - split; [discriminate | intros [?|?]; discriminate].
  - split; [by right | reflexivity].
Qed.

Lemma as_LegoSet_setNumber (d : Doc) (s : LegoSet.t) :
  as_LegoSet d = Some s → d !! "setNumber" = Some (VString (LegoSet.setNumber s)).
Proof.
  intros H. unfold as_LegoSet in H.
  apply stdpp.option.bind_Some in H as (sn & Hsn & H).
  repeat (apply stdpp.option.bind_Some in H as (? & ? & H)).
  injection H as <-. cbn [LegoSet.setNumber].
  unfold get_string in Hsn.
  destruct (d !! "setNumber") as [[]|]; try discriminate. by injection Hsn as ->.
Qed.

Lemma Forall2_with_Forall {A B} (P : A → B → Prop) (Q : A → Prop)
    (l : list A) (k : list B) :
  Forall2 P l k → Forall Q l → Forall2 (fun x y => Q x ∧ P x y) l k.
Proof.
  induction 1 as [|x y l k HP _ IH]; intros HQ; [constructor|].
  apply Forall_cons in HQ as [HQx HQ]. constructor; auto.
Qed.

Lemma getLegoSetsCatalog_spec env (st : State) :
  getLegoSetsCatalog env st
  = (sets ← mapM (fun kd : string * Doc => as_LegoSet kd.2)
              (take 500 (query (collection (db st) "lego_catalog")
                           availability_in));
     Some (sets, st)).
Proof.
  unfold getLegoSetsCatalog, bind, read_db, mapM_option.
  destruct (mapM _ _); reflexivity.
Qed.

(** X5. The catalog read returns whenever each stored catalog document it
    selects has the fields of a set. It returns the decoding of documents
    whose availability is [available] or [retiring_soon], no document
    being read twice: all of them up to the limit of 500 of the query. The
    read changes nothing: the store, the counters and the log are as
    before. *)
Theorem catalog_read_selects_at_most_500 (env : Env) (st : State) :
  map_Forall (fun _ d => availability_in d = true → is_Some (as_LegoSet d))
    (collection (db st) "lego_catalog") →
  ∃ sets (docs : list (string * Doc)),
    getLegoSetsCatalog env st = Some (sets, st)
    ∧ length sets
      = 500 `min` size (filter (fun kd => availability_in kd.2 = true)
                          (collection (db st) "lego_catalog"))
    ∧ NoDup docs.*1
    ∧ Forall2 (fun kd s =>
                 collection (db st) "lego_catalog" !! kd.1 = Some kd.2
                 ∧ as_LegoSet kd.2 = Some s
                 ∧ selectable s) docs sets.
Proof.
  intros Htyped. rewrite getLegoSetsCatalog_spec.
  set (coll := collection (db st) "lego_catalog") in *.
  assert (Hin : Forall (fun kd : string * Doc =>
                  coll !! kd.1 = Some kd.2 ∧ availability_in kd.2 = true)
                (take 500 (query coll availability_in))).
  { apply Forall_take, Forall_forall. intros [k d] Hkd.
    apply elem_of_map_to_list, map_lookup_filter_Some in Hkd. exact Hkd. }
  assert (Hsome : is_Some (mapM (fun kd : string * Doc => as_LegoSet kd.2)
                             (take 500 (query coll availability_in)))).
  { apply mapM_is_Some. eapply Forall_impl; [exact Hin|].
    intros [k d] [Hk Hav]. by apply (Htyped k d Hk). }
  destruct Hsome as [sets Hmap]. rewrite Hmap.
  exists sets, (take 500 (query coll availability_in)).
  split; [reflexivity|]. apply mapM_Some in Hmap. split_and!.
  - rewrite <- (Forall2_length _ _ _ Hmap), length_take.
    unfold query. by rewrite length_map_to_list.
  - rewrite fmap_take. eapply sublist_NoDup; [|apply sublist_take].
    unfold query. apply NoDup_fst_map_to_list.
  - pose proof (Forall2_with_Forall _ _ _ _ Hmap Hin) as Hall.
    eapply Forall2_impl; [exact Hall|].
    intros kd s [[Hk Hav] Hdec]. split_and!; [done | done |].
    by apply (as_LegoSet_availability_in kd.2 s Hdec).
Qed.

Lemma saved_catalog_lookup env (st st1 : State) (sets : list LegoSet.t) :
  collection (db st) "lego_catalog" = ∅ →
  db st1 = apply_ops (db st) (save_ops env (clock_calls st) sets) →
  ∀ k, collection (db st1) "lego_catalog" !! k
       = doc_after "lego_catalog" k (save_ops env (clock_calls st) sets) None.
Proof.
  intros Hempty Hdb k. by rewrite Hdb, apply_ops_lookup, Hempty, lookup_empty.
Qed.

Lemma saved_catalog_holds env (st st1 : State) (sets : list LegoSet.t) :
  collection (db st) "lego_catalog" = ∅ →
  NoDup (map LegoSet.setNumber sets) →
  db st1 = apply_ops (db st) (save_ops env (clock_calls st) sets) →
  ∀ s, s ∈ sets →
    ∃ d, collection (db st1) "lego_catalog" !! LegoSet.setNumber s = Some d
         ∧ as_LegoSet d = Some s.
Proof.
  intros Hempty Hnd Hdb s Hs.
  apply list_elem_of_lookup in Hs as [j Hj].
  rewrite (saved_catalog_lookup env st st1 sets Hempty Hdb).
  rewrite (doc_after_save_ops env sets _ None j s Hnd Hj).
  eexists. split; [reflexivity|]. apply as_LegoSet_merged. by left.
Qed.

Lemma saved_catalog_only env (st st1 : State) (sets : list LegoSet.t) :
  collection (db st) "lego_catalog" = ∅ →
  NoDup (map LegoSet.setNumber sets) →
  db st1 = apply_ops (db st) (save_ops env (clock_calls st) sets) →
  ∀ k d, collection (db st1) "lego_catalog" !! k = Some d →
    ∃ s, s ∈ sets ∧ LegoSet.setNumber s = k ∧ as_LegoSet d = Some s.
Proof.
  intros Hempty Hnd Hdb k d Hk.
  destruct (decide (k ∈ map LegoSet.setNumber sets)) as [Hin|Hout].
  - apply list_elem_of_fmap in Hin as (s & -> & Hs).
    destruct (saved_catalog_holds env st st1 sets Hempty Hnd Hdb s Hs)
      as (d' & Hd' & Hdec).
    exists s. split_and!; [done | done | congruence].
  - rewrite (saved_catalog_lookup env st st1 sets Hempty Hdb) in Hk.
    rewrite doc_after_save_ops_other in Hk; [discriminate|].
    intros s Hs Heq. apply Hout. apply list_elem_of_fmap. by exists s.
Qed.

Lemma saved_catalog_query env (st st1 : State) (sets : list LegoSet.t) :
  collection (db st) "lego_catalog" = ∅ →
  NoDup (map LegoSet.setNumber sets) →
  db st1 = apply_ops (db st) (save_ops env (clock_calls st) sets) →
  ∃ read,
    mapM (fun kd : string * Doc => as_LegoSet kd.2)
      (query (collection (db st1) "lego_catalog") availability_in) = Some read
    ∧ read ≡ₚ filter selectable sets.
Proof.
  intros Hempty Hnd Hdb.
  pose proof (saved_catalog_holds env st st1 sets Hempty Hnd Hdb) as Hholds.
  pose proof (saved_catalog_only env st st1 sets Hempty Hnd Hdb) as Honly.
  set (coll := collection (db st1) "lego_catalog") in *.
  assert (HL : ∀ k d, (k, d) ∈ query coll availability_in ↔
                      coll !! k = Some d ∧ availability_in d = true).
  { intros k d. unfold query.
    rewrite elem_of_map_to_list, map_lookup_filter_Some. reflexivity. }
  assert (Hsome : is_Some (mapM (fun kd : string * Doc => as_LegoSet kd.2)
                             (query coll availability_in))).
  { apply mapM_is_Some, Forall_forall. intros [k d] Hkd.
    apply HL in Hkd as [Hk _].
    destruct (Honly k d Hk) as (s & _ & _ & Hdec). by exists s. }
  destruct Hsome as [read Hread]. exists read. split; [done|].
  apply mapM_Some in Hread.
  assert (Hkeys : LegoSet.setNumber <$> read = (query coll availability_in).*1).
  { symmetry. apply list_eq_Forall2, Forall2_fmap.
    apply Forall2_same_length_lookup. split; [by eapply Forall2_length|].
    intros i [k d] s Hi Hs.
    destruct (Forall2_lookup_l _ _ _ _ _ Hread Hi) as (s' & Hs' & Hdec).
    assert (s' = s) as -> by congruence.
    apply list_elem_of_lookup_2, HL in Hi as [Hk _].
    destruct (Honly k d Hk) as (s0 & _ & Hnum & Hdec0). simpl in *.
    congruence. }
  apply NoDup_Permutation.
  - apply (NoDup_fmap_1 LegoSet.setNumber). rewrite Hkeys.
    unfold query. apply NoDup_fst_map_to_list.
  - apply NoDup_filter. by apply (NoDup_fmap_1 LegoSet.setNumber).
  - intros s. rewrite list_elem_of_filter. split.
    + intros Hs. apply list_elem_of_lookup in Hs as [i Hi].
      destruct (Forall2_lookup_r _ _ _ _ _ Hread Hi) as ([k d] & Hkd & Hdec).
      apply list_elem_of_lookup_2, HL in Hkd as [Hk Hav].
      destruct (Honly k d Hk) as (s0 & Hs0 & _ & Hdec0). simpl in *.
      assert (s0 = s) as -> by congruence.
      split; [|done]. by apply (as_LegoSet_availability_in d s).
    + intros [Hsel Hs].
      destruct (Hholds s Hs) as (d & Hk & Hdec).
      assert (Hkd : (LegoSet.setNumber s, d) ∈ query coll availability_in).
      { apply HL. split; [done|]. by apply (as_LegoSet_availability_in d s). }
      apply list_elem_of_lookup in Hkd as [i Hi].
      destruct (Forall2_lookup_l _ _ _ _ _ Hread Hi) as (s' & Hs' & Hdec').
      simpl in Hdec'. assert (s' = s) as -> by congruence.
      by eapply list_elem_of_lookup_2.
Qed.

(** X6. A saved item is stored decodable: after the save of items with
    distinct set numbers, the document under an item's set number decodes
    back to the item itself and carries the time of its write, provided
    nothing was stored under that key or the item has its four optional
    properties (an optional property the item lacks would otherwise be
    taken from the stored document). *)
Theorem saved_item_decodes_back (env : Env) (st : State)
    (sets : list LegoSet.t) (j : nat) (s : LegoSet.t) :
  NoDup (map LegoSet.setNumber sets) →
  sets !! j = Some s →
  collection (db st) "lego_catalog" !! LegoSet.setNumber s = None
    ∨ fully_described s →
  ∃ st' doc,
    saveLegoSetsCatalog sets env st = Some (tt, st')
    ∧ collection (db st') "lego_catalog" !! LegoSet.setNumber s = Some doc
    ∧ as_LegoSet doc = Some s
    ∧ doc !! "lastUpdated"
      = Some (VTimestamp (clock env (clock_calls st + j))).
Proof.
  intros Hnd Hj Hcase.
  destruct (saveLegoSetsCatalog_spec env sets st)
    as (st' & batches & Hrun & _ & _ & _ & _ & _ & Hdb & _).
  exists st'. eexists. split; [exact Hrun|].
  rewrite Hdb, apply_ops_lookup.
  rewrite (doc_after_save_ops env sets _ _ j s Hnd Hj).
  split; [reflexivity|]. split.
  - apply as_LegoSet_merged. destruct Hcase as [->|?]; auto.
  - rewrite (set_merge_merged_over _ _ "lastUpdated").
    by rewrite lookup_insert_eq.
Qed.

(** X7. Into an empty catalog, the save of items with distinct set numbers
    followed by the catalog read returns the saved items that are
    [available] or [retiring_soon], each once, up to the limit of 500 of the
    query: all of them, in some order, when they are at most 500. *)
Theorem saved_catalog_is_read_back (env : Env) (st : State)
    (sets : list LegoSet.t) :
  collection (db st) "lego_catalog" = ∅ →
  NoDup (map LegoSet.setNumber sets) →
  ∃ st1 read,
    saveLegoSetsCatalog sets env st = Some (tt, st1)
    ∧ getLegoSetsCatalog env st1 = Some (read, st1)
    ∧ read ⊆+ filter selectable sets
    ∧ length read = 500 `min` length (filter selectable sets)
    ∧ (length (filter selectable sets) ≤ 500 →
       read ≡ₚ filter selectable sets).
Proof.
  intros Hempty Hnd.
  destruct (saveLegoSetsCatalog_spec env sets st)
    as (st1 & batches & Hrun & _ & _ & _ & _ & _ & Hdb & _).
  destruct (saved_catalog_query env st st1 sets Hempty Hnd Hdb)
    as (read0 & Hread0 & Hperm).
  exists st1, (take 500 read0). split; [exact Hrun|].
  split.
  { rewrite getLegoSetsCatalog_spec.
    apply mapM_Some in Hread0.
    rewrite (proj2 (mapM_Some _ _ _) (Forall2_take _ _ _ 500 Hread0)).
    reflexivity. }
  split_and!.
  - rewrite <- Hperm. apply sublist_submseteq, sublist_take.
  - by rewrite length_take, Hperm.
  - intros Hle. rewrite take_ge; [done|]. by rewrite Hperm.
Qed.

(** ** The price generator: the discount drawn and the percent-off *)

Lemma of_Q_add (a b : Q) : (of_Q a + of_Q b)%num = of_Q (a + b).
Proof.
  unfold of_Q, num_add. f_equal. apply Qc_is_canon.
  unfold Qcplus. rewrite !this_Q2Qc. reflexivity.
Qed.

Lemma of_Z_add (a b : Z) : (of_Z a + of_Z b)%num = of_Z (a + b).
Proof. unfold of_Z. rewrite of_Q_add. by rewrite <- inject_Z_plus. Qed.

Lemma Qfloor_eq (x : Q) (z : Z) :
  (inject_Z z <= x)%Q → (x < inject_Z (z + 1))%Q → Qfloor x = z.
Proof.
  intros Hle Hlt.
  assert (z ≤ Qfloor x)%Z.
  { rewrite <- (Qfloor_Z z). by apply Qfloor_resp_le. }
  assert (Qfloor x < z + 1)%Z.
  { rewrite Zlt_Qlt. eapply Qle_lt_trans; [apply Qfloor_le | exact Hlt]. }
  lia.
Qed.

Lemma floor_scaled_draw (q : Qc) (k : Z) :
  unit_draw q → (0 < k)%Z →
  ∃ z, Math_floor (Fin q * of_Z k)%num = of_Z z ∧ (0 ≤ z < k)%Z.
Proof.
  intros [H0 H1] Hk. rewrite (Fin_of_Q q). unfold of_Z at 1.
  rewrite of_Q_mul. unfold Math_floor, of_Q at 1.
  eexists. split; [reflexivity|].
  unfold Qcle, Qclt in *. rewrite this_Q2Qc in H0, H1.
  rewrite (Qfloor_comp _ _ (this_Q2Qc _)).
  rewrite Zlt_Qlt in Hk.
  assert (Hlo : (0 <= this q * inject_Z k)%Q).
  { apply Qmult_le_0_compat; [done|]. by apply Qlt_le_weak. }
  assert (Hhi : (this q * inject_Z k < inject_Z k)%Q).
  { rewrite <- (Qmult_1_l (inject_Z k)) at 2.
    apply Qmult_lt_compat_r; done. }
  split.
  - rewrite <- (Qfloor_Z 0). by apply Qfloor_resp_le.
  - rewrite Zlt_Qlt. eapply Qle_lt_trans; [apply Qfloor_le | exact Hhi].
Qed.

Lemma unit_draws_at env st (n i : nat) :
  unit_draws env st n → i < n → unit_draw (random env (i + random_calls st)).
Proof. intros H Hi. rewrite Nat.add_comm. by apply H. Qed.

Lemma draw_discount_range (retailer : string) env st :
  unit_draws env st 4 →
  ∃ z st1,
    draw_discount retailer env st = Some (of_Z z, st1)
    ∧ (z = 0 ∨ 10 ≤ z ≤ 60)%Z
    ∧ (retailer = "lego" → z = 0%Z ∧ random_calls st1 = random_calls st)
    ∧ (retailer ≠ "lego" →
       2 + random_calls st ≤ random_calls st1 ≤ 4 + random_calls st)
    ∧ db st1 = db st ∧ log st1 = log st
    ∧ clock_calls st1 = clock_calls st ∧ http_calls st1 = http_calls st.
Proof.
  intros Hdraws. unfold draw_discount.
  destruct (decide (retailer = "lego")) as [Hl|Hl].
  - exists 0%Z, st. split; [reflexivity|]. split_and!; auto; try lia. done.
  - unfold bind, Math_random, ret; cbn -[num_mul num_add Math_floor of_Z of_Q num_ltb].
    destruct (Fin (random env (random_calls st)) <? of_Q (7 # 10))%num.
    + cbn -[num_mul num_add Math_floor of_Z of_Q num_ltb].
      destruct (floor_scaled_draw (random env (S (random_calls st))) 31)
        as (z1 & Hz1 & Hr1); [apply (unit_draws_at env st 4 1); [done|lia] | lia |].
      rewrite Hz1, of_Z_add.
      destruct (Fin (random env (S (S (random_calls st)))) <? of_Q (1 # 10))%num;
        cbn -[num_mul num_add Math_floor of_Z of_Q num_ltb].
      * destruct (floor_scaled_draw (random env (S (S (S (random_calls st))))) 21)
          as (z2 & Hz2 & Hr2); [apply (unit_draws_at env st 4 3); [done|lia] | lia |].
        rewrite Hz2, of_Z_add.
        eexists _, _. split; [reflexivity|].
        cbn -[num_mul num_add Math_floor of_Z of_Q num_ltb].
        split_and!; auto; try lia. done.
      * eexists _, _. split; [reflexivity|].
        cbn -[num_mul num_add Math_floor of_Z of_Q num_ltb].
        split_and!; auto; try lia. done.
    + cbn -[num_mul num_add Math_floor of_Z of_Q num_ltb].
      destruct (Fin (random env (S (random_calls st))) <? of_Q (1 # 10))%num;
        cbn -[num_mul num_add Math_floor of_Z of_Q num_ltb].
      * destruct (floor_scaled_draw (random env (S (S (random_calls st)))) 21)
          as (z2 & Hz2 & Hr2); [apply (unit_draws_at env st 4 2); [done|lia] | lia |].
        rewrite Hz2, of_Z_add.
        eexists _, _. split; [reflexivity|].
        cbn -[num_mul num_add Math_floor of_Z of_Q num_ltb].
        split_and!; auto; try lia. done.
      * exists 0%Z. eexists. split; [reflexivity|].
        cbn -[num_mul num_add Math_floor of_Z of_Q num_ltb].
        split_and!; auto; try lia. done.
Qed.

Lemma exact_percent_Q (x : Q) (d f : Z) :
  (1 <= x)%Q →
  (inject_Z f <= x * (inject_Z 1 - inject_Z d / inject_Z 100) * inject_Z 100
                 + (1 # 2))%Q →
  (x * (inject_Z 1 - inject_Z d / inject_Z 100) * inject_Z 100 + (1 # 2)
   < inject_Z (f + 1))%Q →
  (inject_Z d
   <= (x - inject_Z f / inject_Z 100) / x * inject_Z 100 + (1 # 2))%Q
  ∧ ((x - inject_Z f / inject_Z 100) / x * inject_Z 100 + (1 # 2)
     < inject_Z (d + 1))%Q.
Proof.
  intros Hx Hlo Hhi. rewrite inject_Z_plus in Hhi. rewrite inject_Z_plus.
  change (inject_Z 1) with 1%Q in *. change (inject_Z 100) with 100%Q in *.
  assert (Hu : (x * / x == 1)%Q) by (apply Qmult_inv_r; lra).
  assert (Hupos : (0 < / x)%Q) by (apply Qinv_lt_0_compat; lra).
  set (u := (/ x)%Q) in *.
  assert (Hu1 : (u <= 1)%Q).
  { assert (u * 1 <= u * x)%Q by (apply Qmult_le_l; lra). lra. }
  generalize dependent (inject_Z f). intros y Hlo Hhi.
  generalize dependent (inject_Z d). intros D Hlo Hhi.
  assert (Hlo' : (y * u <= (x * (1 - D / 100) * 100 + (1 # 2)) * u)%Q).
  { apply Qmult_le_compat_r; lra. }
  assert (Hhi' : ((x * (1 - D / 100) * 100 + (1 # 2)) * u < (y + 1) * u)%Q).
  { apply Qmult_lt_compat_r; lra. }
  assert (E : ((x * (1 - D / 100) * 100 + (1 # 2)) * u
               == (100 - D) * (x * u) + (1 # 2) * u)%Q) by field.
  rewrite Hu in E.
  unfold Qdiv. fold u.
  assert (E' : ((x - y * / 100) * u * 100 == 100 * (x * u) - y * u)%Q)
    by field.
  rewrite Hu in E'.
  assert (E2 : ((y + 1) * u == y * u + u)%Q) by ring.
  generalize dependent (y * u)%Q. intros yu; intros.
  split; lra.
Qed.

Lemma percentOff_exact (set : LegoSet.t) (r : string) (d : Z) (b : bool)
    (now : Timestamp) :
  priced_at_least_one set →
  percentOff (observation set r (of_Z d) b now) = of_Z d.
Proof.
  intros (q & Hq & Hone). destruct (price_at_least_one q Hone) as [Hx Hnz].
  rewrite (percentOff_observation set r d b now q Hq Hnz). f_equal.
  apply Qfloor_eq; apply exact_percent_Q; try done.
  - apply Qfloor_le.
  - apply Qlt_floor.
  - apply Qfloor_le.
  - apply Qlt_floor.
Qed.

(** X8. For a set with a reference price of at least one currency unit,
    the percent-off computed from the two rounded prices of an observation
    is exactly the whole-number discount the generator drew: rounding the
    discounted price to cents loses nothing. Such an observation yields a
    deal exactly when the discount drawn is at least 10 and the stock flag
    is true. *)
Theorem percent_off_is_the_discount_drawn (set : LegoSet.t) (r : string)
    (d : Z) (b : bool) (now : Timestamp) :
  priced_at_least_one set →
  percentOff (observation set r (of_Z d) b now) = of_Z d
  ∧ (qualifies (observation set r (of_Z d) b now) = true
     ↔ (10 ≤ d)%Z ∧ b = true).
Proof.
  intros Hone. pose proof (percentOff_exact set r d b now Hone) as Hp.
  split; [exact Hp|]. unfold qualifies. rewrite Hp.
  rewrite andb_true_iff, of_Z_geb. reflexivity.
Qed.

Lemma percentOff_zero_price (set : LegoSet.t) (r : string) (d : Qc)
    (b : bool) (now : Timestamp) :
  LegoSet.price set = of_Z 0 →
  percentOff (observation set r (Fin d) b now) = NaN.
Proof.
  intros Hq. unfold percentOff, observation.
  cbn [PriceData.originalPrice PriceData.currentPrice]. rewrite Hq.
  assert (H100 : Q2Qc (inject_Z 100) ≠ Q2Qc 0) by (by apply of_Z_nonzero).
  unfold of_Z at 3 4, of_Q. rewrite (num_div_Fin _ _ H100).
  cbn [num_sub num_neg num_add].
  assert (E : ∀ c, (of_Z 0 * Fin c)%num = of_Z 0).
  { intros c. unfold of_Z, of_Q, num_mul. f_equal. apply Qcmult_0_l. }
  rewrite E.
  assert (E2 : round2 (of_Z 0) = of_Z 0).
  { assert (Hq100 : ¬ inject_Z 100 == 0) by (unfold Qeq; simpl; lia).
    unfold round2, of_Z. rewrite of_Q_mul, Math_round_of_Q. unfold of_Z.
    rewrite (of_Q_div _ _ Hq100). unfold of_Q. f_equal.
    apply Qc_is_canon. reflexivity. }
  rewrite E2. reflexivity.
Qed.

(** X9. A set whose reference price is zero never yields a deal: whatever
    the discount drawn and the stock flag, the percent-off of its
    observation is the quotient of two zeroes, that is [NaN], and [NaN]
    fails the comparison with 10. *)
Theorem zero_priced_set_never_qualifies (set : LegoSet.t) (r : string)
    (d : Qc) (b : bool) (now : Timestamp) :
  LegoSet.price set = of_Z 0 →
  percentOff (observation set r (Fin d) b now) = NaN
  ∧ qualifies (observation set r (Fin d) b now) = false.
Proof.
  intros Hq. pose proof (percentOff_zero_price set r d b now Hq) as Hp.
  split; [exact Hp|]. unfold qualifies. rewrite Hp. reflexivity.
Qed.

(** X10. With draws of the unit interval, the generator returns an
    observation whose discount is a whole number, zero or from 10 to 60,
    and zero for the retailer [lego]; the stock flag is true only for an
    [available] set. The call makes at most five draws, none at all for
    [lego] and a set that is not [available], and writes nothing. *)
Theorem generated_discount_is_zero_or_10_to_60 (env : Env) (st : State)
    (set : LegoSet.t) (retailer : string) :
  unit_draws env st 4 →
  ∃ z inStock st',
    generateSimulatedPrice set retailer env st
    = Some (observation set retailer (of_Z z) inStock
              (clock env (clock_calls st)), st')
    ∧ (z = 0 ∨ 10 ≤ z ≤ 60)%Z
    ∧ (retailer = "lego" → z = 0%Z)
    ∧ (inStock = true → LegoSet.availability set = available)
    ∧ random_calls st ≤ random_calls st' ≤ 5 + random_calls st
    ∧ (retailer = "lego" → LegoSet.availability set ≠ available →
       random_calls st' = random_calls st)
    ∧ db st' = db st.
Proof.
  intros Hdraws.
  destruct (draw_discount_range retailer env st Hdraws)
    as (z & st1 & Hd & Hrange & Hlego & Hother & Hdb & Hlog & Hclk & Hhttp).
  assert (Hrnd : random_calls st ≤ random_calls st1 ≤ 4 + random_calls st).
  { destruct (decide (retailer = "lego")) as [Hl|Hl].
    - destruct (Hlego Hl) as [_ ->]. lia.
    - specialize (Hother Hl). lia. }
  unfold generateSimulatedPrice, bind at 1. rewrite Hd.
  unfold bind, emit, Math_random, Date_now, ret.
  exists z.
  destruct (decide (LegoSet.availability set = available)) as [Hav|Hav];
    cbn -[num_mul num_add num_sub num_div round2 of_Z of_Q num_ltb num_gtb
          getRetailerUrl];
    eexists _, _;
    (split; [unfold observation; rewrite Hclk; reflexivity|]);
    cbn -[of_Z]; rewrite ?Hdb; split_and!; auto; try lia.
  - intros Hl. by destruct (Hlego Hl).
  - intros _ Hne. contradiction.
  - intros Hl. by destruct (Hlego Hl).
  - intros Hl _. by destruct (Hlego Hl).
Qed.


(** ** The price jobs: which sets yield deals, and how much is written *)

Lemma generated_ok_setNumber (g : Generated) :
  generated_ok g →
  PriceData.setNumber (gen_price g) = LegoSet.setNumber (gen_set g)
  ∧ PriceData.retailer (gen_price g) = gen_retailer g
  ∧ (PriceData.inStock (gen_price g) = true →
     LegoSet.availability (gen_set g) = available).
Proof.
  intros (d & b & now & _ & -> & Hav & _). simpl. auto.
Qed.

Lemma turns_run_elem (ts : list (LegoSet.t * string)) (gs : list Generated)
    (refusal : Refusal) (g : Generated) :
  turns_run ts gs refusal → g ∈ gs →
  (gen_set g, gen_retailer g) ∈ ts ∧ generated_ok g
  ∧ accepted (gen_price g).
Proof.
  intros (Hok & Hacc & Hts) Hg. split_and!.
  - assert (Hin : (gen_set g, gen_retailer g)
                  ∈ map (fun g => (gen_set g, gen_retailer g)) gs)
      by (apply list_elem_of_fmap; by exists g).
    destruct refusal as [[g' field]|].
    + destruct Hts as (_ & _ & later & ->). apply elem_of_app. by left.
    + by rewrite <- Hts.
  - by apply (proj1 (Forall_forall _ _) Hok).
  - by apply (proj1 (Forall_forall _ _) Hacc).
Qed.

Lemma turns_run_length (ts : list (LegoSet.t * string))
    (gs : list Generated) (refusal : Refusal) :
  turns_run ts gs refusal →
  length gs ≤ length ts ∧ (refusal = None → length gs = length ts).
Proof.
  intros (_ & _ & Hts). destruct refusal as [[g' field]|].
  - destruct Hts as (_ & _ & later & ->).
    rewrite length_app, length_map. split; [lia | done].
  - rewrite <- Hts, length_map. split; [lia | done].
Qed.

Lemma price_job_run_turn limit sets st st' gs n refusal (g : Generated) :
  price_job_run limit sets st st' gs n refusal → sets ≠ [] → g ∈ gs →
  gen_set g ∈ slice 0 limit sets ∧ gen_retailer g ∈ retailers
  ∧ generated_ok g.
Proof.
  intros (priced & pre & post & _ & _ & Hsets & Hturns & _) Hne Hg.
  destruct (Hsets Hne) as [-> _].
  destruct (turns_run_elem _ _ _ g Hturns Hg) as (Hin & Hok & _).
  apply elem_of_turns in Hin as [? ?]. split_and!; auto.
Qed.

Lemma price_job_run_events limit sets st st' gs n refusal :
  price_job_run limit sets st st' gs n refusal → sets ≠ [] →
  ∃ post,
    events_since st st' = flat_map gen_events gs ++ post
    ∧ forallb (fun ev => negb (is_doc_write ev)) post = true
    ∧ turns_run (turns (slice 0 limit sets)) gs refusal
    ∧ n = length (List.filter (fun g => qualifies (gen_price g)) gs).
Proof.
  intros (priced & pre & post & Hev & Hnw & Hsets & Hturns & _ & Hn) Hne.
  destruct (Hsets Hne) as [-> ->]. exists post. split_and!; auto.
Qed.

Lemma price_job_run_unavailable limit sets st st' gs n refusal
    (sn : string) :
  price_job_run limit sets st st' gs n refusal → sets ≠ [] →
  (∀ s, s ∈ slice 0 limit sets → LegoSet.setNumber s = sn →
        LegoSet.availability s ≠ available) →
  deals_for sn (events_since st st') = [].
Proof.
  intros Hrun Hne Hun.
  destruct (price_job_run_events _ _ _ _ _ _ _ Hrun Hne)
    as (post & -> & Hpost & _ & _).
  rewrite deals_for_app, deals_for_turns, (deals_for_no_doc_write _ post Hpost).
  rewrite app_nil_r.
  rewrite (filter_ext_in _ (fun _ => false)); [by rewrite filter_none|].
  intros g Hg.
  destruct (price_job_run_turn _ _ _ _ _ _ _ g Hrun Hne Hg) as (Hs & _ & Hok).
  destruct (generated_ok_setNumber g Hok) as (Hnum & _ & Hav).
  apply not_true_is_false. intros [Hq Heq]%andb_true_iff.
  apply String.eqb_eq in Heq. unfold qualifies in Hq.
  apply andb_true_iff in Hq as [_ Hstock].
  apply (Hun (gen_set g)); [done | congruence | auto].
Qed.

Lemma price_job_run_priced limit sets st st' gs n (s : LegoSet.t)
    (r : string) :
  price_job_run limit sets st st' gs n None → sets ≠ [] →
  s ∈ slice 0 limit sets → r ∈ retailers →
  ∃ p, EvWrite (price_write p) ∈ events_since st st'
       ∧ PriceData.setNumber p = LegoSet.setNumber s
       ∧ PriceData.retailer p = r
       ∧ PriceData.originalPrice p = LegoSet.price s
       ∧ (LegoSet.availability s ≠ available → PriceData.inStock p = false).
Proof.
  intros Hrun Hne Hs Hr.
  destruct (price_job_run_events _ _ _ _ _ _ _ Hrun Hne)
    as (post & Hev & _ & (_ & _ & Hmap) & _).
  assert (Hin : (s, r) ∈ map (fun g => (gen_set g, gen_retailer g)) gs).
  { rewrite Hmap. apply elem_of_turns. by split. }
  apply list_elem_of_fmap in Hin as (g & Heq & Hg). injection Heq as -> ->.
  destruct (price_job_run_turn _ _ _ _ _ _ _ g Hrun Hne Hg) as (_ & _ & Hok).
  destruct (generated_ok_setNumber g Hok) as (Hnum & Hret & Hav).
  exists (gen_price g). split_and!; auto.
  - rewrite Hev. apply elem_of_app. left.
    apply list_elem_of_In, in_flat_map. exists g.
    split; [by apply list_elem_of_In|]. right. by left.
  - destruct Hok as (d & b & now & _ & -> & _). reflexivity.
  - intros Hna. destruct (PriceData.inStock (gen_price g)); [|done].
    by destruct Hna; apply Hav.
Qed.

(** X11. In a price job over a stored catalog, a set that is not
    [available] (the catalog read also selects the [retiring_soon] ones)
    never yields a deal, whatever discounts are drawn and however the job
    ends; when the sets processed all carry their theme and their pieces,
    the job completes and such a set is priced like any other, with one
    price record for each retailer and the stock flag false. *)
Theorem unavailable_sets_are_priced_without_deals (env : Env) (st : State)
    (sets : list LegoSet.t) :
  getLegoSetsCatalog env st = Some (sets, st) →
  sets ≠ [] →
  ∃ out st',
    updatePrices env st = Some (out, st')
    ∧ (Forall priceable (slice 0 100 sets) → ∃ n, out = Done n)
    ∧ ∀ s, s ∈ slice 0 100 sets →
        LegoSet.availability s ≠ available →
        (Forall priceable (slice 0 100 sets) →
         ∀ r, r ∈ retailers →
           ∃ p, EvWrite (price_write p) ∈ events_since st st'
                ∧ PriceData.setNumber p = LegoSet.setNumber s
                ∧ PriceData.retailer p = r
                ∧ PriceData.inStock p = false)
        ∧ ((∀ s', s' ∈ slice 0 100 sets →
              LegoSet.setNumber s' = LegoSet.setNumber s →
              LegoSet.availability s' ≠ available) →
           deals_for (LegoSet.setNumber s) (events_since st st') = []).
Proof.
  intros Hread Hne.
  destruct (price_job_spec 100 count_deal 0%nat (fun _ n => n)
              env st sets Hread)
    as (priced & gs & refusal & st' & Hrun & Hjob & _ & Hiff).
  rewrite updatePrices_price_job. eexists _, st'. split; [exact Hrun|].
  split.
  - intros Hp. apply Hiff in Hp as ->. by eexists.
  - intros s Hs Hna. split.
    + intros Hp r Hr. apply Hiff in Hp. subst refusal.
      destruct (price_job_run_priced _ _ _ _ _ _ s r Hjob Hne Hs Hr)
        as (p & Hp & Hnum & Hret & _ & Hstock).
      exists p. split_and!; auto.
    + intros Hall. by eapply price_job_run_unavailable.
Qed.

Lemma length_turns (sets : list LegoSet.t) :
  length (turns sets) = 16 * length sets.
Proof.
  unfold turns. induction sets as [|s sets IH]; [done|].
  cbn [flat_map]. rewrite length_app, length_map, IH.
  change (length retailers) with 16. simpl. lia.
Qed.

Lemma length_slice_0 {A} (limit : nat) (xs : list A) :
  length (slice 0 limit xs) = limit `min` length xs.
Proof. unfold slice. rewrite drop_0, Nat.sub_0_r. apply length_take. Qed.

Lemma price_writes_of_turns (gs : list Generated) :
  List.filter is_price_write (flat_map gen_events gs)
  = map (fun g => EvWrite (price_write (gen_price g))) gs.
Proof.
  induction gs as [|g gs IH]; [done|].
  cbn [flat_map map]. rewrite List.filter_app, IH. unfold gen_events.
  destruct (qualifies (gen_price g)); reflexivity.
Qed.

Lemma deal_writes_of_turns (gs : list Generated) :
  List.filter is_deal_write (flat_map gen_events gs)
  = map (fun g => EvWrite (deal_write (gen_price g)))
      (List.filter (fun g => qualifies (gen_price g)) gs).
Proof.
  induction gs as [|g gs IH]; [done|].
  cbn [flat_map List.filter]. rewrite List.filter_app, IH. unfold gen_events.
  destruct (qualifies (gen_price g)); reflexivity.
Qed.

Lemma no_doc_write_filter (P : Event → bool) (evs : list Event) :
  (∀ ev, P ev = true → is_doc_write ev = true) →
  forallb (fun ev => negb (is_doc_write ev)) evs = true →
  List.filter P evs = [].
Proof.
  intros HP Hall. rewrite forallb_forall in Hall.
  rewrite (filter_ext_in P (fun _ => false)); [apply filter_none|].
  intros ev Hev. apply not_true_is_false. intros HPev.
  specialize (Hall ev (proj1 (list_elem_of_In _ _) Hev)).
  rewrite (HP ev HPev) in Hall. discriminate.
Qed.

Lemma is_price_write_doc_write (ev : Event) :
  is_price_write ev = true → is_doc_write ev = true.
Proof. by destruct ev. Qed.

Lemma is_deal_write_doc_write (ev : Event) :
  is_deal_write ev = true → is_doc_write ev = true.
Proof. by destruct ev. Qed.

Lemma filter_length_le {X} (P : X → bool) (xs : list X) :
  length (List.filter P xs) ≤ length xs.
Proof. induction xs as [|x xs IH]; simpl; [lia|]. destruct (P x); simpl; lia. Qed.

Lemma price_job_run_volume limit sets st st' gs n refusal :
  price_job_run limit sets st st' gs n refusal → sets ≠ [] →
  length (List.filter is_price_write (events_since st st')) = length gs
  ∧ length (List.filter is_deal_write (events_since st st')) = n
  ∧ n ≤ length gs
  ∧ length gs ≤ 16 * (limit `min` length sets)
  ∧ (refusal = None → length gs = 16 * (limit `min` length sets)).
Proof.
  intros Hrun Hne.
  destruct (price_job_run_events _ _ _ _ _ _ _ Hrun Hne)
    as (post & -> & Hpost & Hturns & ->).
  apply turns_run_length in Hturns as [Hle Heq].
  rewrite length_turns, length_slice_0 in Hle, Heq.
  rewrite !List.filter_app.
  rewrite (no_doc_write_filter _ post is_price_write_doc_write Hpost).
  rewrite (no_doc_write_filter _ post is_deal_write_doc_write Hpost).
  rewrite !app_nil_r, price_writes_of_turns, deal_writes_of_turns.
  rewrite !length_map. split_and!; [done | done | | done | done].
  apply filter_length_le.
Qed.

(** X12. A price job over a stored catalog writes at most one price record
    for each of the 16 retailers and each set it processes, the first 100
    sets read for the scheduled job and the first 50 for the one on demand,
    and never more deal records than price records. When the sets
    processed all carry their theme and their pieces, the job completes,
    the price records written are exactly that many and the deal records
    written are as many as the deals it reports. *)
Theorem price_job_write_volume (env : Env) (st : State)
    (sets : list LegoSet.t) :
  getLegoSetsCatalog env st = Some (sets, st) →
  sets ≠ [] →
  (∃ out st',
     updatePrices env st = Some (out, st')
     ∧ length (List.filter is_price_write (events_since st st'))
       ≤ 16 * (100 `min` length sets)
     ∧ length (List.filter is_deal_write (events_since st st'))
       ≤ length (List.filter is_price_write (events_since st st'))
     ∧ (Forall priceable (slice 0 100 sets) →
        ∃ n,
          out = Done n
          ∧ length (List.filter is_price_write (events_since st st'))
            = 16 * (100 `min` length sets)
          ∧ length (List.filter is_deal_write (events_since st st')) = n))
  ∧ (∃ answer st',
       manualPriceUpdate env st = Some (answer, st')
       ∧ length (List.filter is_price_write (events_since st st'))
         ≤ 16 * (50 `min` length sets)
       ∧ length (List.filter is_deal_write (events_since st st'))
         ≤ length (List.filter is_price_write (events_since st st'))
       ∧ (Forall priceable (slice 0 50 sets) →
          ∃ res,
            answer = PriceUpdated res
            ∧ length (List.filter is_price_write (events_since st st'))
              = 16 * (50 `min` length sets)
            ∧ length (List.filter is_deal_write (events_since st st'))
              = dealsFound res)).
Proof.
  intros Hread Hne. split.
  - destruct (price_job_spec 100 count_deal 0%nat (fun _ n => n)
                env st sets Hread)
      as (priced & gs & refusal & st' & Hrun & Hjob & _ & Hiff).
    destruct (price_job_run_volume 100 sets st st' gs _ refusal Hjob Hne)
      as (Hprices & Hdeals & Hle & Hmax & Hall).
    rewrite updatePrices_price_job. eexists _, st'. split; [exact Hrun|].
    rewrite Hprices, Hdeals. split_and!; [done | done |].
    intros Hp. apply Hiff in Hp. subst refusal.
    eexists. split; [reflexivity|]. split; [by apply Hall|].
    rewrite count_deal_collect. reflexivity.
  - destruct (price_job_spec 50 count_and_sample (0%nat, [])
                (fun sets found => {| catalogSize := length sets;
                                      dealsFound := fst found;
                                      sampleDeals := snd found |})
                env st sets Hread)
      as (priced & gs & refusal & st' & Hrun & Hjob & _ & Hiff).
    destruct (price_job_run_volume 50 sets st st' gs _ refusal Hjob Hne)
      as (Hprices & Hdeals & Hle & Hmax & Hall).
    rewrite manualPriceUpdate_price_job, Hrun. eexists _, st'.
    split; [reflexivity|].
    rewrite Hprices, Hdeals. split_and!; [done | done |].
    intros Hp. apply Hiff in Hp. subst refusal.
    eexists. split; [reflexivity|]. split; [by apply Hall|].
    cbn [dealsFound]. rewrite count_and_sample_collect. reflexivity.
Qed.
Lemma count_and_sample_sample (gs : list Generated) :
  ∀ found,
    snd (collect count_and_sample gs found)
    = take (5 `max` length (snd found)) (snd found ++ deals_of gs).
Proof.
  unfold deals_of.
  induction gs as [|g gs IH]; intros [n l]; cbn [snd].
  - cbn [collect fold_left List.filter map snd]. rewrite app_nil_r.
    rewrite take_ge; [done | lia].
  - unfold collect in *. cbn [fold_left List.filter].
    destruct (qualifies (gen_price g)); [|apply (IH (n, l))].
    rewrite IH. unfold count_and_sample. cbn [fst snd map].
    destruct (Nat.ltb_spec (length l) 5) as [Hlt|Hge].
    + rewrite length_app. cbn [length].
      replace (5 `max` (length l + 1)) with 5 by lia.
      replace (5 `max` length l) with 5 by lia.
      by rewrite <- app_assoc.
    + replace (5 `max` length l) with (length l) by lia.
      by rewrite !take_app_length.
Qed.

Lemma refused_field (g : Generated) (field : string) :
  generated_ok g →
  undefined_property (PriceData_data (gen_price g)) = Some field →
  field = "theme" ∨ field = "pieces".
Proof.
  intros (d & b & now & _ & -> & _).
  unfold PriceData_data, observation.
  cbn [PriceData.imageUrl PriceData.theme PriceData.pieces].
  destruct (LegoSet.theme (gen_set g)), (LegoSet.pieces (gen_set g)); cbn;
    intros [= <-]; auto.
Qed.

(** X13. The answer of the price job on demand. When the sets processed,
    the first 50 of the catalog read, all carry their theme and their
    pieces, it is the success answer: [dealsFound] counts all the deals
    found, [sampleDeals] holds the first five of them in the order they
    were found, and, over a stored catalog, [catalogSize] is the size of
    the whole catalog read, not the number of sets processed. Otherwise it
    is the answer of status 500 that carries the exception of the store,
    raised for the theme or for the pieces. *)
Theorem manual_answer_samples_first_five_deals (env : Env) (st : State)
    (sets : list LegoSet.t) :
  getLegoSetsCatalog env st = Some (sets, st) →
  ∃ gs refusal st',
    price_job_run 50 sets st st' gs (length (deals_of gs)) refusal
    ∧ (refusal = None ↔ Forall priceable (slice 0 50 sets))
    ∧ match refusal with
      | None =>
          ∃ res,
            manualPriceUpdate env st = Some (PriceUpdated res, st')
            ∧ dealsFound res = length (deals_of gs)
            ∧ sampleDeals res = take 5 (deals_of gs)
            ∧ (sets ≠ [] → catalogSize res = length sets)
      | Some (_, field) =>
          manualPriceUpdate env st
            = Some (PriceUpdateFailed 500 (UndefinedValue field), st')
          ∧ (field = "theme" ∨ field = "pieces")
      end.
Proof.
  intros Hread. rewrite manualPriceUpdate_price_job.
  destruct (price_job_spec 50 count_and_sample (0%nat, [])
              (fun sets found => {| catalogSize := length sets;
                                    dealsFound := fst found;
                                    sampleDeals := snd found |})
              env st sets Hread)
    as (priced & gs & refusal & st' & Hrun & Hjob & Hpriced & Hiff).
  exists gs, refusal, st'. rewrite Hrun.
  split; [unfold deals_of; by rewrite length_map|].
  split; [exact Hiff|].
  destruct refusal as [[g field]|].
  - split; [reflexivity|].
    destruct Hjob as (? & ? & ? & _ & _ & _ & (_ & _ & Hg & Hfield & _) & _).
    by apply (refused_field g).
  - eexists. split; [reflexivity|].
    cbn [dealsFound sampleDeals catalogSize].
    rewrite count_and_sample_collect, count_and_sample_sample.
    cbn [fst snd Nat.add length app]. unfold deals_of. rewrite length_map.
    split_and!; [done | done |].
    intros Hne. by rewrite (Hpriced Hne).
Qed.
Lemma append_cons (c : ascii) (s t : string) :
  String c s +:+ t = String c (s +:+ t).
Proof. reflexivity. Qed.

Lemma append_nil_l (t : string) : "" +:+ t = t.
Proof. reflexivity. Qed.

Lemma append_nil_r (s : string) : s +:+ "" = s.
Proof.
  induction s as [|c s IH]; [done|]. rewrite append_cons. f_equal. exact IH.
Qed.

Lemma append_eq_append (a b c d : string) :
  a +:+ b = c +:+ d →
  ∃ e, (a = c +:+ e ∧ d = e +:+ b) ∨ (c = a +:+ e ∧ b = e +:+ d).
Proof.
  revert c. induction a as [|x a IH]; intros c H.
  - exists c. right. rewrite append_nil_l in *. by split.
  - destruct c as [|y c].
    + exists (String x a). left. rewrite append_nil_l in *. by split.
    + rewrite !append_cons in H. injection H as -> H.
      destruct (IH c H) as [e [[-> ->]|[-> ->]]]; exists e; [left|right];
        by split.
Qed.

Lemma ends_with_append (e x : string) : ends_with x (e +:+ x) = true.
Proof.
  induction e as [|c e IH].
  - rewrite append_nil_l.
    destruct x; simpl; rewrite ?String.eqb_refl, ?Ascii.eqb_refl; reflexivity.
  - rewrite append_cons. cbn [ends_with]. rewrite IH. apply orb_true_r.
Qed.

Lemma docId_eq_inv (s1 s2 r1 r2 : string) :
  docId s1 r1 = docId s2 r2 →
  (s1 = s2 ∧ r1 = r2)
  ∨ ends_with ("_" +:+ r1) r2 = true
  ∨ ends_with ("_" +:+ r2) r1 = true.
Proof.
  unfold docId. intros H.
  destruct (append_eq_append _ _ _ _ H) as [e [[-> He]|[-> He]]].
  - destruct e as [|c e].
    + left. assert (r2 = r1) as -> by (by injection He).
      by rewrite append_nil_r.
    + right. left.
      assert (r2 = e +:+ "_" +:+ r1) as -> by (by injection He).
      apply ends_with_append.
  - destruct e as [|c e].
    + left. assert (r1 = r2) as -> by (by injection He).
      by rewrite append_nil_r.
    + right. right.
      assert (r1 = e +:+ "_" +:+ r2) as -> by (by injection He).
      apply ends_with_append.
Qed.

Lemma retailers_no_suffix :
  forallb (fun r1 =>
    forallb (fun r2 => negb (ends_with ("_" +:+ r1) r2)) retailers)
    retailers = true.
Proof. vm_compute. reflexivity. Qed.

Lemma retailers_ends_with (r1 r2 : string) :
  r1 ∈ retailers → r2 ∈ retailers → ends_with ("_" +:+ r1) r2 = false.
Proof.
  intros H1 H2. pose proof retailers_no_suffix as H.
  rewrite forallb_forall in H.
  specialize (H r1 (proj1 (list_elem_of_In _ _) H1)).
  rewrite forallb_forall in H.
  specialize (H r2 (proj1 (list_elem_of_In _ _) H2)).
  by apply negb_true_iff in H.
Qed.

Lemma docId_inj (s1 s2 r1 r2 : string) :
  r1 ∈ retailers → r2 ∈ retailers →
  docId s1 r1 = docId s2 r2 → s1 = s2 ∧ r1 = r2.
Proof.
  intros H1 H2 Heq.
  destruct (docId_eq_inv _ _ _ _ Heq) as [?|[H|H]]; [done| |].
  - by rewrite (retailers_ends_with r1 r2) in H.
  - by rewrite (retailers_ends_with r2 r1) in H.
Qed.

(** X14. The document ids of the price jobs do not collide: although a
    set number and several retailer names contain the separator, two
    turns with a retailer of the list of the jobs have the same document
    id only if they have the same set number and the same retailer. A
    document id is never empty. *)
Theorem document_ids_do_not_collide (s1 s2 r1 r2 : string) :
  r1 ∈ retailers → r2 ∈ retailers →
  (docId s1 r1 = docId s2 r2 ↔ s1 = s2 ∧ r1 = r2)
  ∧ docId s1 r1 ≠ "".
Proof.
  intros H1 H2. split.
  - split; [by apply docId_inj | by intros [-> ->]].
  - unfold docId. destruct s1; discriminate.
Qed.

Lemma NoDup_retailers : NoDup retailers.
Proof. apply (bool_decide_unpack _). vm_compute. exact I. Qed.

Lemma turn_keys_NoDup (sets : list LegoSet.t) :
  NoDup (map LegoSet.setNumber sets) →
  NoDup (map (fun t : LegoSet.t * string => docId (LegoSet.setNumber t.1) t.2)
           (turns sets)).
Proof.
  unfold turns. induction sets as [|s sets IH]; intros Hnd; [constructor|].
  cbn [map] in Hnd. apply NoDup_cons in Hnd as [Hnotin Hnd].
  cbn [flat_map]. rewrite map_app. apply NoDup_app. split_and!.
  - rewrite map_map. cbn [fst snd].
    apply (NoDup_fmap_2_strong (fun r => docId (LegoSet.setNumber s) r));
      [|apply NoDup_retailers].
    intros r1 r2 H1 H2 Heq. by destruct (docId_inj _ _ _ _ H1 H2 Heq).
  - intros k Hk1 Hk2.
    apply list_elem_of_fmap in Hk1 as ([s1 r1] & -> & Hin1).
    apply list_elem_of_fmap in Hin1 as (r & [= <- <-] & Hr).
    apply list_elem_of_fmap in Hk2 as ([s2 r2] & Heq & Hin2).
    apply elem_of_turns in Hin2 as [Hs2 Hr2]. cbn [fst snd] in Heq.
    destruct (docId_inj _ _ _ _ Hr Hr2 Heq) as [Hnum _].
    apply Hnotin. rewrite Hnum. apply list_elem_of_fmap. by exists s2.
  - by apply IH.
Qed.

(** ** The store a price job leaves *)

Lemma doc_after_app (c k : string) (ops1 ops2 : list WriteOp)
    (stored : option Doc) :
  doc_after c k (ops1 ++ ops2) stored
  = doc_after c k ops2 (doc_after c k ops1 stored).
Proof. apply fold_left_app. Qed.

Local Ltac settle_decides :=
  repeat case_decide; try done;
  try (destruct_and?; discriminate);
  try (destruct_and?; congruence);
  try (exfalso;
       match goal with H : ¬ (_ ∧ _) |- _ => apply H; by split end).

Lemma doc_after_turn_prices (g : Generated) (k : string)
    (stored : option Doc) :
  doc_after "prices" k (turn_ops g) stored
  = if decide (turn_key g = k)
    then Some (set_merge (PriceData_doc (gen_price g)) stored)
    else stored.
Proof.
  unfold turn_ops, price_write, deal_write, turn_key.
  destruct (qualifies (gen_price g)); cbn [doc_after fold_left app];
    settle_decides.
Qed.

Lemma doc_after_turn_deals (g : Generated) (k : string)
    (stored : option Doc) :
  doc_after "deals" k (turn_ops g) stored
  = if decide (turn_key g = k)
    then (if qualifies (gen_price g)
          then Some (set_merge
                       (DealData_doc
                          (make_deal (gen_price g) (percentOff (gen_price g))))
                       stored)
          else stored)
    else stored.
Proof.
  unfold turn_ops, price_write, deal_write, turn_key.
  destruct (qualifies (gen_price g)); cbn [doc_after fold_left app];
    settle_decides.
Qed.

Lemma doc_after_turn_other (g : Generated) (c k : string)
    (stored : option Doc) :
  c ≠ "prices" → c ≠ "deals" →
  doc_after c k (turn_ops g) stored = stored.
Proof.
  intros H1 H2. unfold turn_ops, price_write, deal_write.
  destruct (qualifies (gen_price g)); cbn [doc_after fold_left app];
    settle_decides.
Qed.

Lemma doc_after_turns_other (gs : list Generated) (c k : string) :
  ∀ stored,
    c ≠ "prices" → c ≠ "deals" →
    doc_after c k (flat_map turn_ops gs) stored = stored.
Proof.
  induction gs as [|g gs IH]; intros stored H1 H2; [done|].
  cbn [flat_map]. rewrite doc_after_app, (doc_after_turn_other g) by done.
  by apply IH.
Qed.

Lemma doc_after_turns_untouched (gs : list Generated) (c k : string) :
  ∀ stored,
    (∀ g, g ∈ gs → turn_key g ≠ k) →
    doc_after c k (flat_map turn_ops gs) stored = stored.
Proof.
  induction gs as [|g gs IH]; intros stored Hk; [done|].
  cbn [flat_map]. rewrite doc_after_app.
  assert (Hg : turn_key g ≠ k) by (apply Hk; by left).
  assert (doc_after c k (turn_ops g) stored = stored) as ->.
  { unfold turn_ops, price_write, deal_write. fold (turn_key g).
    destruct (qualifies (gen_price g)); cbn [doc_after fold_left app];
      settle_decides. }
  apply IH. intros g' Hg'. apply Hk. by right.
Qed.

Lemma doc_after_turns_at (gs : list Generated) (c : string) (g : Generated)
    (stored : option Doc) :
  NoDup (map turn_key gs) → g ∈ gs →
  doc_after c (turn_key g) (flat_map turn_ops gs) stored
  = doc_after c (turn_key g) (turn_ops g) stored.
Proof.
  intros Hnd Hg. apply list_elem_of_split in Hg as (gs1 & gs2 & ->).
  rewrite map_app in Hnd. cbn [map] in Hnd.
  apply NoDup_app in Hnd as (_ & Hdisj & Hnd2).
  apply NoDup_cons in Hnd2 as [Hnotin _].
  rewrite flat_map_app. cbn [flat_map]. rewrite !doc_after_app.
  rewrite (doc_after_turns_untouched gs1).
  - apply doc_after_turns_untouched. intros g' Hg' Heq.
    apply Hnotin. rewrite <- Heq. apply list_elem_of_fmap. by exists g'.
  - intros g' Hg' Heq. apply (Hdisj (turn_key g)).
    + rewrite <- Heq. apply list_elem_of_fmap. by exists g'.
    + by left.
Qed.

Lemma sweep_lookup (d : Firestore) (now : Timestamp) (k : string) :
  collection
    (apply_ops d (delete_ops (expired now (collection d "deals")))) "deals"
    !! k
  = swept (now - retention)%Z (collection d "deals" !! k).
Proof.
  rewrite delete_ops_deals. unfold swept, expired.
  destruct (collection d "deals" !! k) as [doc|] eqn:Hk.
  - case_decide as Hin.
    + apply elem_of_query in Hin as (d' & Hk' & Hold).
      assert (d' = doc) as -> by congruence. by rewrite Hold.
    + destruct (older_than (now - retention)%Z doc) eqn:Hold; [|done].
      exfalso. apply Hin. apply elem_of_query. eauto.
  - by case_decide.
Qed.

Lemma turn_keys_of_run (gs : list Generated) (sets : list LegoSet.t) :
  Forall generated_ok gs →
  map (fun g => (gen_set g, gen_retailer g)) gs = turns sets →
  map turn_key gs
  = map (fun t : LegoSet.t * string => docId (LegoSet.setNumber t.1) t.2)
      (turns sets).
Proof.
  intros Hok <-. rewrite map_map. apply map_ext_in. intros g Hg.
  rewrite Forall_forall in Hok.
  destruct (generated_ok_setNumber g (Hok g (proj2 (list_elem_of_In _ _) Hg)))
    as (Hnum & Hret & _).
  unfold turn_key. cbn [fst snd]. by rewrite Hnum, Hret.
Qed.

Lemma price_job_stores {T R} (limit : nat) (upd : DealData.t → T → T)
    (acc0 : T) (answer : list LegoSet.t → T → R)
    env (st : State) (sets : list LegoSet.t) :
  getLegoSetsCatalog env st = Some (sets, st) →
  sets ≠ [] →
  NoDup (map LegoSet.setNumber (slice 0 limit sets)) →
  Forall priceable (slice 0 limit sets) →
  ∃ gs st',
    price_job limit upd acc0 answer env st
      = Some (Done (answer sets (collect upd gs acc0)), st')
    ∧ price_job_run limit sets st st' gs
        (length (List.filter (fun g => qualifies (gen_price g)) gs)) None
    ∧ map (fun g => (gen_set g, gen_retailer g)) gs
      = turns (slice 0 limit sets)
    ∧ Forall generated_ok gs
    ∧ stores_observations env st st' gs.
Proof.
  intros Hread Hne Hnd Hp.
  destruct (price_job_steps limit upd acc0 answer env st sets Hread)
    as (priced & pre & st1 & gs & refusal & st2 & st' & Hlog1 & Hpre & Hsets
        & _ & Hlog2 & Hturns & Hdb2 & Hhttp2 & Hclk2 & Hstamps & Hend & Hrun).
  destruct (Hsets Hne) as (-> & -> & ->).
  assert (refusal = None) as ->
    by (by apply (turns_run_refusal _ gs refusal Hturns)).
  destruct Hend as (chunks & Hlog3 & Hdb3 & Hhttp3).
  cbn [outcome_of end_events] in *. unfold readings in Hclk2.
  rewrite app_nil_r in Hlog2. rewrite Nat.add_0_r in Hclk2.
  pose proof Hturns as (Hok & _ & Hmap).
  exists gs, st'. split_and!; auto.
  { exists sets, [], (map EvCommit (map delete_ops chunks)).
    split_and!; auto.
    - unfold events_since. rewrite Hlog3, Hlog2.
      rewrite <- !app_assoc. by rewrite drop_app_length.
    - simpl. apply commits_no_doc_write.
    - done. }
  assert (Hkeys : NoDup (map turn_key gs)).
  { rewrite (turn_keys_of_run gs _ Hok Hmap). by apply turn_keys_NoDup. }
  assert (Hdeals : ∀ k, collection (db st') "deals" !! k
            = swept (clock env (clock_calls st + length gs) - retention)%Z
                (doc_after "deals" k (flat_map turn_ops gs)
                   (collection (db st) "deals" !! k))).
  { intros k. rewrite Hdb3, sweep_lookup, Hclk2, Hdb2.
    by rewrite apply_ops_lookup. }
  assert (Hprices : ∀ k, collection (db st') "prices" !! k
            = doc_after "prices" k (flat_map turn_ops gs)
                (collection (db st) "prices" !! k)).
  { intros k. rewrite Hdb3, delete_ops_other by done.
    by rewrite Hdb2, apply_ops_lookup. }
  unfold stores_observations. cbv zeta. split_and!.
  - congruence.
  - intros c Hc1 Hc2. rewrite Hdb3, delete_ops_other by done.
    apply map_eq. intros k. rewrite Hdb2, apply_ops_lookup.
    by apply doc_after_turns_other.
  - intros k Hk. split.
    + rewrite Hprices. by apply doc_after_turns_untouched.
    + rewrite Hdeals. by rewrite doc_after_turns_untouched.
  - intros g Hg. split.
    + rewrite Hprices, (doc_after_turns_at gs "prices" g _ Hkeys Hg).
      rewrite doc_after_turn_prices. by rewrite decide_True.
    + rewrite Hdeals, (doc_after_turns_at gs "deals" g _ Hkeys Hg).
      rewrite doc_after_turn_deals. by rewrite decide_True.
  - exact Hstamps.
Qed.

Lemma slice_0_le {A} (n m : nat) (xs : list A) :
  n ≤ m → slice 0 n xs = take n (slice 0 m xs).
Proof.
  intros Hle. unfold slice. rewrite !drop_0, !Nat.sub_0_r, take_take.
  f_equal. lia.
Qed.

(** X15. The store a price job leaves over a stored catalog whose sets
    processed have distinct set numbers and all carry their theme and
    their pieces: the job completes, issues no request and changes nothing
    but prices and deals; for each turn the price record of its
    observation is merged over the stored one under the document id of the
    turn, and the deal record likewise when the observation qualifies;
    every other price is kept as it was, none is ever deleted; the sweep
    then removes the deals older than 24 hours at its clock reading, those
    of earlier runs included, and keeps the deals of a turn that no longer
    qualifies until they are that old. *)
Theorem price_job_stores_the_observations (env : Env) (st : State)
    (sets : list LegoSet.t) :
  getLegoSetsCatalog env st = Some (sets, st) →
  sets ≠ [] →
  NoDup (map LegoSet.setNumber (slice 0 100 sets)) →
  Forall priceable (slice 0 100 sets) →
  (∃ gs n st',
     updatePrices env st = Some (Done n, st')
     ∧ map (fun g => (gen_set g, gen_retailer g)) gs
       = turns (slice 0 100 sets)
     ∧ Forall generated_ok gs
     ∧ stores_observations env st st' gs)
  ∧ (∃ gs res st',
       manualPriceUpdate env st = Some (PriceUpdated res, st')
       ∧ map (fun g => (gen_set g, gen_retailer g)) gs
         = turns (slice 0 50 sets)
       ∧ Forall generated_ok gs
       ∧ stores_observations env st st' gs).
Proof.
  intros Hread Hne Hnd Hp. split.
  - destruct (price_job_stores 100 count_deal 0%nat (fun _ n => n)
                env st sets Hread Hne Hnd Hp) as (gs & st' & Hrun & _ & H).
    rewrite updatePrices_price_job. by eexists gs, _, st'.
  - assert (H50 : slice 0 50 sets = take 50 (slice 0 100 sets))
      by (apply slice_0_le; lia).
    assert (Hnd50 : NoDup (map LegoSet.setNumber (slice 0 50 sets))).
    { rewrite H50.
      change (NoDup (LegoSet.setNumber <$> take 50 (slice 0 100 sets))).
      rewrite fmap_take. eapply sublist_NoDup; [exact Hnd|].
      apply sublist_take. }
    assert (Hp50 : Forall priceable (slice 0 50 sets))
      by (rewrite H50; by apply Forall_take).
    destruct (price_job_stores 50 count_and_sample (0%nat, [])
                (fun sets found => {| catalogSize := length sets;
                                      dealsFound := fst found;
                                      sampleDeals := snd found |})
                env st sets Hread Hne Hnd50 Hp50)
      as (gs & st' & Hrun & _ & H).
    rewrite manualPriceUpdate_price_job, Hrun. by eexists gs, _, st'.
Qed.

Lemma PriceData_doc_lastUpdated (p : PriceData.t) :
  PriceData_doc p !! "lastUpdated"
  = Some (VTimestamp (PriceData.lastUpdated p)).
Proof.
  unfold PriceData_doc, PriceData_data.
  destruct (PriceData.imageUrl p), (PriceData.theme p), (PriceData.pieces p);
    reflexivity.
Qed.

Lemma DealData_doc_lastUpdated (d : DealData.t) :
  DealData_doc d !! "lastUpdated"
  = Some (VTimestamp (PriceData.lastUpdated (DealData.base d))).
Proof.
  rewrite DealData_doc_unfold, !lookup_insert_ne by done.
  apply PriceData_doc_lastUpdated.
Qed.

Lemma DealData_doc_percentOff (d : DealData.t) :
  DealData_doc d !! "percentOff" = Some (VNumber (DealData.percentOff d)).
Proof.
  rewrite DealData_doc_unfold, lookup_insert_ne by done.
  by rewrite lookup_insert_eq.
Qed.

(** X16. The deals found in a run are in the store when the run ends,
    provided no clock reading of the run is more than 24 hours before the
    reading of its sweep: over a stored catalog whose sets processed have
    distinct set numbers and all carry their theme and their pieces, the
    scheduled job completes and each observation that qualifies has its
    deal record stored under the document id of its turn, with its
    percent-off and the time it was stamped with. *)
Theorem deals_found_survive_the_sweep (env : Env) (st : State)
    (sets : list LegoSet.t) :
  getLegoSetsCatalog env st = Some (sets, st) →
  sets ≠ [] →
  NoDup (map LegoSet.setNumber (slice 0 100 sets)) →
  Forall priceable (slice 0 100 sets) →
  (∀ i, clock_calls st ≤ i < clock_calls st + 16 * (100 `min` length sets) →
        (clock env (clock_calls st + 16 * (100 `min` length sets)) - retention
         ≤ clock env i)%Z) →
  ∃ gs n st',
    updatePrices env st = Some (Done n, st')
    ∧ price_job_run 100 sets st st' gs n None
    ∧ ∀ g, g ∈ gs → qualifies (gen_price g) = true →
        ∃ doc,
          collection (db st') "deals" !! turn_key g = Some doc
          ∧ doc !! "percentOff" = Some (VNumber (percentOff (gen_price g)))
          ∧ doc !! "lastUpdated"
            = Some (VTimestamp (PriceData.lastUpdated (gen_price g))).
Proof.
  intros Hread Hne Hnd Hp Hclock.
  destruct (price_job_stores 100 count_deal 0%nat (fun _ n => n)
              env st sets Hread Hne Hnd Hp)
    as (gs & st' & Hrun & Hjob & Hmap & Hok & Hstore).
  rewrite updatePrices_price_job.
  assert (Hlen : length gs = 16 * (100 `min` length sets)).
  { rewrite <- (length_map (fun g => (gen_set g, gen_retailer g)) gs), Hmap.
    by rewrite length_turns, length_slice_0. }
  exists gs, (collect count_deal gs 0), st'. split; [exact Hrun|].
  split; [by rewrite count_deal_collect|].
  destruct Hstore as (_ & _ & _ & Hturn & Hstamps).
  intros g Hg Hq. destruct (Hturn g Hg) as [_ Hdeal].
  cbv zeta in Hdeal. rewrite Hq in Hdeal.
  rewrite Forall_forall in Hstamps.
  destruct (Hstamps g Hg) as (i & Hi & Hstamp).
  set (deal := make_deal (gen_price g) (percentOff (gen_price g))) in *.
  set (stored := collection (db st) "deals" !! turn_key g) in *.
  assert (Hlast : set_merge (DealData_doc deal) stored !! "lastUpdated"
            = Some (VTimestamp (PriceData.lastUpdated (gen_price g)))).
  { rewrite (set_merge_merged_over _ stored "lastUpdated").
    by rewrite DealData_doc_lastUpdated. }
  exists (set_merge (DealData_doc deal) stored). split_and!.
  - rewrite Hdeal. unfold swept, older_than. rewrite Hlast, Hstamp.
    rewrite Hlen in *.
    destruct (Z.ltb_spec (clock env i)
                (clock env (clock_calls st + 16 * (100 `min` length sets))
                 - retention)) as [Hlt|]; [|done].
    specialize (Hclock i Hi). lia.
  - rewrite (set_merge_merged_over _ stored "percentOff").
    by rewrite DealData_doc_percentOff.
  - exact Hlast.
Qed.

(** ** Retailer addresses *)

Lemma replace_trailing_suffix (n : string) :
  includes "-1" n = false → replace "-1" "" (n +:+ "-1") = n.
Proof.
  induction n as [|c n IH]; intros H; [reflexivity|].
  cbn [includes] in H.
  destruct (String.prefix "-1" (String c n)) eqn:Hp; [discriminate|].
  rewrite append_cons. cbn [replace].
  assert (Hp' : String.prefix "-1" (String c (n +:+ "-1")) = false).
  { cbn [String.prefix] in *.
    destruct (ascii_dec "-" c) as [<-|]; [|done].
    destruct n as [|d n]; [reflexivity|].
    rewrite append_cons. cbn [String.prefix] in *.
    destruct (ascii_dec "1" d); [|reflexivity].
    destruct n; discriminate. }
  rewrite Hp'. f_equal. by apply IH.
Qed.

(** X17. The address of a retailer: [getRetailerUrl] gives the empty
    string exactly for a retailer that is not one of the 16 of the price
    jobs, and for each of these an address on [https://www.] that ends
    with the set number without its first [-1]: for a set number that
    ends with its only [-1], without that suffix. For [lego] it is the
    address the fetcher gives the catalog item. *)
Theorem retailer_url_empty_iff_unlisted (retailer setNumber : string) :
  (getRetailerUrl retailer setNumber = "" ↔ retailer ∉ retailers)
  ∧ (retailer ∈ retailers →
     ∃ base,
       getRetailerUrl retailer setNumber
       = base +:+ replace "-1" "" setNumber
       ∧ String.prefix "https://www." base = true)
  ∧ (∀ n, includes "-1" n = false →
       getRetailerUrl "lego" (n +:+ "-1")
       = "https://www.lego.com/en-us/product/" +:+ n)
  ∧ (∀ set s, normalised_from set s →
       LegoSet.url s = getRetailerUrl "lego" (LegoSet.setNumber s)).
Proof.
  split_and!.
  - unfold getRetailerUrl.
    repeat case_decide; subst;
      try (split; [discriminate|];
           intros Hout; exfalso; apply Hout;
           apply list_elem_of_In; simpl; tauto).
    split; [|done]. intros _ Hin. unfold retailers in Hin.
    repeat (apply elem_of_cons in Hin as [Hin|Hin]; [done|]).
    by apply elem_of_nil in Hin.
  - intros Hin. unfold retailers in Hin. unfold getRetailerUrl.
    repeat (apply elem_of_cons in Hin as [->|Hin];
            [eexists; split; [reflexivity|reflexivity]|]).
    by apply elem_of_nil in Hin.
  - intros n Hn. unfold getRetailerUrl. rewrite decide_True by done.
    by rewrite replace_trailing_suffix.
  - intros set s Hs.
    destruct (normalised_from_passes set s Hs)
      as (_ & Hnum & _ & _ & Hurl & _).
    rewrite Hurl, Hnum. unfold getRetailerUrl. by rewrite decide_True.
Qed.

(** ** The catalog update on demand *)


















(** ** The health check *)

Lemma doc_after_save_ops_collection env (c k : string)
    (sets : list LegoSet.t) :
  c ≠ "lego_catalog" →
  ∀ n stored, doc_after c k (save_ops env n sets) stored = stored.
Proof.
  intros Hc. induction sets as [|s sets IH]; intros n stored; [done|].
  rewrite save_ops_cons, doc_after_cons. simpl.
  rewrite decide_False by (intros [? _]; congruence). apply IH.
Qed.

Lemma saved_catalog_size env (st st1 : State) (sets : list LegoSet.t) :
  collection (db st) "lego_catalog" = ∅ →
  NoDup (map LegoSet.setNumber sets) →
  db st1 = apply_ops (db st) (save_ops env (clock_calls st) sets) →
  size (collection (db st1) "lego_catalog") = length sets.
Proof.
  intros Hempty Hnd Hdb.
  pose proof (saved_catalog_holds env st st1 sets Hempty Hnd Hdb) as Hholds.
  pose proof (saved_catalog_only env st st1 sets Hempty Hnd Hdb) as Honly.
  set (coll := collection (db st1) "lego_catalog") in *.
  rewrite <- (length_map LegoSet.setNumber sets).
  rewrite <- length_map_to_list, <- (length_fmap fst).
  apply Permutation_length, NoDup_Permutation;
    [apply NoDup_fst_map_to_list | done |].
  intros k. split.
  - intros ([k' d] & -> & Hin)%list_elem_of_fmap.
    apply elem_of_map_to_list in Hin.
    destruct (Honly k' d Hin) as (s & Hs & <- & _).
    apply list_elem_of_fmap. by exists s.
  - intros (s & -> & Hs)%list_elem_of_fmap.
    destruct (Hholds s Hs) as (d & Hk & _).
    apply list_elem_of_fmap. exists (LegoSet.setNumber s, d).
    split; [done|]. by apply elem_of_map_to_list.
Qed.

(** X19. The health check after a catalog save: into an empty catalog,
    once items with distinct set numbers have been saved, [healthCheck]
    reports their number as the size of the catalog and the number of
    deals there was before the save; it reads the clock once and changes
    nothing in the store. *)
Theorem health_check_counts_the_saved_catalog (env : Env) (st : State)
    (sets : list LegoSet.t) :
  collection (db st) "lego_catalog" = ∅ →
  NoDup (map LegoSet.setNumber sets) →
  ∃ st1 res st2,
    saveLegoSetsCatalog sets env st = Some (tt, st1)
    ∧ healthCheck env st1 = Some (res, st2)
    ∧ catalog_size res = length sets
    ∧ deals_count res = size (collection (db st) "deals")
    ∧ health_timestamp res = clock env (clock_calls st1)
    ∧ db st2 = db st1
    ∧ events_since st1 st2 = [].
Proof.
  intros Hempty Hnd.
  destruct (saveLegoSetsCatalog_spec env sets st)
    as (st1 & batches & Hrun & _ & _ & _ & _ & _ & Hdb & _).
  exists st1. eexists _, _. split; [exact Hrun|].
  split; [reflexivity|]. cbn. split_and!; auto.
  - by apply (saved_catalog_size env st st1 sets).
  - f_equal. apply map_eq. intros k. rewrite Hdb, apply_ops_lookup.
    by apply doc_after_save_ops_collection.
  - unfold events_since. by rewrite drop_all.
Qed.

(** ** The price jobs: a price record that the store refuses *)







(* ===================================================================== *)
(** ** The further properties at the sample inputs *)
(* ===================================================================== *)

Lemma fetch_returns_all_pages_witness :
  ∃ st',
    fetchFromRebrickable two_page_env empty_state
    = Some ([small_item; small_item], st')
    ∧ events_since empty_state st'
      = map (fun p => EvRequest (page_request two_page_env empty_state p))
          (seq 1 2)
    ∧ http_calls st' = 2.
Proof.
  apply (fetch_returns_all_pages_to_the_last two_page_env empty_state
           [[small_entry]] [polybag_entry; small_entry]).
  - vm_compute. lia.
  - intros [|i] rs; simpl; intros [= <-].
    eexists _, _. split_and!; [reflexivity | done | done].
  - eexists _, _. split_and!; [reflexivity | reflexivity | done | reflexivity].
Defined.

Lemma fetch_stops_at_empty_page_witness :
  ∃ st',
    fetchFromRebrickable empty_page_env empty_state = Some ([small_item], st')
    ∧ http_calls st' = 2.
Proof.
  apply (fetch_stops_at_empty_page empty_page_env empty_state [[small_entry]]).
  - vm_compute. lia.
  - intros [|i] rs; simpl; intros [= <-].
    eexists _, _. split_and!; [reflexivity | done | done].
  - eexists _, _. split; reflexivity.
Defined.

Lemma fetch_truncates_at_page_ceiling_witness :
  ∃ st',
    fetchFromRebrickable endless_env empty_state
    = Some (replicate 10 small_item, st')
    ∧ events_since empty_state st'
      = map (fun p => EvRequest (page_request endless_env empty_state p))
          (seq 1 10)
    ∧ http_calls st' = 10.
Proof.
  apply (fetch_truncates_at_page_ceiling endless_env empty_state
           (replicate 10 [small_entry])).
  - reflexivity.
  - intros i rs [-> _]%lookup_replicate.
    eexists _, _. split_and!; [reflexivity | done | done].
Defined.

Lemma catalog_read_witness :
  ∃ sets (docs : list (string * Doc)),
    getLegoSetsCatalog sample_env retiring_state = Some (sets, retiring_state)
    ∧ length sets
      = 500 `min` size (filter (fun kd => availability_in kd.2 = true)
                          (collection (db retiring_state) "lego_catalog"))
    ∧ NoDup docs.*1
    ∧ Forall2 (fun kd s =>
                 collection (db retiring_state) "lego_catalog" !! kd.1
                 = Some kd.2
                 ∧ as_LegoSet kd.2 = Some s
                 ∧ selectable s) docs sets.
Proof.
  apply (catalog_read_selects_at_most_500 sample_env retiring_state).
  apply (bool_decide_unpack _). vm_compute. exact I.
Defined.

Lemma saved_item_decodes_back_witness :
  ∃ st' doc,
    saveLegoSetsCatalog [set_A; set_D] sample_env scenario_state
    = Some (tt, st')
    ∧ collection (db st') "lego_catalog" !! "10004-1" = Some doc
    ∧ as_LegoSet doc = Some set_D
    ∧ doc !! "lastUpdated" = Some (VTimestamp 1700000000001%Z).
Proof.
  apply (saved_item_decodes_back sample_env scenario_state [set_A; set_D] 1
           set_D).
  - apply (bool_decide_unpack _). vm_compute. exact I.
  - reflexivity.
  - left. vm_compute. reflexivity.
Defined.

Lemma saved_catalog_is_read_back_witness :
  ∃ st1 read,
    saveLegoSetsCatalog [set_A; set_C; set_D] sample_env empty_state
    = Some (tt, st1)
    ∧ getLegoSetsCatalog sample_env st1 = Some (read, st1)
    ∧ read ⊆+ [set_A; set_D]
    ∧ length read = 2
    ∧ (2 ≤ 500 → read ≡ₚ [set_A; set_D]).
Proof.
  apply (saved_catalog_is_read_back sample_env empty_state
           [set_A; set_C; set_D]).
  - reflexivity.
  - apply (bool_decide_unpack _). vm_compute. exact I.
Defined.

Lemma percent_off_is_the_discount_drawn_witness :
  percentOff (observation set_A "amazon" (of_Z 50) true 1700000000000%Z)
  = of_Z 50
  ∧ (qualifies (observation set_A "amazon" (of_Z 50) true 1700000000000%Z)
     = true
     ↔ (10 ≤ 50)%Z ∧ true = true).
Proof.
  apply (percent_off_is_the_discount_drawn set_A "amazon" 50 true
           1700000000000%Z).
  exists (Q2Qc 100). split; [reflexivity|]. vm_compute. discriminate.
Defined.

Lemma zero_priced_set_never_qualifies_witness :
  percentOff
    (observation set_free "amazon" (Fin (Q2Qc 50)) true 1700000000000%Z)
  = NaN
  ∧ qualifies
      (observation set_free "amazon" (Fin (Q2Qc 50)) true 1700000000000%Z)
    = false.
Proof.
  apply (zero_priced_set_never_qualifies set_free "amazon" (Q2Qc 50) true
           1700000000000%Z).
  reflexivity.
Defined.

Lemma generated_discount_witness :
  ∃ z inStock st',
    generateSimulatedPrice set_A "amazon" sample_env scenario_state
    = Some (observation set_A "amazon" (of_Z z) inStock
              (clock sample_env (clock_calls scenario_state)), st')
    ∧ (z = 0 ∨ 10 ≤ z ≤ 60)%Z
    ∧ ("amazon" = "lego" → z = 0%Z)
    ∧ (inStock = true → LegoSet.availability set_A = available)
    ∧ random_calls scenario_state ≤ random_calls st'
      ≤ 5 + random_calls scenario_state
    ∧ ("amazon" = "lego" → LegoSet.availability set_A ≠ available →
       random_calls st' = random_calls scenario_state)
    ∧ db st' = db scenario_state.
Proof.
  apply (generated_discount_is_zero_or_10_to_60 sample_env scenario_state
           set_A "amazon").
  intros i Hi. destruct i as [|[|[|[|i]]]]; [..|lia];
    split; vm_compute; congruence.
Defined.

Lemma unavailable_sets_witness :
  ∃ out st',
    updatePrices sample_env retiring_state = Some (out, st')
    ∧ (Forall priceable (slice 0 100 [set_A; set_D]) → ∃ n, out = Done n)
    ∧ ∀ s, s ∈ slice 0 100 [set_A; set_D] →
        LegoSet.availability s ≠ available →
        (Forall priceable (slice 0 100 [set_A; set_D]) →
         ∀ r, r ∈ retailers →
           ∃ p, EvWrite (price_write p) ∈ events_since retiring_state st'
                ∧ PriceData.setNumber p = LegoSet.setNumber s
                ∧ PriceData.retailer p = r
                ∧ PriceData.inStock p = false)
        ∧ ((∀ s', s' ∈ slice 0 100 [set_A; set_D] →
              LegoSet.setNumber s' = LegoSet.setNumber s →
              LegoSet.availability s' ≠ available) →
           deals_for (LegoSet.setNumber s) (events_since retiring_state st')
           = []).
Proof.
  apply (unavailable_sets_are_priced_without_deals sample_env retiring_state
           [set_A; set_D]).
  - vm_compute. reflexivity.
  - discriminate.
Defined.

Lemma price_job_write_volume_witness :
  (∃ out st',
     updatePrices sample_env scenario_state = Some (out, st')
     ∧ length (List.filter is_price_write (events_since scenario_state st'))
       ≤ 32
     ∧ length (List.filter is_deal_write (events_since scenario_state st'))
       ≤ length (List.filter is_price_write
                   (events_since scenario_state st'))
     ∧ (Forall priceable (slice 0 100 [set_A; set_B]) →
        ∃ n,
          out = Done n
          ∧ length (List.filter is_price_write
                      (events_since scenario_state st')) = 32
          ∧ length (List.filter is_deal_write
                      (events_since scenario_state st')) = n))
  ∧ (∃ answer st',
       manualPriceUpdate sample_env scenario_state = Some (answer, st')
       ∧ length (List.filter is_price_write (events_since scenario_state st'))
         ≤ 32
       ∧ length (List.filter is_deal_write (events_since scenario_state st'))
         ≤ length (List.filter is_price_write
                     (events_since scenario_state st'))
       ∧ (Forall priceable (slice 0 50 [set_A; set_B]) →
          ∃ res,
            answer = PriceUpdated res
            ∧ length (List.filter is_price_write
                        (events_since scenario_state st')) = 32
            ∧ length (List.filter is_deal_write
                        (events_since scenario_state st'))
              = dealsFound res)).
Proof.
  apply (price_job_write_volume sample_env scenario_state [set_A; set_B]).
  - vm_compute. reflexivity.
  - discriminate.
Defined.

Lemma manual_answer_witness :
  ∃ gs refusal st',
    price_job_run 50 [set_A; set_B] scenario_state st' gs
      (length (deals_of gs)) refusal
    ∧ (refusal = None ↔ Forall priceable (slice 0 50 [set_A; set_B]))
    ∧ match refusal with
      | None =>
          ∃ res,
            manualPriceUpdate sample_env scenario_state
              = Some (PriceUpdated res, st')
            ∧ dealsFound res = length (deals_of gs)
            ∧ sampleDeals res = take 5 (deals_of gs)
            ∧ ([set_A; set_B] ≠ [] → catalogSize res = 2)
      | Some (_, field) =>
          manualPriceUpdate sample_env scenario_state
            = Some (PriceUpdateFailed 500 (UndefinedValue field), st')
          ∧ (field = "theme" ∨ field = "pieces")
      end.
Proof.
  apply (manual_answer_samples_first_five_deals sample_env scenario_state
           [set_A; set_B]).
  vm_compute. reflexivity.
Defined.

Lemma document_ids_witness :
  (docId "10001-1" "best_buy" = docId "10001-1_best" "toys_r_us"
   ↔ "10001-1" = "10001-1_best" ∧ "best_buy" = "toys_r_us")
  ∧ docId "10001-1" "best_buy" ≠ "".
Proof.
  apply (document_ids_do_not_collide "10001-1" "10001-1_best" "best_buy"
           "toys_r_us").
  - apply list_elem_of_In. simpl. tauto.
  - apply list_elem_of_In. simpl. tauto.
Defined.

Lemma price_job_stores_witness :
  (∃ gs n st',
     updatePrices sample_env retiring_state = Some (Done n, st')
     ∧ map (fun g => (gen_set g, gen_retailer g)) gs
       = turns (slice 0 100 [set_A; set_D])
     ∧ Forall generated_ok gs
     ∧ stores_observations sample_env retiring_state st' gs)
  ∧ (∃ gs res st',
       manualPriceUpdate sample_env retiring_state
         = Some (PriceUpdated res, st')
       ∧ map (fun g => (gen_set g, gen_retailer g)) gs
         = turns (slice 0 50 [set_A; set_D])
       ∧ Forall generated_ok gs
       ∧ stores_observations sample_env retiring_state st' gs).
Proof.
  apply (price_job_stores_the_observations sample_env retiring_state
           [set_A; set_D]).
  - vm_compute. reflexivity.
  - discriminate.
  - apply (bool_decide_unpack _). vm_compute. exact I.
  - repeat (apply Forall_cons_2; [split; by eexists|]). apply Forall_nil_2.
Defined.

Lemma deals_found_survive_witness :
  ∃ gs n st',
    updatePrices sample_env scenario_state = Some (Done n, st')
    ∧ price_job_run 100 [set_A; set_B] scenario_state st' gs n None
    ∧ ∀ g, g ∈ gs → qualifies (gen_price g) = true →
        ∃ doc,
          collection (db st') "deals" !! turn_key g = Some doc
          ∧ doc !! "percentOff" = Some (VNumber (percentOff (gen_price g)))
          ∧ doc !! "lastUpdated"
            = Some (VTimestamp (PriceData.lastUpdated (gen_price g))).
Proof.
  apply (deals_found_survive_the_sweep sample_env scenario_state
           [set_A; set_B]).
  - vm_compute. reflexivity.
  - discriminate.
  - apply (bool_decide_unpack _). vm_compute. exact I.
  - repeat (apply Forall_cons_2; [split; by eexists|]). apply Forall_nil_2.
  - intros i Hi. cbn [clock sample_env]. unfold retention. lia.
Defined.

Lemma health_check_witness :
  ∃ st1 res st2,
    saveLegoSetsCatalog [set_A; set_C; set_D] sample_env empty_state
    = Some (tt, st1)
    ∧ healthCheck sample_env st1 = Some (res, st2)
    ∧ catalog_size res = 3
    ∧ deals_count res = size (collection (db empty_state) "deals")
    ∧ health_timestamp res = clock sample_env (clock_calls st1)
    ∧ db st2 = db st1
    ∧ events_since st1 st2 = [].
Proof.
  apply (health_check_counts_the_saved_catalog sample_env empty_state
           [set_A; set_C; set_D]).
  - reflexivity.
  - apply (bool_decide_unpack _). vm_compute. exact I.
Defined.

